(** * LogPilot: the line parser and the masking engine

    A shallow embedding of the two pure stages of the log tool:
    [parseLogText] (component LogUploadSection) and [maskSensitiveData],
    [maskUrl], [maskHeaders], [handleMaskLogs] (component App).

    JavaScript strings are modelled as lists of code units restricted to the
    range 0..255 (the Latin-1 part of UTF-16).  Regular expressions are
    modelled by a backtracking matcher that follows the ECMAScript matching
    rules for the constructs the program uses. *)

From Stdlib Require Import String Ascii List ZArith Lia Bool Arith DecimalString
  DecimalNat DecimalFacts.
From stdpp Require Import base option list gmap strings.

Set Default Proof Using "Type".
Local Open Scope list_scope.

(** ** Code units and strings *)

Definition jsstring := list ascii.

(** The literal [js "abc"] is the JavaScript string 'abc'. *)
Definition js (s : string) : jsstring := list_ascii_of_string s.

Definition code (c : ascii) : N := N_of_ascii c.

Definition dquote : ascii := ascii_of_N 34.
Definition bslash : ascii := ascii_of_N 92.

Definition in_range (lo hi c : ascii) : bool :=
  (code lo <=? code c)%N && (code c <=? code hi)%N.

Definition is_digit (c : ascii) : bool := in_range "0" "9" c.
Definition is_upper (c : ascii) : bool := in_range "A" "Z" c.
Definition is_lower (c : ascii) : bool := in_range "a" "z" c.

(** [\w] is [A-Za-z0-9_]. *)
Definition is_word (c : ascii) : bool :=
  is_upper c || is_lower c || is_digit c || Ascii.eqb c "_".

(** [\s] and [String.prototype.trim]: white space and line terminators.  In
    the modelled range these are TAB, LF, VT, FF, CR, SPACE and NBSP. *)
Definition is_space (c : ascii) : bool :=
  existsb (N.eqb (code c)) [9; 10; 11; 12; 13; 32; 160]%N.

(** Latin-1 letters with a case partner inside the range: A-Z, a-z, and
    U+00C0..U+00DE / U+00E0..U+00FE without the multiplication and division
    signs. *)
Definition is_upper_l1 (c : ascii) : bool :=
  is_upper c || ((192 <=? code c)%N && (code c <=? 222)%N && negb (code c =? 215)%N).
Definition is_lower_l1 (c : ascii) : bool :=
  is_lower c || ((224 <=? code c)%N && (code c <=? 254)%N && negb (code c =? 247)%N).

Definition to_upper (c : ascii) : ascii :=
  if is_lower_l1 c then ascii_of_N (code c - 32) else c.
Definition to_lower (c : ascii) : ascii :=
  if is_upper_l1 c then ascii_of_N (code c + 32) else c.

(** [String.prototype.toLowerCase] on the modelled range.  The lower-case
    form of a code unit from 0 to 255 is one unit of that range, so the
    length is kept; outside that range the function can lengthen a string
    (U+0130 becomes two units), which the model does not cover. *)
Definition toLowerCase (s : jsstring) : jsstring := map to_lower s.

(** [String.prototype.toUpperCase] on the modelled range.  U+00DF maps to
    'SS'; U+00B5 and U+00FF have upper-case forms outside the range and are
    kept (the program applies [toUpperCase] to ASCII letters only, see
    [search_level]). *)
Definition toUpperCase (s : jsstring) : jsstring :=
  flat_map (fun c => if (code c =? 223)%N then js "SS" else [to_upper c]) s.

Fixpoint jseqb (a b : jsstring) : bool :=
  match a, b with
  | [], [] => true
  | x :: a', y :: b' => Ascii.eqb x y && jseqb a' b'
  | _, _ => false
  end.

(** [prefixb p s]: [s] starts with [p] ([String.prototype.startsWith]). *)
Fixpoint prefixb (p s : jsstring) : bool :=
  match p, s with
  | [], _ => true
  | x :: p', y :: s' => Ascii.eqb x y && prefixb p' s'
  | _ :: _, [] => false
  end.

(** [includes w s]: [w] occurs in [s] ([String.prototype.includes]). *)
Fixpoint includes (w s : jsstring) : bool :=
  prefixb w s || match s with [] => false | _ :: s' => includes w s' end.

(** [String.prototype.trim]. *)
Fixpoint trimStart (s : jsstring) : jsstring :=
  match s with
  | c :: s' => if is_space c then trimStart s' else s
  | [] => []
  end.
Definition trimEnd (s : jsstring) : jsstring := rev (trimStart (rev s)).
Definition trim (s : jsstring) : jsstring := trimEnd (trimStart s).

(** [s.split(sep)] for a one-character separator. *)
Fixpoint split (sep : ascii) (s : jsstring) : list jsstring :=
  match s with
  | [] => [[]]
  | c :: s' =>
      if Ascii.eqb c sep then [] :: split sep s'
      else match split sep s' with
           | l :: ls => (c :: l) :: ls
           | [] => [[c]]
           end
  end.

(** ** Regular expressions *)

Inductive cc_item : Type :=
  | CChar (c : ascii)
  | CRange (lo hi : ascii)
  | CDigit
  | CWord
  | CSpace.

Inductive regex : Type :=
  | REps
  | RSet (neg : bool) (items : list cc_item)
  | RSeq (a b : regex)
  | RAlt (a b : regex)
  | RRep (min : nat) (max : option nat) (r : regex)
  | RGroup (n : nat) (r : regex)
  | RBol
  | REol
  | RWordB.

Definition item_has (i : cc_item) (c : ascii) : bool :=
  match i with
  | CChar a => Ascii.eqb a c
  | CRange lo hi => in_range lo hi c
  | CDigit => is_digit c
  | CWord => is_word c
  | CSpace => is_space c
  end.

(** Membership in a class.  Under the [i] flag a code unit belongs to the
    class when some member has the same canonical (upper-case) form, that is
    when the unit, its upper-case or its lower-case partner is a member. *)
Definition set_has (ic : bool) (items : list cc_item) (c : ascii) : bool :=
  existsb (fun i => item_has i c
                    || (ic && (item_has i (to_upper c) || item_has i (to_lower c))))
          items.

Definition caps := list (nat * jsstring).
Definition mres := option (jsstring * caps).
Definition cont := option ascii -> jsstring -> caps -> mres.
Definition matcher := option ascii -> jsstring -> caps -> cont -> mres.

Definition pred_max (mx : option nat) : option nat :=
  match mx with Some n => Some (Nat.pred n) | None => None end.

(** The greedy quantifier: [mn] mandatory iterations, then optional ones
    while [mx] allows; an optional iteration that consumes nothing is
    rejected, as in ECMAScript's RepeatMatcher. *)
Fixpoint rep_loop (body : matcher) (fuel mn : nat) (mx : option nat)
    (prev : option ascii) (rest : jsstring) (cs : caps) (k : cont) : mres :=
  match fuel with
  | O => None
  | S fuel' =>
      match mn with
      | S mn' =>
          body prev rest cs
               (fun p r c => rep_loop body fuel' mn' (pred_max mx) p r c k)
      | O =>
          match mx with
          | Some O => k prev rest cs
          | _ =>
              match body prev rest cs
                      (fun p r c =>
                         if length r <? length rest
                         then rep_loop body fuel' O (pred_max mx) p r c k
                         else None) with
              | Some res => Some res
              | None => k prev rest cs
              end
          end
      end
  end.

Definition word_before (prev : option ascii) : bool :=
  match prev with Some c => is_word c | None => false end.
Definition word_after (rest : jsstring) : bool :=
  match rest with c :: _ => is_word c | [] => false end.

(** [rmatch ic r prev rest cs k]: match [r] at the position whose preceding code
    unit is [prev] and whose remaining input is [rest], then continue with
    [k]; [None] is failure, after which the caller backtracks. *)
Fixpoint rmatch (ic : bool) (r : regex) : matcher :=
  match r with
  | REps => fun p s c k => k p s c
  | RSet neg items => fun p s c k =>
      match s with
      | a :: s' => if xorb neg (set_has ic items a) then k (Some a) s' c else None
      | [] => None
      end
  | RSeq a b => fun p s c k => rmatch ic a p s c (fun p' s' c' => rmatch ic b p' s' c' k)
  | RAlt a b => fun p s c k =>
      match rmatch ic a p s c k with
      | Some res => Some res
      | None => rmatch ic b p s c k
      end
  | RRep mn mx r' => fun p s c k =>
      rep_loop (rmatch ic r') (mn + length s + 1) mn mx p s c k
  | RGroup n r' => fun p s c k =>
      rmatch ic r' p s c
        (fun p' s' c' => k p' s' ((n, firstn (length s - length s') s) :: c'))
  | RBol => fun p s c k => match p with None => k p s c | Some _ => None end
  | REol => fun p s c k => match s with [] => k p s c | _ :: _ => None end
  | RWordB => fun p s c k =>
      if xorb (word_before p) (word_after s) then k p s c else None
  end.

Definition accept : cont := fun _ r c => Some (r, c).

(** One attempt at one position: the remaining input after the match and
    the captures. *)
Definition exec (ic : bool) (r : regex) (prev : option ascii) (rest : jsstring) : mres :=
  rmatch ic r prev rest [] accept.

Definition cap (n : nat) (cs : caps) : jsstring :=
  match find (fun p => fst p =? n) cs with
  | Some (_, s) => s
  | None => []
  end.

(** [s.match(re)] without the [g] flag: the leftmost position at which the
    pattern matches; the result is the matched text and the captures. *)
Fixpoint search_from (ic : bool) (r : regex) (prev : option ascii) (rest : jsstring)
  : option (jsstring * caps) :=
  match exec ic r prev rest with
  | Some (rem, cs) => Some (firstn (length rest - length rem) rest, cs)
  | None =>
      match rest with
      | [] => None
      | c :: rest' => search_from ic r (Some c) rest'
      end
  end.

Definition jsmatch (ic : bool) (r : regex) (s : jsstring) : option (jsstring * caps) :=
  search_from ic r None s.

(** [re.test(s)]. *)
Definition test (ic : bool) (r : regex) (s : jsstring) : bool :=
  match jsmatch ic r s with Some _ => true | None => false end.

(** [s.replace(re, f)] with the [g] flag: matches are found left to right
    without overlap; [skip] counts the code units of the current match still
    to be passed over.  After an empty match the scan moves on by one unit. *)
Fixpoint replace_from (ic : bool) (r : regex) (f : jsstring -> caps -> jsstring)
    (skip : nat) (prev : option ascii) (rest : jsstring) : jsstring :=
  match skip with
  | S k =>
      match rest with
      | c :: rest' => replace_from ic r f k (Some c) rest'
      | [] => []
      end
  | O =>
      match exec ic r prev rest with
      | Some (rem, cs) =>
          let n := length rest - length rem in
          f (firstn n rest) cs ++
          match rest with
          | c :: rest' =>
              match n with
              | O => c :: replace_from ic r f O (Some c) rest'
              | S k => replace_from ic r f k (Some c) rest'
              end
          | [] => []
          end
      | None =>
          match rest with
          | c :: rest' => c :: replace_from ic r f O (Some c) rest'
          | [] => []
          end
      end
  end.

Definition replace (ic : bool) (r : regex) (f : jsstring -> caps -> jsstring)
    (s : jsstring) : jsstring :=
  replace_from ic r f 0 None s.

(** ** Pattern notation *)

Definition chr (c : ascii) : regex := RSet false [CChar c].
Definition cat (rs : list regex) : regex := fold_right RSeq REps rs.
Fixpoint alt (rs : list regex) : regex :=
  match rs with
  | [] => RSet false []
  | [r] => r
  | r :: rs' => RAlt r (alt rs')
  end.
Definition str (s : string) : regex := cat (map chr (list_ascii_of_string s)).
Definition star (r : regex) : regex := RRep 0 None r.
Definition plus (r : regex) : regex := RRep 1 None r.
Definition opt (r : regex) : regex := RRep 0 (Some 1) r.
Definition times (n : nat) (r : regex) : regex := RRep n (Some n) r.
Definition between (lo hi : nat) (r : regex) : regex := RRep lo (Some hi) r.
Definition atleast (lo : nat) (r : regex) : regex := RRep lo None r.
Definition digit : regex := RSet false [CDigit].
Definition wordc : regex := RSet false [CWord].
Definition space : regex := RSet false [CSpace].
Definition oneof (s : string) : regex := RSet false (map CChar (list_ascii_of_string s)).
Definition noneof (items : list cc_item) : regex := RSet true items.
Definition chars (s : string) : list cc_item := map CChar (list_ascii_of_string s).

(** ** The masking engine (component App) *)

(** The classes that end a masked value. *)
Definition value_char : regex :=      (* [^\s&,;)}\]'\x22] *)
  noneof (CSpace :: chars "&,;)}]'" ++ [CChar dquote]).
Definition url_char : regex :=        (* [^\s,;)}\]'\x22] *)
  noneof (CSpace :: chars ",;)}]'" ++ [CChar dquote]).
Definition conn_char : regex :=       (* [^\s;,)}\]] *)
  noneof (CSpace :: chars ";,)}]").
Definition hex : regex :=             (* [0-9a-fA-F] *)
  RSet false [CRange "0" "9"; CRange "a" "f"; CRange "A" "F"].
Definition hexl : regex :=            (* [0-9a-f] *)
  RSet false [CRange "0" "9"; CRange "a" "f"].
Definition d09 : regex := RSet false [CRange "0" "9"].
Definition eq_or_colon : regex := oneof "=:".

(** /key[=:]\s*[^\s&,;)}\]'\x22]+/gi *)
Definition re_credential (key : regex) : regex :=
  cat [key; eq_or_colon; star space; plus value_char].

Definition re_password : regex := re_credential (str "password").
Definition re_token : regex := re_credential (str "token").
(** /api[_-]?key[=:]\s*.../gi *)
Definition re_api_key : regex :=
  re_credential (cat [str "api"; opt (oneof "_-"); str "key"]).
Definition re_jwt : regex := re_credential (str "jwt").
Definition re_session : regex := re_credential (str "session").

(** /Bearer\s+[^\s&,;)}\]'\x22]+/gi and /Basic\s+.../gi *)
Definition re_scheme (word : string) : regex :=
  cat [str word; plus space; plus value_char].
Definition re_bearer : regex := re_scheme "Bearer".
Definition re_basic : regex := re_scheme "Basic".

(** /https?:\/\/[^\s,;)}\]'\x22]+/gi *)
Definition re_abs_url : regex :=
  cat [str "http"; opt (chr "s"); str "://"; plus url_char].

(** /\/[^\s?]*\?[^\s,;)}\]'\x22]+/g *)
Definition re_rel_url : regex :=
  cat [chr "/"; star (noneof [CSpace; CChar "?"]); chr "?"; plus url_char].

(** /\b\d{1,3}\.\d{1,3}\.\d{1,3}\.\d{1,3}\b/g *)
Definition re_ipv4 : regex :=
  cat [RWordB; between 1 3 digit; chr "."; between 1 3 digit; chr ".";
       between 1 3 digit; chr "."; between 1 3 digit; RWordB].

Definition hextet : regex := between 1 4 hex.
Definition hextet_colon : regex := cat [hextet; chr ":"].

(** /\b(?:[0-9a-fA-F]{1,4}:){7}[0-9a-fA-F]{1,4}\b/g *)
Definition re_ipv6_full : regex :=
  cat [RWordB; times 7 hextet_colon; hextet; RWordB].
(** /\b(?:[0-9a-fA-F]{1,4}:){1,6}:[0-9a-fA-F]{1,4}\b/g *)
Definition re_ipv6_mid : regex :=
  cat [RWordB; between 1 6 hextet_colon; chr ":"; hextet; RWordB].
(** /\b::(?:[0-9a-fA-F]{1,4}:)*[0-9a-fA-F]{1,4}\b/g *)
Definition re_ipv6_lead : regex :=
  cat [RWordB; str "::"; star hextet_colon; hextet; RWordB].
(** /\b[0-9a-fA-F]{1,4}::(?:[0-9a-fA-F]{1,4}:)*[0-9a-fA-F]{1,4}\b/g *)
Definition re_ipv6_one : regex :=
  cat [RWordB; hextet; str "::"; star hextet_colon; hextet; RWordB].

(** /\b[A-Za-z0-9._%+-]+@[A-Za-z0-9.-]+\.[A-Z|a-z]{2,}\b/g *)
Definition re_email : regex :=
  cat [RWordB;
       plus (RSet false ([CRange "A" "Z"; CRange "a" "z"; CRange "0" "9"] ++ chars "._%+-"));
       chr "@";
       plus (RSet false ([CRange "A" "Z"; CRange "a" "z"; CRange "0" "9"] ++ chars ".-"));
       chr ".";
       atleast 2 (RSet false [CRange "A" "Z"; CChar "|"; CRange "a" "z"]);
       RWordB].

(** /\b(?:\+?1[-.\s]?)?\(?[0-9]{3}\)?[-.\s]?[0-9]{3}[-.\s]?[0-9]{4}\b/g *)
Definition phone_sep : regex := RSet false [CChar "-"; CChar "."; CSpace].
Definition re_phone : regex :=
  cat [RWordB;
       opt (cat [opt (chr "+"); chr "1"; opt phone_sep]);
       opt (chr "("); times 3 d09; opt (chr ")"); opt phone_sep;
       times 3 d09; opt phone_sep; times 4 d09; RWordB].

(** /\b(?:4[0-9]{12}(?:[0-9]{3})?|5[1-5][0-9]{14}|3[47][0-9]{13}|3[0-9]{13}
       |6(?:011|5[0-9]{2})[0-9]{12})\b/g *)
Definition re_card : regex :=
  cat [RWordB;
       alt [cat [chr "4"; times 12 d09; opt (times 3 d09)];
            cat [chr "5"; RSet false [CRange "1" "5"]; times 14 d09];
            cat [chr "3"; oneof "47"; times 13 d09];
            cat [chr "3"; times 13 d09];
            cat [chr "6"; alt [str "011"; cat [chr "5"; times 2 d09]]; times 12 d09]];
       RWordB].

(** /\b\d{3}-\d{2}-\d{4}\b/g *)
Definition re_ssn : regex :=
  cat [RWordB; times 3 digit; chr "-"; times 2 digit; chr "-"; times 4 digit; RWordB].

(** /key[=:][^\s;,)}\]]+/gi *)
Definition re_conn (key : string) : regex :=
  cat [str key; eq_or_colon; plus conn_char].

(** /[A-Za-z]:\\(?:[^\\/:*?\x22<>|\r\n]+\\)*[^\\/:*?\x22<>|\r\n]*/g *)
Definition win_char : regex :=
  noneof ([CChar bslash] ++ chars "/:*?" ++ [CChar dquote] ++ chars "<>|"
          ++ [CChar (ascii_of_N 13); CChar (ascii_of_N 10)]).
Definition re_win_path : regex :=
  cat [RSet false [CRange "A" "Z"; CRange "a" "z"]; chr ":"; chr bslash;
       star (cat [plus win_char; chr bslash]); star win_char].

(** /\/(?:home|Users)\/[^\s,;)}\]]+/g *)
Definition re_home_path : regex :=
  cat [chr "/"; alt [str "home"; str "Users"]; chr "/";
       plus (noneof (CSpace :: chars ",;)}]"))].

(** /\b[0-9a-f]{8}-[0-9a-f]{4}-[1-5][0-9a-f]{3}-[89ab][0-9a-f]{3}-[0-9a-f]{12}\b/gi *)
Definition re_uuid : regex :=
  cat [RWordB; times 8 hexl; chr "-"; times 4 hexl; chr "-";
       RSet false [CRange "1" "5"]; times 3 hexl; chr "-";
       oneof "89ab"; times 3 hexl; chr "-"; times 12 hexl; RWordB].

(** /\b[A-Za-z0-9+/]{32,}={0,2}\b/g *)
Definition re_hash : regex :=
  cat [RWordB;
       atleast 32 (RSet false ([CRange "A" "Z"; CRange "a" "z"; CRange "0" "9"] ++ chars "+/"));
       between 0 2 (chr "="); RWordB].

(** /([?&](token|key|password|secret|auth)[^=]*=)[^&]*/gi *)
Definition re_query_fallback : regex :=
  cat [RGroup 1 (cat [oneof "?&";
                      RGroup 2 (alt [str "token"; str "key"; str "password";
                                     str "secret"; str "auth"]);
                      star (noneof [CChar "="]); chr "="]);
       star (noneof [CChar "&"])].

Definition MASKED : jsstring := js "***MASKED***".

(** The replacement is a plain string (none of them contains a dollar sign). *)
Definition const (t : string) : jsstring -> caps -> jsstring := fun _ _ => js t.

(** ** The host's URL class

    [new URL(s)], the accessors the program uses and [toString] belong to the
    platform, not to the program, and are taken as a parameter.  What the URL
    standard fixes for every implementation is built into [URL_new]: without a
    base, a string that has no scheme is never parsed. *)

Record URLImpl : Type := {
  URL : Type;
  (** the parser on a string that starts with a scheme; [None] is failure *)
  url_parse : jsstring -> option URL;
  username : URL -> jsstring;
  password : URL -> jsstring;
  set_username : jsstring -> URL -> URL;
  set_password : jsstring -> URL -> URL;
  (** the name-value pairs of [searchParams], in order *)
  searchParams : URL -> list (jsstring * jsstring);
  (** the URL after [searchParams] was updated to the given pairs *)
  update_query : list (jsstring * jsstring) -> URL -> URL;
  toString : URL -> jsstring
}.

Definition is_alpha (c : ascii) : bool := is_upper c || is_lower c.

Fixpoint scheme_rest (s : jsstring) : bool :=
  match s with
  | [] => false
  | c :: s' =>
      if Ascii.eqb c ":" then true
      else if is_alpha c || is_digit c || Ascii.eqb c "+" || Ascii.eqb c "-" || Ascii.eqb c "."
           then scheme_rest s' else false
  end.

Fixpoint drop_c0_space (s : jsstring) : jsstring :=
  match s with
  | c :: s' => if (code c <=? 32)%N then drop_c0_space s' else s
  | [] => []
  end.

Definition tab_or_newline (c : ascii) : bool :=
  (code c =? 9)%N || (code c =? 10)%N || (code c =? 13)%N.

(** The URL parser's scheme states: leading C0 controls and spaces are
    dropped, tabs and newlines are removed, and the input must then start
    with a letter followed by letters, digits, [+], [-] or [.] up to a colon. *)
Definition has_scheme (s : jsstring) : bool :=
  match List.filter (fun c => negb (tab_or_newline c)) (drop_c0_space s) with
  | c :: s' => is_alpha c && scheme_rest s'
  | [] => false
  end.

(** [URLSearchParams.set]: the first pair named [name] takes the value, the
    other pairs of that name are removed; a new pair is appended if there is
    none. *)
Fixpoint remove_named (name : jsstring) (ps : list (jsstring * jsstring)) :=
  match ps with
  | [] => []
  | (k, v) :: ps' =>
      if jseqb k name then remove_named name ps' else (k, v) :: remove_named name ps'
  end.

Fixpoint params_set (name value : jsstring) (ps : list (jsstring * jsstring)) :=
  match ps with
  | [] => [(name, value)]
  | (k, v) :: ps' =>
      if jseqb k name then (k, value) :: remove_named name ps'
      else (k, v) :: params_set name value ps'
  end.

Definition sensitiveParams : list jsstring :=
  [js "token"; js "key"; js "password"; js "secret"; js "auth"].

Definition sensitive_name (key : jsstring) : bool :=
  existsb (fun param => includes param (toLowerCase key)) sensitiveParams.

(** [searchParams.forEach] walks the live list by index while the callback
    updates it; the flag records whether [set] was called. *)
Fixpoint forEach_mask (fuel i : nat) (ps : list (jsstring * jsstring)) (changed : bool)
  : list (jsstring * jsstring) * bool :=
  match fuel with
  | O => (ps, changed)
  | S fuel' =>
      match nth_error ps i with
      | None => (ps, changed)
      | Some (key, _) =>
          if sensitive_name key
          then forEach_mask fuel' (S i) (params_set key MASKED ps) true
          else forEach_mask fuel' (S i) ps changed
      end
  end.

Section Masker.

Context (U : URLImpl).

Definition URL_new (s : jsstring) : option (URL U) :=
  if has_scheme s then url_parse U s else None.

Definition nonempty (s : jsstring) : bool :=
  match s with [] => false | _ :: _ => true end.

Definition maskUrl (url : jsstring) : jsstring :=
  if negb (nonempty url) then url
  else
    match URL_new url with
    | Some urlObj =>
        let urlObj1 :=
          if nonempty (username U urlObj) || nonempty (password U urlObj)
          then set_password U (js "***") (set_username U (js "***") urlObj)
          else urlObj in
        let '(ps, changed) :=
          forEach_mask (length (searchParams U urlObj1)) 0 (searchParams U urlObj1) false in
        toString U (if changed then update_query U ps urlObj1 else urlObj1)
    | None =>
        replace true re_query_fallback (fun _ cs => cap 1 cs ++ MASKED) url
    end.

(** The callback of the last rule. *)
Definition mask_hash (match_ : jsstring) : jsstring :=
  if (32 <=? length match_)
     && test false (RSet false [CRange "A" "Z"]) match_
     && test false (RSet false [CRange "a" "z"]) match_
     && test false (RSet false [CRange "0" "9"]) match_
  then js "***HASH_MASKED***"
  else match_.

(** One [.replace] call of the chain: flag [i], pattern, replacement. *)
Definition rule : Type := bool * regex * (jsstring -> caps -> jsstring).

Definition apply_rule (s : jsstring) (ru : rule) : jsstring :=
  let '(ic, r, f) := ru in replace ic r f s.

Definition mask_rules : list rule :=
  [ (true, re_password, const "password=***MASKED***");
    (true, re_token, const "token=***MASKED***");
    (true, re_api_key, const "api_key=***MASKED***");
    (true, re_bearer, const "Bearer ***MASKED***");
    (true, re_basic, const "Basic ***MASKED***");
    (true, re_jwt, const "jwt=***MASKED***");
    (true, re_session, const "session=***MASKED***");
    (true, re_abs_url, fun match_ _ => maskUrl match_);
    (false, re_rel_url, fun match_ _ => maskUrl match_);
    (false, re_ipv4, const "***IP_MASKED***");
    (false, re_ipv6_full, const "***IPv6_MASKED***");
    (false, re_ipv6_mid, const "***IPv6_MASKED***");
    (false, re_ipv6_lead, const "***IPv6_MASKED***");
    (false, re_ipv6_one, const "***IPv6_MASKED***");
    (false, re_email, const "***EMAIL_MASKED***");
    (false, re_phone, const "***PHONE_MASKED***");
    (false, re_card, const "***CARD_MASKED***");
    (false, re_ssn, const "***SSN_MASKED***");
    (true, re_conn "server", const "server=***MASKED***");
    (true, re_conn "database", const "database=***MASKED***");
    (true, re_conn "user", const "user=***MASKED***");
    (true, re_conn "uid", const "uid=***MASKED***");
    (true, re_conn "pwd", const "pwd=***MASKED***");
    (false, re_win_path, const "***PATH_MASKED***");
    (false, re_home_path, const "***PATH_MASKED***");
    (true, re_uuid, const "***UUID_MASKED***");
    (false, re_hash, fun match_ _ => mask_hash match_) ].

Definition maskSensitiveData (message : jsstring) : jsstring :=
  fold_left apply_rule mask_rules message.

End Masker.

(** ** Log records (types.ts) *)

Record LogEntry : Type := {
  id : jsstring;
  timestamp : jsstring;
  level : jsstring;
  message : jsstring;
  component : option jsstring;
  url : option jsstring;
  responseCode : option jsstring;
  headers : option (gmap jsstring jsstring)
}.

(** [maskHeaders]: a copy of the map in which the value of every key whose
    lower-case form contains 'authorization', 'token' or 'key' is the
    sentinel. *)
Definition sensitive_header (key : jsstring) : bool :=
  includes (js "authorization") (toLowerCase key)
  || includes (js "token") (toLowerCase key)
  || includes (js "key") (toLowerCase key).

Definition maskHeaders (hs : gmap jsstring jsstring) : gmap jsstring jsstring :=
  map_imap (fun key value => Some (if sensitive_header key then MASKED else value)) hs.

(** [a || b] on an optional string: the empty string is falsy too. *)
Definition or_default (a : option jsstring) (b : jsstring) : jsstring :=
  match a with
  | Some s => if nonempty s then s else b
  | None => b
  end.

Section MaskLogs.

Context (U : URLImpl).

(** The body of the [logs.map] callback of [handleMaskLogs]: the spread
    copies every field, then [message], [url] and [headers] are overridden. *)
Definition mask_log (log : LogEntry) : LogEntry :=
  {| id := id log;
     timestamp := timestamp log;
     level := level log;
     message := maskSensitiveData U (message log);
     component := component log;
     url := Some (maskUrl U (or_default (url log) []));
     responseCode := responseCode log;
     headers := Some (maskHeaders (default ∅ (headers log))) |}.

Definition handleMaskLogs (logs : list LogEntry) : list LogEntry :=
  map mask_log logs.

End MaskLogs.

(** ** The line parser (component LogUploadSection) *)

(** /(\d{4}-\d{2}-\d{2}[T\s]\d{2}:\d{2}:\d{2}(?:\.\d{3})?(?:Z|[+-]\d{2}:\d{2})?)/ *)
Definition hms : regex :=
  cat [times 2 digit; chr ":"; times 2 digit; chr ":"; times 2 digit].
Definition re_ts_iso : regex :=
  RGroup 1 (cat [times 4 digit; chr "-"; times 2 digit; chr "-"; times 2 digit;
                 RSet false [CChar "T"; CSpace]; hms;
                 opt (cat [chr "."; times 3 digit]);
                 opt (alt [chr "Z";
                           cat [oneof "+-"; times 2 digit; chr ":"; times 2 digit]])]).
(** /(\d{2}\/\d{2}\/\d{4}\s+\d{2}:\d{2}:\d{2})/ *)
Definition re_ts_slash : regex :=
  RGroup 1 (cat [times 2 digit; chr "/"; times 2 digit; chr "/"; times 4 digit;
                 plus space; hms]).
(** /(\w{3}\s+\d{1,2}\s+\d{2}:\d{2}:\d{2})/ *)
Definition re_ts_syslog : regex :=
  RGroup 1 (cat [times 3 wordc; plus space; between 1 2 digit; plus space; hms]).
(** /(\d{13})/ *)
Definition re_ts_epoch : regex := RGroup 1 (times 13 digit).

Definition timestampPatterns : list regex :=
  [re_ts_iso; re_ts_slash; re_ts_syslog; re_ts_epoch].

(** /^\d{13}$/ *)
Definition re_epoch_only : regex := cat [RBol; times 13 digit; REol].

(** /\b(TRACE|DEBUG|INFO|WARN|WARNING|ERROR|FATAL|CRITICAL)\b/i *)
Definition level_words : list string :=
  ["TRACE"; "DEBUG"; "INFO"; "WARN"; "WARNING"; "ERROR"; "FATAL"; "CRITICAL"]%string.
Definition re_level : regex :=
  cat [RWordB; RGroup 1 (alt (map str level_words)); RWordB].

(** /https?:\/\/[^\s,;)}\]]+/, /\/[a-zA-Z0-9\/\-_.~!*'();:@&=+$,?#[\]]*/ and
    /\w+:\/\/[^\s,;)}\]]+/ *)
Definition re_url_http : regex :=
  cat [str "http"; opt (chr "s"); str "://"; plus conn_char].
Definition re_url_path : regex :=
  cat [chr "/";
       star (RSet false ([CRange "a" "z"; CRange "A" "Z"; CRange "0" "9"]
                         ++ chars "/-_.~!*'();:@&=+$,?#[]"))].
Definition re_url_any : regex :=
  cat [plus wordc; str "://"; plus conn_char].

(** /\b([1-5]\d{2})\b/, /status[=:\s]+([1-5]\d{2})/i, /code[=:\s]+([1-5]\d{2})/i *)
Definition code3 : regex := RGroup 1 (cat [RSet false [CRange "1" "5"]; times 2 digit]).
Definition sep_chars : regex := RSet false [CChar "="; CChar ":"; CSpace].
Definition re_code_bare : regex := cat [RWordB; code3; RWordB].
Definition re_code_after (key : string) : regex := cat [str key; plus sep_chars; code3].

(** /\[([^\]]+)\]/, /(\w+Service|\w+Controller|\w+Module|\w+Handler|\w+Provider)/,
    /logger[=:\s]+(\w+)/i, /class[=:\s]+(\w+)/i, /^(\w+):/ *)
Definition re_comp_bracket : regex :=
  cat [chr "["; RGroup 1 (plus (noneof [CChar "]"])); chr "]"].
Definition re_comp_suffix : regex :=
  RGroup 1 (alt (map (fun w => cat [plus wordc; str w])
                     ["Service"; "Controller"; "Module"; "Handler"; "Provider"]%string)).
Definition re_comp_after (key : string) : regex :=
  cat [str key; plus sep_chars; RGroup 1 (plus wordc)].
Definition re_comp_prefix : regex := cat [RBol; RGroup 1 (plus wordc); chr ":"].

Definition componentPatterns : list (bool * regex) :=
  [ (false, re_comp_bracket); (false, re_comp_suffix);
    (true, re_comp_after "logger"); (true, re_comp_after "class");
    (false, re_comp_prefix) ].

(** /headers?\s*[:=]\s*\{([^}]+)\}/i *)
Definition re_headers : regex :=
  cat [str "header"; opt (chr "s"); star space; oneof ":="; star space;
       chr "{"; RGroup 1 (plus (noneof [CChar "}"])); chr "}"].

(** /['\x22]/g *)
Definition re_quote : regex := RSet false [CChar "'"; CChar dquote].

(** *** Dates *)

Fixpoint digits_value (acc : Z) (s : jsstring) : Z :=
  match s with
  | [] => acc
  | c :: s' => digits_value (10 * acc + (Z.of_N (code c) - 48)) s'
  end.

(** [parseInt] on a string of decimal digits. *)
Definition parseInt (s : jsstring) : Z := digits_value 0 s.

Definition digit_char (z : Z) : ascii := ascii_of_N (Z.to_N (48 + z mod 10)).

Fixpoint pad_digits (width : nat) (z : Z) (acc : jsstring) : jsstring :=
  match width with
  | O => acc
  | S w => pad_digits w (z / 10) (digit_char z :: acc)
  end.

(** The decimal numeral of [z >= 0], zero-padded to [width] digits. *)
Definition pad (width : nat) (z : Z) : jsstring := pad_digits width z [].

(** Year, month and day of a day number counted from 1970-01-01 in the
    proleptic Gregorian calendar. *)
Definition civil_from_days (days : Z) : Z * Z * Z :=
  let z := (days + 719468)%Z in
  let era := (z / 146097)%Z in
  let doe := (z - era * 146097)%Z in
  let yoe := ((doe - doe / 1460 + doe / 36524 - doe / 146096) / 365)%Z in
  let doy := (doe - (365 * yoe + yoe / 4 - yoe / 100))%Z in
  let mp := ((5 * doy + 2) / 153)%Z in
  let d := (doy - (153 * mp + 2) / 5 + 1)%Z in
  let mo := (if (mp <? 10)%Z then mp + 3 else mp - 9)%Z in
  let y := (yoe + era * 400 + (if (mo <=? 2)%Z then 1 else 0))%Z in
  (y, mo, d).

(** [new Date(ms).toISOString()]; [None] is the RangeError raised for a time
    value outside +-8.64e15 ms. *)
Definition toISOString (ms : Z) : option jsstring :=
  if (Z.abs ms <=? 8640000000000000)%Z then
    let day := (ms / 86400000)%Z in
    let t := (ms mod 86400000)%Z in
    let '(y, mo, d) := civil_from_days day in
    let year :=
      if ((0 <=? y) && (y <=? 9999))%Z then pad 4 y
      else (if (y <? 0)%Z then "-"%char else "+"%char) :: pad 6 (Z.abs y) in
    Some (year ++ js "-" ++ pad 2 mo ++ js "-" ++ pad 2 d ++ js "T"
          ++ pad 2 (t / 3600000) ++ js ":" ++ pad 2 (t / 60000 mod 60) ++ js ":"
          ++ pad 2 (t / 1000 mod 60) ++ js "." ++ pad 3 (t mod 1000) ++ js "Z")
  else None.

(** *** Field extraction *)

Fixpoint first_capture (pats : list (bool * regex)) (line : jsstring) : option jsstring :=
  match pats with
  | [] => None
  | (ic, p) :: pats' =>
      match jsmatch ic p line with
      | Some (_, cs) => Some (cap 1 cs)
      | None => first_capture pats' line
      end
  end.

(** The timestamp loop; the outer [None] is an exception, [now] is the value
    of [new Date().toISOString()] read at the start of the line. *)
Definition extract_timestamp (now line : jsstring) : option jsstring :=
  match first_capture (map (pair false) timestampPatterns) line with
  | Some ts => if test false re_epoch_only ts then toISOString (parseInt ts) else Some ts
  | None => Some now
  end.

Definition normalize_level (matchedLevel : jsstring) : jsstring :=
  if jseqb matchedLevel (js "WARNING") then js "WARN"
  else if jseqb matchedLevel (js "FATAL") || jseqb matchedLevel (js "CRITICAL") then js "ERROR"
  else if jseqb matchedLevel (js "TRACE") then js "DEBUG"
  else matchedLevel.

Definition extract_level (line : jsstring) : jsstring :=
  match jsmatch true re_level line with
  | Some (_, cs) => normalize_level (toUpperCase (cap 1 cs))
  | None => js "INFO"
  end.

Definition or_match (a b : option (jsstring * caps)) : option (jsstring * caps) :=
  match a with Some _ => a | None => b end.

Definition extract_url (line : jsstring) : option jsstring :=
  fst <$> or_match (jsmatch false re_url_http line)
            (or_match (jsmatch false re_url_path line) (jsmatch false re_url_any line)).

Definition extract_responseCode (line : jsstring) : option jsstring :=
  (fun r => cap 1 (snd r)) <$>
    or_match (jsmatch false re_code_bare line)
      (or_match (jsmatch true (re_code_after "status") line)
                (jsmatch true (re_code_after "code") line)).

Definition extract_component (line : jsstring) : option jsstring :=
  first_capture componentPatterns line.

(** [s.trim().replace(/['\x22]/g, '')] *)
Definition clean (s : jsstring) : jsstring :=
  replace false re_quote (fun _ _ => []) (trim s).

(** [headers[key] = value] on an object literal: an assignment to
    [__proto__] with a string value creates no property. *)
Definition set_header (key value : jsstring) (hs : gmap jsstring jsstring) :=
  if jseqb key (js "__proto__") then hs else <[key := value]> hs.

(** The [forEach] callback on one pair: the first two pieces of the split
    are taken, the others are dropped. *)
Definition add_pair (hs : gmap jsstring jsstring) (pair : jsstring) : gmap jsstring jsstring :=
  match map clean (split ":" pair) with
  | key :: value :: _ => if nonempty key && nonempty value then set_header key value hs else hs
  | _ => hs
  end.

Definition parse_headers (headerString : jsstring) : gmap jsstring jsstring :=
  fold_left add_pair (split "," headerString) ∅.

Definition extract_headers (line : jsstring) : option (gmap jsstring jsstring) :=
  match jsmatch true re_headers line with
  | Some (_, cs) =>
      let hs := parse_headers (cap 1 cs) in
      if decide (hs = ∅) then None else Some hs
  | None => None
  end.

Definition nat_to_string (n : nat) : jsstring :=
  js (NilZero.string_of_uint (Nat.to_uint n)).

Definition log_id (index : nat) : jsstring := js "log-" ++ nat_to_string (index + 1).

(** The [try] block for one line; [None] is an exception. *)
Definition parse_line (now : jsstring) (index : nat) (line : jsstring) : option LogEntry :=
  ts ← extract_timestamp now line;
  Some {| id := log_id index;
          timestamp := ts;
          level := extract_level line;
          message := trim line;
          component := extract_component line;
          url := extract_url line;
          responseCode := extract_responseCode line;
          headers := extract_headers line |}.

(** The [catch] block. *)
Definition fallbackLog (now : jsstring) (index : nat) (line : jsstring) : LogEntry :=
  {| id := log_id index;
     timestamp := now;
     level := js "INFO";
     message :=
       or_default (Some (trim line))
         (js "[Unparseable log entry at line " ++ nat_to_string (index + 1) ++ js "]");
     component := None; url := None; responseCode := None; headers := None |}.

(** The clock: [clock n] is the string that the [n]-th evaluation of
    [new Date().toISOString()] of the invocation returns. *)
Definition Clock := nat -> jsstring.

(** [lines.forEach]: the state is the number of clock readings so far and
    the records pushed so far. *)
Definition parse_step (clock : Clock) (st : nat * list LogEntry) (il : nat * jsstring)
  : nat * list LogEntry :=
  let '(reads, logs) := st in
  let '(index, line) := il in
  match parse_line (clock reads) index line with
  | Some log => (S reads, logs ++ [log])
  | None => (S (S reads), logs ++ [fallbackLog (clock (S reads)) index line])
  end.

Definition nonblank (line : jsstring) : bool := nonempty (trim line).

Definition text_lines (text : jsstring) : list jsstring :=
  List.filter nonblank (split (ascii_of_N 10) text).

Definition parseLogText (clock : Clock) (text : jsstring) : list LogEntry :=
  snd (fold_left (parse_step clock) (imap pair (text_lines text)) (0, [])).

(** ** Filtering and paging (component LogPreview) *)

Module FilterOptions.
(** [timestampRange.start] and [timestampRange.end] are [range_start] and
    [range_end]. *)
Record t : Type := {
  range_start : jsstring;
  range_end : jsstring;
  logLevel : jsstring;
  keyword : jsstring;
  component : jsstring;
  responseCode : jsstring
}.
End FilterOptions.

(** [a < b] and [a > b] on the time values of two dates; [None] is the time
    value of an invalid date, NaN, which compares false with everything. *)
Definition time_lt (a b : option Z) : bool :=
  match a, b with Some x, Some y => (x <? y)%Z | _, _ => false end.
Definition time_gt (a b : option Z) : bool :=
  match a, b with Some x, Some y => (y <? x)%Z | _, _ => false end.

(** [a || ''] on an optional string, as a truth value. *)
Definition truthy (a : option jsstring) : bool :=
  match a with Some s => nonempty s | None => false end.

Section LogPreview.

(** [new Date(s)] on a string belongs to the host (the formats it accepts
    beside ISO 8601 are implementation-defined): its time value is a
    parameter. *)
Context (Date_parse : jsstring -> option Z).

(** The callback of [logs.filter] in [filteredLogs]. *)
Definition passes (filters : FilterOptions.t) (log : LogEntry) : bool :=
  if (nonempty (FilterOptions.range_start filters) || nonempty (FilterOptions.range_end filters))
     && ((nonempty (FilterOptions.range_start filters)
          && time_lt (Date_parse (timestamp log)) (Date_parse (FilterOptions.range_start filters)))
         || (nonempty (FilterOptions.range_end filters)
             && time_gt (Date_parse (timestamp log)) (Date_parse (FilterOptions.range_end filters))))
  then false
  else if nonempty (FilterOptions.logLevel filters)
          && negb (jseqb (level log) (FilterOptions.logLevel filters))
  then false
  else if nonempty (FilterOptions.keyword filters)
          && negb (includes (toLowerCase (FilterOptions.keyword filters))
                            (toLowerCase (message log)))
  then false
  else if nonempty (FilterOptions.component filters)
          && (negb (truthy (component log))
              || negb (includes (toLowerCase (FilterOptions.component filters))
                                (toLowerCase (default [] (component log)))))
  then false
  else if nonempty (FilterOptions.responseCode filters)
  then
    if length (FilterOptions.responseCode filters) =? 1
    then negb (negb (truthy (responseCode log))
               || negb (prefixb (FilterOptions.responseCode filters)
                                (default [] (responseCode log))))
    else match responseCode log with
         | Some rc => jseqb rc (FilterOptions.responseCode filters)
         | None => false
         end
  else true.

Definition filteredLogs (logs : list LogEntry) (filters : FilterOptions.t) : list LogEntry :=
  List.filter (passes filters) logs.

End LogPreview.

(** [Array.prototype.slice(start, end)]: a negative index counts from the
    end. *)
Definition slice {A : Type} (l : list A) (start end_ : Z) : list A :=
  let len := Z.of_nat (length l) in
  let k := if (start <? 0)%Z then Z.max (len + start) 0 else Z.min start len in
  let final := if (end_ <? 0)%Z then Z.max (len + end_) 0 else Z.min end_ len in
  firstn (Z.to_nat (final - k)) (skipn (Z.to_nat k) l).

Definition logsPerPage : Z := 50.

Definition paginatedLogs {A : Type} (filtered : list A) (currentPage : Z) : list A :=
  let startIndex := ((currentPage - 1) * logsPerPage)%Z in
  slice filtered startIndex (startIndex + logsPerPage).

(** [Math.ceil(filteredLogs.length / logsPerPage)]; the quotient of an array
    length by 50 is far from the range where rounding could reach the next
    integer. *)
Definition totalPages (n : nat) : Z := ((Z.of_nat n + (logsPerPage - 1)) / logsPerPage)%Z.

(** The page numbers on the buttons of the pager:
    [Array.from({ length: Math.min(5, totalPages) }, (_, i) =>
       Math.max(1, Math.min(totalPages - 4, currentPage - 2)) + i)]. *)
Definition pager_pages (total currentPage : Z) : list Z :=
  map (fun i => (Z.max 1 (Z.min (total - 4) (currentPage - 2)) + Z.of_nat i)%Z)
      (List.seq 0 (Z.to_nat (Z.min 5 total))).

(** ** Filter controls (component FilterControls) *)

Definition count_if (b : bool) (count : nat) : nat := if b then S count else count.

Definition getActiveFilterCount (filters : FilterOptions.t) : nat :=
  count_if (nonempty (FilterOptions.responseCode filters))
    (count_if (nonempty (FilterOptions.component filters))
      (count_if (nonempty (FilterOptions.keyword filters))
        (count_if (nonempty (FilterOptions.logLevel filters))
          (count_if (nonempty (FilterOptions.range_start filters)
                     || nonempty (FilterOptions.range_end filters)) 0)))).

(** The filters that [clearAllFilters] installs. *)
Definition clearAllFilters : FilterOptions.t :=
  {| FilterOptions.range_start := []; FilterOptions.range_end := [];
     FilterOptions.logLevel := []; FilterOptions.keyword := [];
     FilterOptions.component := []; FilterOptions.responseCode := [] |}.

(** ** Export and analysis (component App) *)

(** [lines.join(sep)]. *)
Fixpoint join (sep : jsstring) (lines : list jsstring) : jsstring :=
  match lines with
  | [] => []
  | [l] => l
  | l :: ls => l ++ sep ++ join sep ls
  end.

(** The line of one record in [exportMaskedLogs]. *)
Definition export_line (log : LogEntry) : jsstring :=
  let line := timestamp log ++ js " " ++ level log ++ js " ["
              ++ or_default (component log) (js "Unknown") ++ js "] " ++ message log in
  let line := if truthy (url log) then line ++ js " URL: " ++ default [] (url log) else line in
  if truthy (responseCode log)
  then line ++ js " Status: " ++ default [] (responseCode log) else line.

(** The text that [exportMaskedLogs] saves; [None] is the alert shown when
    there is nothing to export. *)
Definition exportMaskedLogs (maskedLogs : list LogEntry) : option jsstring :=
  match maskedLogs with
  | [] => None
  | _ :: _ => Some (join [ascii_of_N 10] (map export_line maskedLogs))
  end.

(** The line of one record sent to the analysis in [handleAnalyzeLogs]. *)
Definition analysis_line (l : LogEntry) : jsstring :=
  js "[" ++ timestamp l ++ js "] [" ++ level l ++ js "]"
  ++ (if truthy (component l) then js " [" ++ default [] (component l) ++ js "]" else [])
  ++ js " " ++ message l.

Record Summary : Type := {
  totalLogs : nat;
  errorCount : nat;
  warningCount : nat;
  infoCount : nat;
  debugCount : nat
}.

Definition count_level (lv : string) (logs : list LogEntry) : nat :=
  length (List.filter (fun l => jseqb (level l) (js lv)) logs).

(** The summary that [handleAnalyzeLogs] builds. *)
Definition summary (maskedLogs : list LogEntry) : Summary :=
  {| totalLogs := length maskedLogs;
     errorCount := count_level "ERROR" maskedLogs;
     warningCount := count_level "WARN" maskedLogs;
     infoCount := count_level "INFO" maskedLogs;
     debugCount := count_level "DEBUG" maskedLogs |}.

(** ** Submitting a text or a file (component LogUploadSection) *)

(** What a submission ends in: an alert, a confirmation that the user
    declined, or the call of [onLogsUpload]. *)
Inductive Outcome : Type :=
  | Alert (msg : jsstring)
  | Declined
  | Uploaded (logs : list LogEntry).

Section Submit.

(** [clock] is the clock of [parseLogText]; [confirm] is the answer of the
    user to the question asked; the state threaded through is
    [uploadedFileName], [None] for null. *)
Context (clock : Clock) (confirm : jsstring -> bool).

(** [parseLogText] catches the failure of a line itself and nothing else in
    the [try] block of [handleTextSubmit] throws, so its [catch] block has no
    counterpart here. *)
Definition handleTextSubmit (textInput : jsstring) (uploadedFileName : option jsstring)
  : option jsstring * Outcome :=
  if negb (nonempty (trim textInput))
  then (uploadedFileName, Alert (js "Please enter some log data"))
  else
    let lines := List.filter nonblank (split (ascii_of_N 10) textInput) in
    if length lines =? 0
    then (uploadedFileName, Alert (js "No valid log lines found"))
    else if (length lines <? 3)
            && negb (confirm (js "Only " ++ nat_to_string (length lines)
                              ++ js " log lines found. Are you sure you want to continue?"))
    then (uploadedFileName, Declined)
    else
      let logs := parseLogText clock textInput in
      if length logs =? 0
      then (uploadedFileName, Alert (js "No valid log entries were parsed from the input."))
      else (Some (js "Manual Input (" ++ nat_to_string (length logs) ++ js " entries)"),
            Uploaded logs).

End Submit.

Module File.
(** [text] is what [file.text()] resolves to, or what it rejects with: the
    message of an [Error], or [None] for a value that is no [Error]. *)
Record t : Type := {
  name : jsstring;
  type : jsstring;
  size : Z;
  text : jsstring + option jsstring
}.
End File.

(** [s.lastIndexOf(c)] for a one-unit [c]: -1 when [c] is not in [s]. *)
Fixpoint lastIndexOf_from (c : ascii) (s : jsstring) (i found : Z) : Z :=
  match s with
  | [] => found
  | x :: s' => lastIndexOf_from c s' (i + 1) (if Ascii.eqb x c then i else found)
  end.
Definition lastIndexOf (c : ascii) (s : jsstring) : Z := lastIndexOf_from c s 0 (-1).

(** [s.substring(start)]: a negative [start] counts as 0. *)
Definition substring (start : Z) (s : jsstring) : jsstring :=
  skipn (Z.to_nat (Z.max 0 start)) s.

Definition includes_str (l : list string) (s : jsstring) : bool :=
  existsb (fun a => jseqb s (js a)) l.

Definition maxSize : Z := 50 * 1024 * 1024.
Definition allowedTypes : list string :=
  ["text/plain"; "text/log"; "application/log"; "text/x-log"]%string.
Definition allowedExtensions : list string := [".log"; ".txt"; ".text"; ".out"]%string.

Definition type_question : jsstring :=
  js "This file type may not be a log file. Do you want to continue anyway?".
Definition short_question : jsstring :=
  js "The file content seems very short. Are you sure this is a log file?".

Section SubmitFile.

Context (clock : Clock) (confirm : jsstring -> bool).

Definition handleFile (file : File.t) (uploadedFileName : option jsstring)
  : option jsstring * Outcome :=
  let fileExtension :=
    substring (lastIndexOf "." (File.name file)) (toLowerCase (File.name file)) in
  if (maxSize <? File.size file)%Z
  then (uploadedFileName, Alert (js "File is too large. Maximum size is 50MB"))
  else if negb (includes_str allowedTypes (File.type file))
          && negb (includes_str allowedExtensions fileExtension)
          && negb (confirm type_question)
  then (uploadedFileName, Declined)
  else
    let uploadedFileName := Some (File.name file) in
    match File.text file with
    | inl text =>
        if negb (nonempty (trim text))
        then (uploadedFileName, Alert (js "The file appears to be empty."))
        else if (length text <? 10) && negb (confirm short_question)
        then (uploadedFileName, Declined)
        else
          let logs := parseLogText clock text in
          if length logs =? 0
          then (uploadedFileName, Alert (js "No valid log entries were found in the file."))
          else (uploadedFileName, Uploaded logs)
    | inr error =>
        let errorMessage := js "Error reading file. " in
        let errorMessage :=
          match error with
          | Some error_message =>
              if includes (js "encoding") error_message
              then errorMessage ++ js "The file encoding may not be supported. Please ensure it's a UTF-8 text file."
              else errorMessage ++ js "Please ensure it's a valid text file."
          | None => errorMessage
          end in
        (None, Alert errorMessage)
    end.

End SubmitFile.
(** * Vocabulary of the properties *)

(** All code units. *)
Definition all_ascii : list ascii := map ascii_of_nat (List.seq 0 256).

(** Every continuation call is made on a suffix of the input. *)
Definition sound (body : matcher) : Prop :=
  forall p s c k res, body p s c k = Some res ->
    exists p' s' c', suffix s' s /\ k p' s' c' = Some res.

(** ... and, for a pattern without groups, with the captures unchanged. *)
Definition keeps (body : matcher) : Prop :=
  forall p s c k res, body p s c k = Some res ->
    exists p' s', suffix s' s /\ k p' s' c = Some res.

Fixpoint group_free (r : regex) : bool :=
  match r with
  | RSeq a b | RAlt a b => group_free a && group_free b
  | RRep _ _ r' => group_free r'
  | RGroup _ _ => false
  | _ => true
  end.

Fixpoint skip_while (P : ascii -> bool) (s : jsstring) : jsstring :=
  match s with
  | a :: s' => if P a then skip_while P s' else s
  | [] => []
  end.

Fixpoint take_while (P : ascii -> bool) (s : jsstring) : jsstring :=
  match s with
  | a :: s' => if P a then a :: take_while P s' else []
  | [] => []
  end.

(** The code unit before the position reached after consuming [t]. *)
Fixpoint prev_after (p : option ascii) (t : jsstring) : option ascii :=
  match t with
  | [] => p
  | a :: t' => prev_after (Some a) t'
  end.

(** Stripping a literal word. *)
Fixpoint strip (ic : bool) (w : jsstring) (p : option ascii) (s : jsstring)
  : option (option ascii * jsstring) :=
  match w with
  | [] => Some (p, s)
  | x :: w' =>
      match s with
      | a :: s' => if set_has ic [CChar x] a then strip ic w' (Some a) s' else None
      | [] => None
      end
  end.

(** Exactly [n] code units of a class. *)
Fixpoint take_n (P : ascii -> bool) (n : nat) (p : option ascii) (s : jsstring)
  : option (option ascii * jsstring) :=
  match n with
  | O => Some (p, s)
  | S n' =>
      match s with
      | a :: s' => if P a then take_n P n' (Some a) s' else None
      | [] => None
      end
  end.

(** A greedy run of a class followed by [k], with backtracking. *)
Fixpoint star_class (P : ascii -> bool) (p : option ascii) (s : jsstring) (c : caps)
    (k : cont) : mres :=
  match s with
  | a :: s' =>
      if P a then
        match star_class P (Some a) s' c k with
        | Some res => Some res
        | None => k p s c
        end
      else k p s c
  | [] => k p s c
  end.

Definition in_class (ic neg : bool) (items : list cc_item) (a : ascii) : bool :=
  xorb neg (set_has ic items a).

(** The timestamp found in the line itself, if any. *)
Definition line_timestamp (line : jsstring) : option jsstring :=
  match first_capture (map (pair false) timestampPatterns) line with
  | Some ts => if test false re_epoch_only ts then toISOString (parseInt ts) else Some ts
  | None => None
  end.

(** The record that the [try] block builds for a line. *)
Definition entry (now : jsstring) (index : nat) (line : jsstring) : LogEntry :=
  {| id := log_id index;
     timestamp := default now (line_timestamp line);
     level := extract_level line;
     message := trim line;
     component := extract_component line;
     url := extract_url line;
     responseCode := extract_responseCode line;
     headers := extract_headers line |}.

Definition LF : ascii := ascii_of_N 10.

(** [has_ink s]: some code unit of [s] is not white space. *)
Definition has_ink (s : jsstring) : bool := existsb (fun c => negb (is_space c)) s.

(** The number of lines of a text, delimited by LF, that hold a code unit
    other than white space; [seen] tells whether the current line has shown
    one already. *)
Fixpoint count_lines (seen : bool) (text : jsstring) : nat :=
  match text with
  | [] => if seen then 1 else 0
  | c :: text' =>
      if Ascii.eqb c LF
      then (if seen then 1 else 0) + count_lines false text'
      else count_lines (seen || negb (is_space c)) text'
  end.

(** Two records that agree on every field other than [timestamp]. *)
Definition same_but_timestamp (a b : LogEntry) : Prop :=
  id a = id b /\ level a = level b /\ message a = message b
  /\ component a = component b /\ url a = url b
  /\ responseCode a = responseCode b /\ headers a = headers b.

(** A host in which constructing a URL always throws (the class is absent
    or rejects everything); [maskUrl] then always takes its [catch] branch. *)
Definition URL_absent : URLImpl :=
  {| URL := unit;
     url_parse := fun _ => None;
     username := fun _ => [];
     password := fun _ => [];
     set_username := fun _ u => u;
     set_password := fun _ u => u;
     searchParams := fun _ => [];
     update_query := fun _ u => u;
     toString := fun _ => [] |}.

(** [occurs w s]: the word [w] occurs in [s]. *)
Definition occurs (w s : jsstring) : Prop := exists a b, s = a ++ w ++ b.

(** A replacement text that no occurrence of [w] can touch: its last code
    unit is not in [w], and the last code unit of [w] is not in it. *)
Definition barrier (w t : jsstring) : Prop :=
  t <> [] /\ (forall x, last t = Some x -> ~ In x w) /\ (forall x, last w = Some x -> ~ In x t).

Definition memb (x : ascii) (s : jsstring) : bool := existsb (Ascii.eqb x) s.

Definition barrierb (w t : jsstring) : bool :=
  match last t, last w with
  | Some x, Some y => negb (memb x w) && negb (memb y t)
  | _, _ => false
  end.

(** [Masked w s out]: [out] is [s] with some disjoint pieces replaced by
    barriers for [w]. *)
Inductive Masked (w : jsstring) : jsstring -> jsstring -> Prop :=
  | Masked_nil : Masked w [] []
  | Masked_copy c s out : Masked w s out -> Masked w (c :: s) (c :: out)
  | Masked_repl mt t s out : barrier w t -> Masked w s out -> Masked w (mt ++ s) (t ++ out).


(** The members of the class that ends a masked value. *)
Definition value_items : list cc_item := CSpace :: chars "&,;)}]'" ++ [CChar dquote].

Definition secret : jsstring := js "secret123".
Definition pwkey : jsstring := js "password=".

(** [guarded k w s]: every occurrence of [w] in [s] comes right after [k]. *)
Definition guarded (k w s : jsstring) : Prop :=
  forall a b, s = a ++ w ++ b -> exists a', a = a' ++ k.

(** Evaluate a closed subterm. *)
Ltac ev t := let v := eval vm_compute in t in change t with v.

Definition scheme_sep : jsstring := js "://".

(** A decision procedure for [guarded]: [seen] holds, in reverse, the code
    units before the current position. *)
Fixpoint guarded_from (k w seen s : jsstring) : bool :=
  (if prefixb w s then prefixb (rev k) seen else true)
  && match s with
     | [] => true
     | c :: s' => guarded_from k w (c :: seen) s'
     end.

(** The replacement texts of the masker. *)
Definition sentinels : list jsstring :=
  map js [ "password=***MASKED***"; "token=***MASKED***"; "api_key=***MASKED***";
           "Bearer ***MASKED***"; "Basic ***MASKED***"; "jwt=***MASKED***";
           "session=***MASKED***"; "***MASKED***"; "***IP_MASKED***";
           "***IPv6_MASKED***"; "***EMAIL_MASKED***"; "***PHONE_MASKED***";
           "***CARD_MASKED***"; "***SSN_MASKED***"; "server=***MASKED***";
           "database=***MASKED***"; "user=***MASKED***"; "uid=***MASKED***";
           "pwd=***MASKED***"; "***PATH_MASKED***"; "***UUID_MASKED***";
           "***HASH_MASKED***" ]%string.

(** [fixedb U t]: every rule, and the whole chain, returns [t] on [t]. *)
Definition fixedb (U : URLImpl) (t : jsstring) : bool :=
  forallb (fun ru => jseqb (apply_rule t ru) t) (mask_rules U)
  && jseqb (maskSensitiveData U t) t.

(** [\b] at a position. *)
Definition boundary (p : option ascii) (s : jsstring) : bool :=
  xorb (word_before p) (word_after s).

(** The alternatives of a list of words, tried in order before [k]. *)
Fixpoint alt_words (ws : list string) (p : option ascii) (s : jsstring) (c : caps)
    (k : cont) : mres :=
  match ws with
  | [] => None
  | w :: ws' =>
      match (match strip true (js w) p s with
             | Some (p', s') => k p' s' c
             | None => None
             end) with
      | Some res => Some res
      | None => alt_words ws' p s c k
      end
  end.

(** The first word of the list that stands at the head of [s], letter case
    aside, and ends on a word boundary. *)
Fixpoint keyword_here (ws : list string) (p : option ascii) (s : jsstring) : option string :=
  match ws with
  | [] => None
  | w :: ws' =>
      match strip true (js w) p s with
      | Some (p', s') => if boundary p' s' then Some w else keyword_here ws' p s
      | None => keyword_here ws' p s
      end
  end.

(** The level keyword at the leftmost position of the line where one stands
    between two word boundaries. *)
Fixpoint find_keyword (p : option ascii) (s : jsstring) : option string :=
  match (if boundary p s then keyword_here level_words p s else None) with
  | Some w => Some w
  | None =>
      match s with
      | [] => None
      | c :: s' => find_keyword (Some c) s'
      end
  end.

(** The normalization table of the levels. *)
Definition level_table (w : string) : jsstring :=
  if String.eqb w "WARNING" then js "WARN"
  else if String.eqb w "FATAL" then js "ERROR"
  else if String.eqb w "CRITICAL" then js "ERROR"
  else if String.eqb w "TRACE" then js "DEBUG"
  else js w.

Definition levels : list jsstring := [js "ERROR"; js "WARN"; js "INFO"; js "DEBUG"].

(** What follows the group of the level pattern: a word boundary, then
    success with the group recorded. *)
Definition k_level (s : jsstring) : cont :=
  fun p' s' c' =>
    if boundary p' s' then Some (s', (1, firstn (length s - length s') s) :: c') else None.

(** A quote character, single or double. *)
Definition is_quote (c : ascii) : bool := Ascii.eqb c "'" || Ascii.eqb c dquote.

(** What [add_pair] does with a key and a value piece. *)
Definition keep_pair (hs : gmap jsstring jsstring) (k v : jsstring) : gmap jsstring jsstring :=
  if nonempty (clean k) && nonempty (clean v) then set_header (clean k) (clean v) hs else hs.

(** *** The headers fragment, read by hand

    [braced s]: [s] starts with an opening brace, a non-empty group without
    closing brace and a closing brace; the result is the group and what
    follows the closing brace. *)
Definition not_rbrace (c : ascii) : bool := negb (Ascii.eqb c "}").

Definition braced (s : jsstring) : option (jsstring * jsstring) :=
  match s with
  | c :: s' =>
      if Ascii.eqb c "{" then
        match skip_while not_rbrace s' with
        | _ :: post => if nonempty (take_while not_rbrace s')
                       then Some (take_while not_rbrace s', post) else None
        | [] => None
        end
      else None
  | [] => None
  end.

(** What comes after the word: white space, ':' or '=', white space and the
    braced group. *)
Definition after_word (s : jsstring) : option (jsstring * jsstring) :=
  match skip_while is_space s with
  | c :: s' =>
      if Ascii.eqb c ":" || Ascii.eqb c "=" then braced (skip_while is_space s') else None
  | [] => None
  end.

(** A fragment at the head of [s]: 'header' or 'headers' in any letter case,
    then the rest. *)
Definition fragment_here (s : jsstring) : option (jsstring * jsstring) :=
  if prefixb (js "header") (toLowerCase s) then
    match skipn 6 s with
    | c :: s' => if Ascii.eqb (to_lower c) "s" then after_word s' else after_word (c :: s')
    | [] => None
    end
  else None.

(** The group of the leftmost fragment of the line. *)
Fixpoint find_fragment (s : jsstring) : option jsstring :=
  match fragment_here s with
  | Some (g, _) => Some g
  | None =>
      match s with
      | [] => None
      | _ :: s' => find_fragment s'
      end
  end.

(** *** A host that lower-cases host names

    Of the URL standard this host does one thing: the scheme and the host
    name are serialized in lower case, the path, the query and the fragment
    as they are.  Its URLs have no credentials and no query parameters; it
    stands for the host's class on strings such as 'https://SECRET123.com/x'. *)
Fixpoint lower_authority (slashes : nat) (s : jsstring) : jsstring :=
  match s with
  | [] => []
  | c :: s' =>
      match slashes with
      | S n =>
          if Ascii.eqb c "/" then c :: lower_authority n s'
          else to_lower c :: lower_authority slashes s'
      | O =>
          if Ascii.eqb c "/" || Ascii.eqb c "?" || Ascii.eqb c "#" then s
          else to_lower c :: lower_authority slashes s'
      end
  end.

Definition URL_lower_host : URLImpl :=
  {| URL := jsstring;
     url_parse := fun s => Some (lower_authority 2 s);
     username := fun _ => [];
     password := fun _ => [];
     set_username := fun _ u => u;
     set_password := fun _ u => u;
     searchParams := fun _ => [];
     update_query := fun _ u => u;
     toString := fun u => u |}.

(** All the texts that the masker writes: the replacement texts of the rules
    and the '***' that [maskUrl] puts in place of credentials. *)
Definition replacement_texts : list jsstring := sentinels ++ [js "***"].

(** ** Vocabulary of the further properties *)

(** Every capture is a piece of the text. *)
Definition caps_in (whole : jsstring) (cs : caps) : Prop :=
  forall n t, In (n, t) cs -> occurs t whole.

Definition tracks (whole : jsstring) (body : matcher) : Prop :=
  forall p s c k res, suffix s whole -> caps_in whole c -> body p s c k = Some res ->
    exists p' s' c', suffix s' s /\ caps_in whole c' /\ k p' s' c' = Some res.

(** [on_some P o]: [P] holds of the content of [o], if any. *)
Definition on_some {A : Type} (P : A -> Prop) (o : option A) : Prop :=
  match o with Some a => P a | None => True end.

(** A three-digit status: the first digit is 1 to 5. *)
Definition is_status (rc : jsstring) : bool :=
  match rc with
  | [a; b; c] => in_range "1" "5" a && is_digit b && is_digit c
  | _ => false
  end.

(** The state of the walk over the query pairs: the pairs [done] already
    visited are masked where their name is sensitive, and no sensitive name
    among them comes again in the pairs [todo] still to visit. *)
Definition walked (done todo : list (jsstring * jsstring)) : Prop :=
  forall k v, In (k, v) done -> sensitive_name k = true ->
    v = MASKED /\ forall k' v', In (k', v') todo -> jseqb k' k = false.

Definition plain_pair (p : jsstring * jsstring) : bool := negb (sensitive_name (fst p)).

(** What the loop over the query parameters comes to, written without the
    loop: a parameter with a sensitive name is kept where that name comes
    first, with the sentinel as value, and dropped where the name has come
    before ([seen] holds the sensitive names met so far); every other
    parameter is kept as it is. *)
Fixpoint mask_first (seen : list jsstring) (ps : list (jsstring * jsstring))
  : list (jsstring * jsstring) :=
  match ps with
  | [] => []
  | (k, v) :: ps' =>
      if sensitive_name k then
        if existsb (jseqb k) seen then mask_first seen ps'
        else (k, MASKED) :: mask_first (k :: seen) ps'
      else (k, v) :: mask_first seen ps'
  end.

(** The filters with one criterion kept and the others cleared. *)
Definition range_only (f : FilterOptions.t) : FilterOptions.t :=
  {| FilterOptions.range_start := FilterOptions.range_start f;
     FilterOptions.range_end := FilterOptions.range_end f;
     FilterOptions.logLevel := []; FilterOptions.keyword := [];
     FilterOptions.component := []; FilterOptions.responseCode := [] |}.
Definition level_only (f : FilterOptions.t) : FilterOptions.t :=
  {| FilterOptions.range_start := []; FilterOptions.range_end := [];
     FilterOptions.logLevel := FilterOptions.logLevel f; FilterOptions.keyword := [];
     FilterOptions.component := []; FilterOptions.responseCode := [] |}.
Definition keyword_only (f : FilterOptions.t) : FilterOptions.t :=
  {| FilterOptions.range_start := []; FilterOptions.range_end := [];
     FilterOptions.logLevel := []; FilterOptions.keyword := FilterOptions.keyword f;
     FilterOptions.component := []; FilterOptions.responseCode := [] |}.
Definition component_only (f : FilterOptions.t) : FilterOptions.t :=
  {| FilterOptions.range_start := []; FilterOptions.range_end := [];
     FilterOptions.logLevel := []; FilterOptions.keyword := [];
     FilterOptions.component := FilterOptions.component f; FilterOptions.responseCode := [] |}.
Definition code_only (f : FilterOptions.t) : FilterOptions.t :=
  {| FilterOptions.range_start := []; FilterOptions.range_end := [];
     FilterOptions.logLevel := []; FilterOptions.keyword := [];
     FilterOptions.component := []; FilterOptions.responseCode := FilterOptions.responseCode f |}.

(** The filters without the timestamp range. *)
Definition no_range (f : FilterOptions.t) : FilterOptions.t :=
  {| FilterOptions.range_start := []; FilterOptions.range_end := [];
     FilterOptions.logLevel := FilterOptions.logLevel f;
     FilterOptions.keyword := FilterOptions.keyword f;
     FilterOptions.component := FilterOptions.component f;
     FilterOptions.responseCode := FilterOptions.responseCode f |}.

(** The filters with the keyword and the component replaced by [kw] and
    [comp]. *)
Definition with_words (kw comp : jsstring) (f : FilterOptions.t) : FilterOptions.t :=
  {| FilterOptions.range_start := FilterOptions.range_start f;
     FilterOptions.range_end := FilterOptions.range_end f;
     FilterOptions.logLevel := FilterOptions.logLevel f;
     FilterOptions.keyword := kw;
     FilterOptions.component := comp;
     FilterOptions.responseCode := FilterOptions.responseCode f |}.

(** The pages [1 .. totalPages] of a list. *)
Definition all_pages {A : Type} (l : list A) : list (list A) :=
  map (fun i => paginatedLogs l (Z.of_nat (S i))) (List.seq 0 (Z.to_nat (totalPages (length l)))).

(** The alerts that [handleTextSubmit] and [handleFile] show when the parser
    returns no record. *)
Definition no_entries_alerts : list jsstring :=
  [js "No valid log lines found";
   js "No valid log entries were parsed from the input.";
   js "No valid log entries were found in the file."].

(** The answers of [confirm] with the answer to [question] replaced. *)
Definition answering (question : jsstring) (answer : bool) (confirm : jsstring -> bool)
  : jsstring -> bool :=
  fun q => if jseqb q question then answer else confirm q.

(** A host whose parser reads every string with a scheme as one URL without
    credentials, whose query is the given list of pairs and whose
    serialization lists the names and values of the query. *)
Definition URL_query (query : list (jsstring * jsstring)) : URLImpl :=
  {| URL := list (jsstring * jsstring);
     url_parse := fun _ => Some query;
     username := fun _ => [];
     password := fun _ => [];
     set_username := fun _ u => u;
     set_password := fun _ u => u;
     searchParams := fun u => u;
     update_query := fun ps _ => ps;
     toString := fun u => flat_map (fun kv => "&"%char :: fst kv ++ "="%char :: snd kv) u |}.

(** The code units of a timestamp in ISO 8601 form or in the form with a
    space between date and time: digits, '-', ':', '.', '+', 'T', 'Z' and
    the space. *)
Definition iso_unit (c : ascii) : bool := is_digit c || memb c (js "-:.+TZ ").

(** Whether the first two letters of [w] stand, letter case aside, at [c] and
    [c2]. *)
Definition starts2 (w : jsstring) (c c2 : ascii) : bool :=
  match w with
  | x :: y :: _ => set_has true [CChar x] c && set_has true [CChar y] c2
  | _ => true
  end.

(** A record that [exportMaskedLogs] writes on one line and that reads back
    with its level: no line feed in the line, one of the four levels and a
    timestamp in ISO form. *)
Definition reads_back (r : LogEntry) : Prop :=
  ~ In LF (export_line r) /\ In (level r) levels /\ forallb iso_unit (timestamp r) = true.

(** A header name or value as the parser records it: not empty, and without
    quote, colon or comma. *)
Definition header_text (s : jsstring) : bool :=
  nonempty s
  && forallb (fun c => negb (is_quote c || Ascii.eqb c ":" || Ascii.eqb c ",")) s.

Definition headers_ok (hs : gmap jsstring jsstring) : Prop :=
  forall k v, hs !! k = Some v ->
    header_text k = true /\ header_text v = true /\ k <> js "__proto__".
(** * Properties

    ** Code units *)

Lemma all_ascii_complete (c : ascii) : In c all_ascii.
Proof.
  unfold all_ascii. rewrite <- (ascii_nat_embedding c).
  apply in_map, in_seq. pose proof (nat_ascii_bounded c). lia.
Qed.

Lemma ascii_forall (P : ascii -> bool) :
  forallb P all_ascii = true -> forall c, P c = true.
Proof.
  intros H c. rewrite forallb_forall in H. apply H, all_ascii_complete.
Qed.

Section MatcherFacts.
Context (ic : bool).

Lemma suffix_cons_l {A} (a : A) (s t : list A) : suffix (a :: s) t -> suffix s t.
Proof. intros [k ->]. exists (k ++ [a]). by rewrite <- app_assoc. Qed.

Lemma rep_loop_sound body : sound body ->
  forall fuel mn mx, sound (fun p s c k => rep_loop body fuel mn mx p s c k).
Proof.
  intros Hb fuel. induction fuel as [|fuel IH]; intros mn mx p s c k res H; simpl in H; [done|].
  destruct mn as [|mn].
  - assert (Hopt : match body p s c (fun p0 r c0 => if length r <? length s then rep_loop body fuel 0 (pred_max mx) p0 r c0 k else None) with Some res0 => Some res0 | None => k p s c end = Some res -> exists p' s' c', suffix s' s /\ k p' s' c' = Some res).
    { destruct (body p s c _) eqn:E.
      - intros [= ->]. apply Hb in E as (p' & s' & c' & Hs & E).
        destruct (length s' <? length s); [|done].
        apply IH in E as (p2 & s2 & c2 & Hs2 & E). exists p2, s2, c2. split; [|done].
        by etrans.
      - intros E'. by exists p, s, c. }
    destruct mx as [[|n]|]; [by exists p, s, c| by apply Hopt | by apply Hopt].
  - apply Hb in H as (p' & s' & c' & Hs & E).
    apply IH in E as (p2 & s2 & c2 & Hs2 & E). exists p2, s2, c2. split; [by etrans|done].
Qed.

Lemma rmatch_sound r : sound (rmatch ic r).
Proof.
  induction r as [| neg items | a IHa b IHb | a IHa b IHb | mn mx r IH | n r IH | | |];
    intros p s c k res H; simpl in H.
  - by exists p, s, c.
  - destruct s as [|x s]; [done|]. destruct (xorb _ _); [|done].
    exists (Some x), s, c. split; [by apply suffix_cons_r|done].
  - apply IHa in H as (p1 & s1 & c1 & Hs1 & H).
    apply IHb in H as (p2 & s2 & c2 & Hs2 & H).
    exists p2, s2, c2. split; [by etrans|done].
  - destruct (rmatch ic a p s c k) eqn:E.
    + injection H as ->. by apply IHa in E.
    + by apply IHb in H.
  - by apply (rep_loop_sound _ IH) in H.
  - apply IH in H as (p1 & s1 & c1 & Hs1 & H). by exists p1, s1, ((n, firstn (length s - length s1) s) :: c1).
  - destruct p; [done|]. by exists None, s, c.
  - destruct s; [|done]. by exists p, [], c.
  - destruct (xorb _ _); [|done]. by exists p, s, c.
Qed.

Lemma exec_suffix r p s rem cs : exec ic r p s = Some (rem, cs) -> suffix rem s.
Proof.
  intros H. apply rmatch_sound in H as (p' & s' & c' & Hs & [= -> ->]). done.
Qed.

End MatcherFacts.

Arguments set_has : simpl never.

Section MatcherEquations.
Context (ic : bool).

Lemma rep_loop_keeps body : keeps body ->
  forall fuel mn mx, keeps (fun p s c k => rep_loop body fuel mn mx p s c k).
Proof.
  intros Hb fuel. induction fuel as [|fuel IH]; intros mn mx p s c k res H; simpl in H; [done|].
  destruct mn as [|mn].
  - assert (Hopt : match body p s c (fun p0 r c0 => if length r <? length s then rep_loop body fuel 0 (pred_max mx) p0 r c0 k else None) with Some res0 => Some res0 | None => k p s c end = Some res -> exists p' s', suffix s' s /\ k p' s' c = Some res).
    { destruct (body p s c _) eqn:E.
      - intros [= ->]. apply Hb in E as (p' & s' & Hs & E).
        destruct (length s' <? length s); [|done].
        apply IH in E as (p2 & s2 & Hs2 & E). exists p2, s2. split; [|done].
        by etrans.
      - intros E'. by exists p, s. }
    destruct mx as [[|n]|]; [by exists p, s| by apply Hopt | by apply Hopt].
  - apply Hb in H as (p' & s' & Hs & E).
    apply IH in E as (p2 & s2 & Hs2 & E). exists p2, s2. split; [by etrans|done].
Qed.

Lemma rmatch_keeps r : group_free r = true -> keeps (rmatch ic r).
Proof.
  induction r as [| neg items | a IHa b IHb | a IHa b IHb | mn mx r IH | n r IH | | |];
    intros G p s c k res H; simpl in H, G.
  - by exists p, s.
  - destruct s as [|x s]; [done|]. destruct (xorb _ _); [|done].
    exists (Some x), s. split; [by apply suffix_cons_r|done].
  - apply andb_true_iff in G as [Ga Gb].
    apply (IHa Ga) in H as (p1 & s1 & Hs1 & H).
    apply (IHb Gb) in H as (p2 & s2 & Hs2 & H).
    exists p2, s2. split; [by etrans|done].
  - apply andb_true_iff in G as [Ga Gb]. destruct (rmatch ic a p s c k) eqn:E.
    + injection H as ->. by apply (IHa Ga) in E.
    + by apply (IHb Gb) in H.
  - by apply (rep_loop_keeps _ (IH G)) in H.
  - done.
  - destruct p; [done|]. by exists None, s.
  - destruct s; [|done]. by exists p, [].
  - destruct (xorb _ _); [|done]. by exists p, s.
Qed.

Lemma rmatch_cat_cons r rs p s c k :
  rmatch ic (cat (r :: rs)) p s c k
  = rmatch ic r p s c (fun p' s' c' => rmatch ic (cat rs) p' s' c' k).
Proof. done. Qed.

Lemma rmatch_cat_nil p s c k : rmatch ic (cat []) p s c k = k p s c.
Proof. done. Qed.

Lemma rmatch_chars w rs p s c k :
  rmatch ic (cat (map chr w ++ rs)) p s c k
  = match strip ic w p s with
    | Some (p', s') => rmatch ic (cat rs) p' s' c k
    | None => None
    end.
Proof.
  revert p s. induction w as [|x w IH]; intros p s; [reflexivity|].
  simpl. destruct s as [|a s]; [reflexivity|].
  destruct (set_has ic [CChar x] a); [apply IH|reflexivity].
Qed.

Lemma rmatch_str w p s c k :
  rmatch ic (str w) p s c k
  = match strip ic (js w) p s with
    | Some (p', s') => k p' s' c
    | None => None
    end.
Proof.
  unfold str. rewrite <- (app_nil_r (map chr _)). apply rmatch_chars.
Qed.

Lemma rmatch_set neg items p s c k :
  rmatch ic (RSet neg items) p s c k
  = match s with
    | a :: s' => if in_class ic neg items a then k (Some a) s' c else None
    | [] => None
    end.
Proof. done. Qed.

Lemma rep_exact neg items n : forall fuel p s c k, n < fuel ->
  rep_loop (rmatch ic (RSet neg items)) fuel n (Some n) p s c k
  = match take_n (in_class ic neg items) n p s with
    | Some (p', s') => k p' s' c
    | None => None
    end.
Proof.
  induction n as [|n IH]; intros fuel p s c k Hf; (destruct fuel as [|fuel]; [lia|]); simpl; [done|].
  destruct s as [|a s]; [done|]. fold (in_class ic neg items a).
  destruct (in_class ic neg items a); [|done]. apply IH. lia.
Qed.

Lemma rmatch_times neg items n p s c k :
  rmatch ic (times n (RSet neg items)) p s c k
  = match take_n (in_class ic neg items) n p s with
    | Some (p', s') => k p' s' c
    | None => None
    end.
Proof. simpl. apply rep_exact. lia. Qed.

Lemma rep_star neg items : forall s fuel p c k, length s < fuel ->
  rep_loop (rmatch ic (RSet neg items)) fuel 0 None p s c k
  = star_class (in_class ic neg items) p s c k.
Proof.
  induction s as [|a s IH]; intros fuel p c k Hf; (destruct fuel as [|fuel]; [simpl in Hf; lia|]).
  - done.
  - simpl. fold (in_class ic neg items a). destruct (in_class ic neg items a); [|done].
    replace (length s <? S (length s)) with true by (symmetry; apply Nat.ltb_lt; lia).
    rewrite IH; [done|]. simpl in Hf. lia.
Qed.

Lemma rmatch_star neg items p s c k :
  rmatch ic (star (RSet neg items)) p s c k
  = star_class (in_class ic neg items) p s c k.
Proof. simpl. apply rep_star. lia. Qed.

Lemma rmatch_plus neg items p s c k :
  rmatch ic (plus (RSet neg items)) p s c k
  = match s with
    | a :: s' => if in_class ic neg items a then star_class (in_class ic neg items) (Some a) s' c k else None
    | [] => None
    end.
Proof.
  simpl. destruct s as [|a s]; [done|]. fold (in_class ic neg items a).
  destruct (in_class ic neg items a); [|done]. apply rep_star. simpl. lia.
Qed.

End MatcherEquations.

(** A continuation that never fails is reached after the longest run. *)
Lemma star_class_total P k : (forall p s c, k p s c <> None) ->
  forall s p c, star_class P p s c k = k (prev_after p (take_while P s)) (skip_while P s) c.
Proof.
  intros Hk. induction s as [|a s IH]; intros p c; [done|]. simpl.
  destruct (P a); [|done]. rewrite IH.
  destruct (k _ _ _) eqn:E; [done|]. by apply Hk in E.
Qed.

(** A continuation that fails before every unit of the class is reached
    only after the longest run. *)
Lemma star_class_blocked P k :
  (forall p a s c, P a = true -> k p (a :: s) c = None) ->
  forall s p c, star_class P p s c k = k (prev_after p (take_while P s)) (skip_while P s) c.
Proof.
  intros Hk. induction s as [|a s IH]; intros p c; [done|]. simpl.
  destruct (P a) eqn:Pa; [|done]. rewrite IH, (Hk _ _ _ _ Pa).
  by destruct (k _ _ _).
Qed.

(** ** Literal words, letter case aside *)

Lemma ci_lower x a : is_lower x = true ->
  set_has true [CChar x] a = Ascii.eqb x (to_lower a).
Proof.
  intros Hx. apply eq_true_iff_eq.
  assert (H : forallb (fun x => if is_lower x
                then forallb (fun a => Bool.eqb (set_has true [CChar x] a) (Ascii.eqb x (to_lower a)))
                             all_ascii
                else true) all_ascii = true) by (vm_compute; reflexivity).
  pose proof (ascii_forall _ H x) as H'. cbv beta in H'. rewrite Hx in H'.
  pose proof (ascii_forall
                (fun a => Bool.eqb (set_has true [CChar x] a) (Ascii.eqb x (to_lower a))) H' a) as H''.
  cbv beta in H''. apply Bool.eqb_prop in H''. by rewrite H''.
Qed.

Lemma strip_ci w : forallb is_lower w = true -> forall s p,
  strip true w p s
  = if prefixb w (toLowerCase s)
    then Some (prev_after p (firstn (length w) s), skipn (length w) s) else None.
Proof.
  induction w as [|x w IH]; intros Hw s p; [done|].
  simpl in Hw. apply andb_true_iff in Hw as [Hx Hw].
  destruct s as [|a s]; [done|]. cbn [strip toLowerCase map prefixb length firstn skipn prev_after].
  rewrite (ci_lower x a Hx). destruct (Ascii.eqb x (to_lower a)); [|done].
  cbn [andb]. apply (IH Hw).
Qed.
(** ** The parser never takes the [catch] branch *)

Lemma in_class_digit c : in_class false false [CDigit] c = is_digit c.
Proof. unfold in_class, set_has. simpl. by rewrite !orb_false_r. Qed.

Lemma search_bol ic rs : forall s c, search_from ic (cat (RBol :: rs)) (Some c) s = None.
Proof. induction s as [|a s IH]; intros c; simpl; [done|apply IH]. Qed.

Lemma rmatch_bol ic s c k : rmatch ic RBol None s c k = k None s c.
Proof. done. Qed.

Lemma take_n_split P n : forall p s p' s', take_n P n p s = Some (p', s') ->
  exists t, s = t ++ s' /\ length t = n /\ forallb P t = true.
Proof.
  induction n as [|n IH]; intros p s p' s' H; simpl in H.
  - injection H as <- <-. by exists [].
  - destruct s as [|a s]; [done|]. destruct (P a) eqn:Pa; [|done].
    apply IH in H as (t & -> & <- & Ht). exists (a :: t). simpl. by rewrite Pa, Ht.
Qed.

Lemma test_epoch_only ts : test false re_epoch_only ts = true ->
  length ts = 13 /\ forallb is_digit ts = true.
Proof.
  unfold test, jsmatch. destruct ts as [|a ts].
  - by vm_compute.
  - simpl search_from. unfold re_epoch_only at 2. rewrite search_bol.
    unfold exec, re_epoch_only, digit. rewrite rmatch_cat_cons, rmatch_bol.
    rewrite rmatch_cat_cons, rmatch_times.
    destruct (take_n _ _ _ _) as [[p' s']|] eqn:E; [|done].
    destruct s' as [|b s']; [|done].
    apply take_n_split in E as (t & Ht & Hl & Hd). rewrite app_nil_r in Ht. subst t.
    intros _. split; [done|]. rewrite forallb_forall in Hd |- *.
    intros c Hc. rewrite <- in_class_digit. by apply Hd.
Qed.

Lemma is_digit_code c : is_digit c = true -> (48 <= Z.of_N (code c) <= 57)%Z.
Proof.
  unfold is_digit, in_range. change (code "0") with 48%N. change (code "9") with 57%N.
  rewrite andb_true_iff, !N.leb_le. lia.
Qed.

Lemma digits_value_bound ds : forallb is_digit ds = true ->
  forall acc, (0 <= acc)%Z ->
    (0 <= digits_value acc ds < (acc + 1) * 10 ^ Z.of_nat (length ds))%Z.
Proof.
  induction ds as [|d ds IH]; intros Hd acc Ha; cbn [digits_value forallb length] in *.
  - change (10 ^ Z.of_nat 0)%Z with 1%Z. lia.
  - apply andb_true_iff in Hd as [Hd Hds]. apply is_digit_code in Hd.
    specialize (IH Hds (10 * acc + (Z.of_N (code d) - 48))%Z ltac:(lia)).
    rewrite Nat2Z.inj_succ, Z.pow_succ_r by lia.
    split; [lia|]. eapply Z.lt_le_trans; [apply IH|].
    assert (0 < 10 ^ Z.of_nat (length ds))%Z by (apply Z.pow_pos_nonneg; lia). nia.
Qed.

Lemma toISOString_in_range ms : (Z.abs ms <= 8640000000000000)%Z -> is_Some (toISOString ms).
Proof.
  intros H. unfold toISOString. apply Z.leb_le in H. rewrite H.
  destruct (civil_from_days _) as [[y mo] d]. eauto.
Qed.

Lemma extract_timestamp_total now line :
  extract_timestamp now line = Some (default now (line_timestamp line))
  /\ (first_capture (map (pair false) timestampPatterns) line = None <-> line_timestamp line = None).
Proof.
  unfold extract_timestamp, line_timestamp.
  destruct (first_capture _ _) as [ts|]; [|done].
  destruct (test false re_epoch_only ts) eqn:E; [|done].
  apply test_epoch_only in E as [Hl Hd].
  pose proof (digits_value_bound ts Hd 0%Z ltac:(lia)) as Hb. rewrite Hl in Hb.
  destruct (toISOString_in_range (parseInt ts)) as [iso Hiso].
  - unfold parseInt. change (10 ^ Z.of_nat 13)%Z with 10000000000000%Z in Hb. lia.
  - rewrite Hiso. done.
Qed.
Lemma parse_line_entry now index line :
  parse_line now index line = Some (entry now index line).
Proof.
  unfold parse_line. destruct (extract_timestamp_total now line) as [-> _]. done.
Qed.

Lemma parse_fold clock ls : forall k logs,
  fold_left (parse_step clock) (imap (fun i l => (k + i, l)) ls) (k, logs)
  = (k + length ls, logs ++ imap (fun i l => entry (clock (k + i)) (k + i) l) ls).
Proof.
  induction ls as [|l ls IH]; intros k logs.
  - simpl. by rewrite Nat.add_0_r, app_nil_r.
  - rewrite !imap_cons. cbn [fold_left parse_step]. rewrite Nat.add_0_r, parse_line_entry.
    rewrite (imap_ext _ (fun i l => (S k + i, l))) by (intros; simpl; f_equal; lia).
    rewrite IH. rewrite <- app_assoc. cbn [app length]. f_equal; [lia|]. f_equal. f_equal.
    apply imap_ext. intros i x _. simpl. by rewrite !Nat.add_succ_r.
Qed.

Lemma parseLogText_entries clock text :
  parseLogText clock text = imap (fun i line => entry (clock i) i line) (text_lines text).
Proof.
  unfold parseLogText.
  change (imap pair (text_lines text)) with (imap (fun i l => (0 + i, l)) (text_lines text)).
  by rewrite parse_fold.
Qed.

(** ** Blank lines *)

Lemma trimStart_ink s : nonempty (trimStart s) = has_ink s.
Proof.
  induction s as [|c s IH]; [done|]. simpl. destruct (is_space c); [done|]. done.
Qed.

Lemma has_ink_trimStart s : has_ink (trimStart s) = has_ink s.
Proof.
  induction s as [|c s IH]; [done|]. simpl. destruct (is_space c) eqn:E; [done|].
  simpl. by rewrite E.
Qed.

Lemma has_ink_rev s : has_ink (rev s) = has_ink s.
Proof.
  unfold has_ink. apply eq_true_iff_eq. rewrite !existsb_exists.
  split; intros (c & Hc & H); exists c; split; try done; by apply in_rev in Hc.
Qed.

Lemma nonempty_rev s : nonempty (rev s) = nonempty s.
Proof.
  destruct s as [|c s]; [done|]. simpl. by destruct (rev s).
Qed.

Lemma nonblank_ink s : nonblank s = has_ink s.
Proof.
  unfold nonblank, trim, trimEnd.
  by rewrite nonempty_rev, trimStart_ink, has_ink_rev, has_ink_trimStart.
Qed.

Lemma split_nonempty sep s : exists l ls, split sep s = l :: ls.
Proof.
  induction s as [|c s (l & ls & IH)]; simpl; [by eauto|].
  destruct (Ascii.eqb c sep); [by eauto|]. rewrite IH. by eauto.
Qed.

Lemma count_lines_split text : forall pre l ls,
  split LF text = l :: ls ->
  length (List.filter nonblank ((pre ++ l) :: ls)) = count_lines (has_ink pre) text.
Proof.
  induction text as [|c text IH]; intros pre l ls H; simpl in H.
  - injection H as <- <-. simpl. rewrite app_nil_r, nonblank_ink. by destruct (has_ink pre).
  - cbn [count_lines]. destruct (Ascii.eqb c LF) eqn:E.
    + injection H as <- <-. rewrite app_nil_r. cbn [List.filter]. rewrite nonblank_ink.
      destruct (split_nonempty LF text) as (l' & ls' & Hs).
      specialize (IH [] l' ls' Hs). rewrite app_nil_l in IH. rewrite Hs.
      change (has_ink []) with false in IH. rewrite <- IH.
      by destruct (has_ink pre).
    + destruct (split_nonempty LF text) as (l' & ls' & Hs). rewrite Hs in H.
      injection H as <- <-.
      specialize (IH (pre ++ [c]) l' ls' Hs). rewrite <- app_assoc in IH.
      change ([c] ++ l') with (c :: l') in IH.
      rewrite IH. f_equal. unfold has_ink. rewrite existsb_app. simpl. by rewrite orb_false_r.
Qed.

Lemma text_lines_count text : length (text_lines text) = count_lines false text.
Proof.
  unfold text_lines. destruct (split_nonempty LF text) as (l & ls & Hs).
  fold LF. rewrite Hs. apply (count_lines_split text [] l ls Hs).
Qed.
(** ** Claims about the batch parser *)

(** C3.  The batch parser returns as many records as the text has lines that
    are not blank after trimming, and the records are, in order, one per
    such line: the message of each is its line, trimmed. *)
Theorem parseLogText_line_count (clock : Clock) (text : jsstring) :
  length (parseLogText clock text) = count_lines false text
  /\ map message (parseLogText clock text)
     = map trim (List.filter nonblank (split LF text)).
Proof.
  rewrite parseLogText_entries. split.
  - by rewrite length_imap, text_lines_count.
  - unfold text_lines. fold LF. generalize (List.filter nonblank (split LF text)). intros ls.
    assert (forall (g : nat -> nat) (f : nat -> jsstring),
      map message (imap (fun i line => entry (f i) (g i) line) ls) = map trim ls) as H.
    { induction ls as [|l ls IH]; intros g f; [done|]. rewrite imap_cons. simpl. f_equal.
      apply (IH (g ∘ S) (f ∘ S)). }
    apply (H (fun i => i) clock).
Qed.

(** C7 as the code has it: the record of the [i]-th surviving line (counting
    from 0) has the id 'log-' followed by [i + 1] in decimal: blank lines
    are dropped before the lines are numbered. *)
Theorem parseLogText_ids (clock : Clock) (text : jsstring) :
  map id (parseLogText clock text)
  = imap (fun i _ => log_id i) (List.filter nonblank (split LF text)).
Proof.
  rewrite parseLogText_entries. unfold text_lines. fold LF.
  generalize (List.filter nonblank (split LF text)). intros ls.
  assert (forall (g : nat -> nat) (f : nat -> jsstring),
    map id (imap (fun i line => entry (f i) (g i) line) ls) = imap (fun i _ => log_id (g i)) ls) as H.
  { induction ls as [|l ls IH]; intros g f; [done|]. rewrite !imap_cons. simpl. f_equal.
    apply (IH (g ∘ S) (f ∘ S)). }
  apply (H (fun i => i) clock).
Qed.

(** C7 fails as stated: in the text made of an empty line and the line
    'hello', the line 'hello' is the second line of the input, and its
    record has the id 'log-1', not 'log-2'. *)
Lemma parseLogText_ids_counterexample :
  let text := LF :: js "hello" in
  split LF text !! 1 = Some (js "hello")
  /\ map (fun r => (id r, message r)) (parseLogText (fun _ => js "now") text)
     = [(js "log-1", js "hello")]
  /\ js "log-1" <> js "log-" ++ nat_to_string 2.
Proof. split; [|split]; by vm_compute. Qed.

(** C4 fails as stated: a line without a timestamp takes the reading of the
    clock, so two invocations at different instants differ. *)
Lemma parseLogText_clock_counterexample :
  parseLogText (fun _ => js "2024-01-01T00:00:00.000Z") (js "hello")
  <> parseLogText (fun _ => js "2024-01-01T00:00:00.001Z") (js "hello").
Proof. by vm_compute. Qed.

Lemma same_but_timestamp_entry now1 now2 i line :
  same_but_timestamp (entry now1 i line) (entry now2 i line).
Proof. by repeat split. Qed.

(** C4 as the code has it: two invocations on the same text yield sequences
    of records that agree on every field other than the timestamp; they are
    equal as soon as the two clocks agree on the readings taken for the
    lines in which no timestamp pattern matches. *)
Theorem parseLogText_deterministic (clock1 clock2 : Clock) (text : jsstring) :
  Forall2 same_but_timestamp (parseLogText clock1 text) (parseLogText clock2 text)
  /\ ((forall i line, text_lines text !! i = Some line ->
         first_capture (map (pair false) timestampPatterns) line = None ->
         clock1 i = clock2 i) ->
      parseLogText clock1 text = parseLogText clock2 text).
Proof.
  rewrite !parseLogText_entries. split.
  - apply Forall2_same_length_lookup. split; [by rewrite !length_imap|].
    intros i a b. rewrite !list_lookup_imap.
    destruct (text_lines text !! i) as [line|]; [|done]. simpl.
    intros [= <-] [= <-]. apply same_but_timestamp_entry.
  - intros H. apply list_eq. intros i. rewrite !list_lookup_imap.
    destruct (text_lines text !! i) as [line|] eqn:E; [|done]. simpl. f_equal.
    unfold entry. f_equal.
    destruct (line_timestamp line) eqn:T; [done|]. simpl.
    apply (H i line E). by apply (extract_timestamp_total (clock1 i)).
Qed.

(** The clocks differ, the only line holds a timestamp: the outputs agree. *)
Lemma parseLogText_deterministic_witness :
  let clock1 : Clock := fun _ => js "2024-01-01T00:00:00.000Z" in
  let clock2 : Clock := fun _ => js "2024-01-01T00:00:00.001Z" in
  let text := js "2024-01-15 10:30:45 ERROR boom" in
  clock1 0 <> clock2 0
  /\ parseLogText clock1 text = parseLogText clock2 text.
Proof.
  intros clock1 clock2 text. split; [by vm_compute|].
  apply (parseLogText_deterministic clock1 clock2 text).
  assert (text_lines text = [text]) as -> by (vm_compute; reflexivity).
  intros i line Hl Hc. destruct i as [|i]; [|by destruct i].
  injection Hl as <-. vm_compute in Hc. discriminate Hc.
Defined.

(** ** Claims about the masking step *)

(** C5.  The masking step keeps the id, the timestamp, the level and the
    component (and the response code) of every record, and the number and
    order of the records. *)
Theorem handleMaskLogs_frame (U : URLImpl) (logs : list LogEntry) :
  (forall log, id (mask_log U log) = id log
               /\ timestamp (mask_log U log) = timestamp log
               /\ level (mask_log U log) = level log
               /\ component (mask_log U log) = component log
               /\ responseCode (mask_log U log) = responseCode log)
  /\ map id (handleMaskLogs U logs) = map id logs
  /\ map timestamp (handleMaskLogs U logs) = map timestamp logs
  /\ map level (handleMaskLogs U logs) = map level logs
  /\ map component (handleMaskLogs U logs) = map component logs.
Proof.
  split; [done|]. unfold handleMaskLogs. rewrite !map_map. done.
Qed.

(** C10.  A record without a url comes out of the masking step with the
    empty string as url, a record without headers with the empty map as
    headers; [maskUrl] returns the empty string unchanged. *)
Theorem mask_log_absent_fields (U : URLImpl) (log : LogEntry) :
  (url log = None -> url (mask_log U log) = Some [])
  /\ (headers log = None -> headers (mask_log U log) = Some ∅)
  /\ maskUrl U [] = [].
Proof.
  split; [|split]; [| |done].
  - intros H. unfold mask_log. simpl. by rewrite H.
  - intros H. unfold mask_log. simpl. rewrite H. done.
Qed.

Lemma mask_log_absent_fields_witness :
  let log := {| id := js "log-1"; timestamp := js "2024-01-15T10:30:45.000Z";
                level := js "INFO"; message := js "started";
                component := None; url := None; responseCode := None;
                headers := None |} in
  url log = None /\ headers log = None
  /\ url (mask_log URL_absent log) = Some []
  /\ headers (mask_log URL_absent log) = Some ∅.
Proof.
  intros log.
  destruct (mask_log_absent_fields URL_absent log) as (Hu & Hh & _).
  split; [reflexivity|]. split; [reflexivity|].
  split; [apply Hu; reflexivity | apply Hh; reflexivity].
Defined.
(** ** Words and occurrences *)

Lemma jseqb_eq a b : jseqb a b = true <-> a = b.
Proof.
  revert b. induction a as [|x a IH]; intros [|y b]; simpl; try done.
  rewrite andb_true_iff, IH, Ascii.eqb_eq. split; [by intros [-> ->]|by intros [= -> ->]].
Qed.

Lemma prefixb_spec p s : prefixb p s = true <-> exists r, s = p ++ r.
Proof.
  revert s. induction p as [|x p IH]; intros s; simpl.
  - split; [by eauto|done].
  - destruct s as [|y s]; [split; [done|by intros [r [=]]]|].
    rewrite andb_true_iff, Ascii.eqb_eq, IH. split.
    + intros [-> [r ->]]. by exists r.
    + intros [r [= -> ->]]. eauto.
Qed.

Lemma includes_spec w s : includes w s = true <-> occurs w s.
Proof.
  induction s as [|c s IH]; simpl.
  - rewrite orb_false_r, prefixb_spec. split.
    + intros [r E]. by exists [], r.
    + intros (a & b & E). symmetry in E. apply app_eq_nil in E as [-> E].
      apply app_eq_nil in E as [-> ->]. by exists [].
  - rewrite orb_true_iff, prefixb_spec, IH. split.
    + intros [[r E]|(a & b & E)]; [by exists [], r|]. exists (c :: a), b. by rewrite E.
    + intros (a & b & E). destruct a as [|x a].
      * left. by exists b.
      * injection E as -> E. right. by exists a, b.
Qed.

Lemma includes_false w s : includes w s = false <-> ~ occurs w s.
Proof. rewrite <- includes_spec. by destruct (includes w s). Qed.

Lemma memb_In x s : memb x s = true <-> In x s.
Proof.
  unfold memb. rewrite existsb_exists. split.
  - intros (y & Hy & E). apply Ascii.eqb_eq in E. by subst.
  - intros H. exists x. split; [done|apply Ascii.eqb_refl].
Qed.

Lemma barrierb_spec w t : barrierb w t = true -> barrier w t.
Proof.
  unfold barrierb, barrier. destruct (last t) as [x|] eqn:Et; [|done].
  destruct (last w) as [y|] eqn:Ew; [|done].
  rewrite andb_true_iff, !negb_true_iff. intros [Hx Hy]. split; [by intros ->|]. split.
  - intros ? [= <-] H. apply memb_In in H. congruence.
  - intros ? [= <-] H. apply memb_In in H. congruence.
Qed.

Lemma last_In {A} (l : list A) x : last l = Some x -> In x l.
Proof. intros H. apply last_Some in H as [l' ->]. apply in_app_iff. right. by left. Qed.

Lemma last_app_nonempty {A} (a b : list A) : b <> [] -> last (a ++ b) = last b.
Proof.
  intros H. destruct (last b) as [x|] eqn:E.
  - apply last_Some in E as [b' ->]. rewrite app_assoc. apply last_snoc.
  - apply last_None in E. done.
Qed.

(** No nonempty suffix of [w] starts at the head of a barrier. *)
Lemma barrier_blocks w t u v x r :
  barrier w t -> w = v ++ u -> u <> [] -> t ++ x = u ++ r -> False.
Proof.
  intros (Ht & Hlt & Hlw) -> Hu E.
  apply app_eq_app in E as [l [[-> ->]|[-> ->]]].
  - destruct (last u) as [y|] eqn:Eu; [|by apply last_None in Eu].
    apply (Hlw y); [by rewrite last_app_nonempty|].
    apply in_app_iff. left. by apply last_In.
  - destruct (last t) as [y|] eqn:Et; [|by apply last_None in Et].
    apply (Hlt y eq_refl). apply in_app_iff. right. apply in_app_iff. left. by apply last_In.
Qed.

Lemma barrier_suffix w t1 t2 : barrier w (t1 ++ t2) -> t2 <> [] -> barrier w t2.
Proof.
  intros (Ht & Hlt & Hlw) H2. split; [done|]. split.
  - intros x Hx. apply Hlt. by rewrite last_app_nonempty.
  - intros x Hx Hin. apply (Hlw x Hx). apply in_app_iff. by right.
Qed.

Lemma Masked_prefix w s out : Masked w s out ->
  forall v u, w = v ++ u -> u <> [] -> prefixb u out = true -> prefixb u s = true.
Proof.
  induction 1 as [|c s out HM IH|mt t s out Hb HM IH]; intros v u Hw Hu Hp.
  - done.
  - destruct u as [|y u]; [done|]. simpl in Hp |- *.
    apply andb_true_iff in Hp as [-> Hp]. simpl.
    destruct u as [|z u]; [done|].
    apply (IH (v ++ [y]) (z :: u)); [by rewrite <- app_assoc|done|done].
  - apply prefixb_spec in Hp as [r E]. by destruct (barrier_blocks w t u v out r).
Qed.

Lemma occurs_cons w c s : occurs w (c :: s) <-> prefixb w (c :: s) = true \/ occurs w s.
Proof.
  rewrite <- !includes_spec. simpl. by rewrite orb_true_iff.
Qed.

Lemma occurs_app_r w a s : occurs w s -> occurs w (a ++ s).
Proof. intros (x & y & ->). exists (a ++ x), y. by rewrite <- app_assoc. Qed.

Lemma occurs_barrier w t s : w <> [] -> barrier w t -> occurs w (t ++ s) -> occurs w s.
Proof.
  intros Hw. revert s. induction t as [|c t IH]; intros s Hb H; [done|].
  simpl in H. apply occurs_cons in H as [H|H].
  - apply prefixb_spec in H as [r E].
    by destruct (barrier_blocks w (c :: t) w [] s r).
  - destruct t as [|d t]; [done|]. apply IH; [|done].
    by apply (barrier_suffix w [c] (d :: t)).
Qed.

(** Masking creates no occurrence of the word. *)
Lemma Masked_occurs w s out : w <> [] -> Masked w s out -> occurs w out -> occurs w s.
Proof.
  intros Hw. induction 1 as [|c s out HM IH|mt t s out Hb HM IH]; intros H.
  - done.
  - apply occurs_cons in H as [H|H].
    + apply occurs_cons. left.
      by apply (Masked_prefix w (c :: s) (c :: out) (Masked_copy w c s out HM) [] w).
    + apply occurs_cons. right. by apply IH.
  - apply occurs_app_r, IH. by apply (occurs_barrier w t).
Qed.

Lemma Masked_refl w s : Masked w s s.
Proof. induction s; by constructor. Qed.

Lemma Masked_app w s1 o1 s2 o2 :
  Masked w s1 o1 -> Masked w s2 o2 -> Masked w (s1 ++ s2) (o1 ++ o2).
Proof.
  induction 1 as [|c s out HM IH|mt t s out Hb HM IH]; intros H2; simpl.
  - done.
  - constructor. by apply IH.
  - rewrite <- !app_assoc. constructor; [done|by apply IH].
Qed.

Lemma Masked_whole w mt t : barrier w t -> Masked w mt t.
Proof.
  intros Hb. rewrite <- (app_nil_r mt), <- (app_nil_r t). constructor; [done|constructor].
Qed.
(** ** The global replace, one match at a time *)

Lemma length_ind (P : jsstring -> Prop) :
  (forall s, (forall s', length s' < length s -> P s') -> P s) -> forall s, P s.
Proof.
  intros H s. remember (length s) as n eqn:En. revert s En.
  induction n as [n IH] using lt_wf_ind. intros s ->. apply H. intros s' Hs'. by apply (IH (length s')).
Qed.

Section ReplaceFacts.
Context (ic : bool) (r : regex) (f : jsstring -> caps -> jsstring).

Lemma replace_from_skip mt : forall p rest,
  replace_from ic r f (length mt) p (mt ++ rest)
  = replace_from ic r f 0 (prev_after p mt) rest.
Proof.
  induction mt as [|c mt IH]; intros p rest; [done|]. simpl. apply IH.
Qed.

Lemma exec_split p s rem cs : exec ic r p s = Some (rem, cs) ->
  s = firstn (length s - length rem) s ++ rem.
Proof.
  intros H. apply exec_suffix in H as [k ->].
  rewrite length_app, Nat.add_sub. by rewrite take_app_length.
Qed.

Lemma replace_step p s :
  replace_from ic r f 0 p s
  = match exec ic r p s with
    | Some (rem, cs) =>
        let mt := firstn (length s - length rem) s in
        f mt cs ++
        match mt with
        | [] =>
            match rem with
            | c :: rem' => c :: replace_from ic r f 0 (Some c) rem'
            | [] => []
            end
        | _ :: _ => replace_from ic r f 0 (prev_after p mt) rem
        end
    | None =>
        match s with
        | c :: s' => c :: replace_from ic r f 0 (Some c) s'
        | [] => []
        end
    end.
Proof.
  destruct s as [|c s]; simpl.
  - destruct (exec ic r p []) as [[rem cs]|] eqn:E; [|done].
    apply exec_suffix in E as [k E]. symmetry in E. apply app_eq_nil in E as [-> ->]. done.
  - destruct (exec ic r p (c :: s)) as [[rem cs]|] eqn:E; [|done].
    pose proof (exec_split _ _ _ _ E) as Hs. cbv zeta.
    change (S (length s) - length rem) with (length (c :: s) - length rem).
    destruct (length (c :: s) - length rem) as [|n] eqn:En.
    + simpl in Hs. rewrite <- Hs. done.
    + cbn [firstn take] in Hs |- *. injection Hs as Hs. f_equal.
      assert (length (take n s) = n) as Hl.
      { rewrite length_take. apply exec_suffix in E as [k E].
        apply (f_equal length) in E. rewrite length_app in E. simpl in *. lia. }
      rewrite Hs at 1. rewrite <- Hl at 1. rewrite replace_from_skip. done.
Qed.

Lemma replace_Masked w :
  (forall p s rem cs, exec ic r p s = Some (rem, cs) ->
     Masked w (firstn (length s - length rem) s) (f (firstn (length s - length rem) s) cs)) ->
  forall s p, Masked w s (replace_from ic r f 0 p s).
Proof.
  intros Hf s. induction s as [s IH] using length_ind. intros p.
  rewrite replace_step. destruct (exec ic r p s) as [[rem cs]|] eqn:E.
  - pose proof (exec_split _ _ _ _ E) as Hs. pose proof (Hf _ _ _ _ E) as Hm. cbv zeta.
    destruct (firstn (length s - length rem) s) as [|x mt] eqn:Em.
    + simpl in Hs. subst rem. rewrite <- (app_nil_l s) at 1. apply Masked_app; [done|].
      destruct s as [|c s]; constructor. apply IH. simpl. lia.
    + rewrite Hs at 1. apply Masked_app; [done|]. apply IH.
      rewrite Hs, length_app. simpl. lia.
  - destruct s as [|c s]; constructor. apply IH. simpl. lia.
Qed.

End ReplaceFacts.
Lemma skip_while_suffix P s : suffix (skip_while P s) s.
Proof.
  induction s as [|a s IH]; simpl; [done|]. destruct (P a); [by apply suffix_cons_r|done].
Qed.

Lemma skip_while_head P s :
  match skip_while P s with c :: _ => P c = false | [] => True end.
Proof.
  induction s as [|a s IH]; simpl; [done|]. by destruct (P a) eqn:E.
Qed.

Lemma replace_clean w ic r f s : w <> [] ->
  (forall p s rem cs, exec ic r p s = Some (rem, cs) ->
     Masked w (firstn (length s - length rem) s) (f (firstn (length s - length rem) s) cs)) ->
  ~ occurs w s -> ~ occurs w (replace ic r f s).
Proof.
  intros Hw Hf Hs Ho. apply Hs. apply (Masked_occurs w s (replace ic r f s) Hw); [|done].
  by apply replace_Masked.
Qed.

Lemma const_rule_clean w ic r t s : w <> [] -> barrierb w (js t) = true ->
  ~ occurs w s -> ~ occurs w (apply_rule s (ic, r, const t)).
Proof.
  intros Hw Hb. apply replace_clean; [done|]. intros. apply Masked_whole. by apply barrierb_spec.
Qed.

(** ** The password rule *)

Lemma exec_password_end p s rem cs : exec true re_password p s = Some (rem, cs) ->
  length rem < length s
  /\ match rem with c :: _ => in_class true true value_items c = false | [] => True end.
Proof.
  unfold exec, re_password, re_credential. rewrite rmatch_cat_cons. intros H.
  apply rmatch_keeps in H as (p1 & s1 & Hs1 & H); [|done].
  rewrite rmatch_cat_cons in H. apply rmatch_keeps in H as (p2 & s2 & Hs2 & H); [|done].
  rewrite rmatch_cat_cons in H. apply rmatch_keeps in H as (p3 & s3 & Hs3 & H); [|done].
  rewrite rmatch_cat_cons in H. unfold value_char, noneof in H. rewrite rmatch_plus in H.
  destruct s3 as [|a s3]; [done|]. fold value_items in H.
  destruct (in_class true true value_items a); [|done].
  rewrite star_class_total in H by done. injection H as <- <-.
  split; [|apply skip_while_head].
  pose proof (suffix_length _ _ (skip_while_suffix (in_class true true value_items) s3)).
  apply suffix_length in Hs1, Hs2, Hs3. simpl in *. lia.
Qed.

Lemma exec_password_here p b :
  exec true re_password p (js "password=secret123" ++ b) <> None.
Proof.
  unfold exec, re_password, re_credential.
  rewrite rmatch_cat_cons, rmatch_str.
  match goal with |- context [strip ?a ?b ?c ?d] => ev (strip a b c d) end. cbv iota beta.
  rewrite rmatch_cat_cons. unfold eq_or_colon, oneof. rewrite rmatch_set.
  match goal with |- context [in_class ?a ?b ?c ?d] => ev (in_class a b c d) end. cbv iota.
  rewrite rmatch_cat_cons. unfold space. rewrite rmatch_star.
  cbn [star_class].
  match goal with |- context [in_class ?a ?b ?c ?d] => ev (in_class a b c d) end. cbv iota.
  rewrite rmatch_cat_cons. unfold value_char, noneof. rewrite rmatch_plus.
  match goal with |- context [in_class ?a ?b ?c "s"%char] => ev (in_class a b c "s"%char) end.
  cbv iota. by rewrite star_class_total.
Qed.
Lemma secret_nonempty : secret <> [].
Proof. done. Qed.

Lemma pw_sentinel_barrier : barrier secret (js "password=***MASKED***").
Proof. by apply barrierb_spec. Qed.

Lemma guarded_chars c : In c (pwkey ++ secret) -> in_class true true value_items c = true.
Proof.
  intros H. 
  assert (forallb (in_class true true value_items) (pwkey ++ secret) = true) as Hall
    by (vm_compute; reflexivity).
  rewrite forallb_forall in Hall. by apply Hall.
Qed.

Lemma password_rule_clean : forall s p, guarded pwkey secret s ->
  ~ occurs secret (replace_from true re_password (const "password=***MASKED***") 0 p s).
Proof.
  induction s as [s IH] using length_ind. intros p G.
  pose proof (replace_Masked true re_password (const "password=***MASKED***") secret) as HM.
  rewrite replace_step. destruct (exec true re_password p s) as [[rem cs]|] eqn:E.
  - destruct (exec_password_end _ _ _ _ E) as [Hlen Hhead].
    pose proof (exec_split _ _ _ _ _ _ E) as Hs. cbv zeta.
    destruct (firstn (length s - length rem) s) as [|x mt] eqn:Em.
    { simpl in Hs. subst. lia. }
    intros Ho. apply (occurs_barrier secret) in Ho; [|done|apply pw_sentinel_barrier].
    revert Ho. apply IH; [done|]. intros a b Er.
    destruct (G ((x :: mt) ++ a) b) as [a' Ha']; [by rewrite Hs, Er, <- app_assoc|].
    apply app_eq_app in Ha' as [l [[Hm Hk]|[-> ->]]]; [|by eauto].
    destruct l as [|y l]; [simpl in Hk; subst a; by exists []|].
    exfalso. subst rem.
    assert (exists c r, a ++ secret ++ b = c :: r /\ In c (pwkey ++ secret)) as (c & r & Hc & Hin).
    { destruct a as [|c a].
      - exists "s"%char, (js "ecret123" ++ b). split; [done|]. apply in_app_iff. right. by left.
      - exists c, (a ++ secret ++ b). split; [done|]. apply in_app_iff. left.
        rewrite Hk. apply in_app_iff. right. by left. }
    rewrite Hc in Hhead. apply guarded_chars in Hin. congruence.
  - destruct s as [|c s].
    { intros (a & b & Ho). by destruct a. }
    assert (guarded pwkey secret s) as G'.
    { intros a b Es. destruct (G (c :: a) b) as [a' Ha']; [by rewrite Es|].
      destruct a' as [|c' a'].
      - exfalso. simpl in Ha'. rewrite Es in E. 
        change (c :: a ++ secret ++ b) with ((c :: a) ++ secret ++ b) in E. rewrite Ha' in E.
        by apply (exec_password_here p b).
      - injection Ha' as -> ->. by exists a'. }
    intros Ho. apply occurs_cons in Ho as [Ho|Ho].
    + apply (Masked_prefix secret (c :: s) _ (Masked_copy _ c _ _ (HM ltac:(intros; apply Masked_whole, pw_sentinel_barrier) s (Some c))) [] secret) in Ho; [|done|done].
      apply prefixb_spec in Ho as [r Hr]. destruct (G [] r) as [a' Ha']; [done|]. by destruct a'.
    + revert Ho. apply IH; [simpl; lia|done].
Qed.
(** ** The other rules *)

Lemma ascii_forall_imp (P Q : ascii -> bool) :
  forallb (fun c => implb (P c) (Q c)) all_ascii = true ->
  forall c, P c = true -> Q c = true.
Proof.
  intros H c Pc. pose proof (ascii_forall _ H c) as H'. simpl in H'. by rewrite Pc in H'.
Qed.

Lemma strip_exact w : forall p s p' s',
  (forall x a, In x w -> set_has true [CChar x] a = true -> a = x) ->
  strip true w p s = Some (p', s') -> s = w ++ s'.
Proof.
  induction w as [|x w IH]; intros p s p' s' Hx H; simpl in H.
  - by injection H as _ ->.
  - destruct s as [|a s]; [done|]. destruct (set_has true [CChar x] a) eqn:E; [|done].
    apply Hx in E as ->; [|by left]. simpl. f_equal. apply (IH _ _ _ _ ltac:(intros; apply Hx; [by right|done]) H).
Qed.

Lemma scheme_sep_exact x a : In x scheme_sep -> set_has true [CChar x] a = true -> a = x.
Proof.
  intros Hx H. apply Ascii.eqb_eq. revert a H.
  destruct Hx as [<-|[<-|[<-|[]]]]; by apply ascii_forall_imp.
Qed.

Lemma exec_abs_url_occurs p s rem cs :
  exec true re_abs_url p s = Some (rem, cs) -> occurs scheme_sep s.
Proof.
  unfold exec, re_abs_url. rewrite rmatch_cat_cons. intros H.
  apply rmatch_keeps in H as (p1 & s1 & Hs1 & H); [|done].
  rewrite rmatch_cat_cons in H. apply rmatch_keeps in H as (p2 & s2 & Hs2 & H); [|done].
  rewrite rmatch_cat_cons, rmatch_str in H.
  destruct (strip true (js "://") p2 s2) as [[p3 s3]|] eqn:E; [|done].
  apply strip_exact in E; [|apply scheme_sep_exact].
  destruct Hs1 as [k1 ->]. destruct Hs2 as [k2 ->]. subst s2.
  exists (k1 ++ k2), s3. by rewrite <- app_assoc.
Qed.

Lemma occurs_suffix w s' s : suffix s' s -> occurs w s' -> occurs w s.
Proof. intros [k ->]. apply occurs_app_r. Qed.

Lemma replace_id ic r f : forall s,
  (forall p s', suffix s' s -> exec ic r p s' = None) ->
  forall p, replace_from ic r f 0 p s = s.
Proof.
  induction s as [|c s IH]; intros H p; simpl.
  - by rewrite H.
  - rewrite H by done. f_equal. apply IH. intros q s' Hs'. apply H. by apply suffix_cons_r.
Qed.

Lemma abs_url_rule_id f s :
  ~ occurs scheme_sep s -> apply_rule s (true, re_abs_url, f) = s.
Proof.
  intros Hs. apply replace_id. intros p s' Hs'.
  destruct (exec true re_abs_url p s') as [[rem cs]|] eqn:E; [|done].
  destruct Hs. apply (occurs_suffix _ s'); [done|]. by apply exec_abs_url_occurs in E.
Qed.

Lemma rmatch_group ic n r p s c k :
  rmatch ic (RGroup n r) p s c k
  = rmatch ic r p s c (fun p' s' c' => k p' s' ((n, firstn (length s - length s') s) :: c')).
Proof. done. Qed.

(** In a match of the fallback pattern, the first group is the head of the
    matched text. *)
Lemma exec_fallback_capture p s rem cs :
  exec true re_query_fallback p s = Some (rem, cs) ->
  exists v, firstn (length s - length rem) s = cap 1 cs ++ v.
Proof.
  unfold exec, re_query_fallback. rewrite rmatch_cat_cons, rmatch_group. intros H.
  apply rmatch_sound in H as (p1 & s1 & c1 & Hs1 & H).
  apply rmatch_keeps in H as (p2 & s2 & Hs2 & H); [|done].
  injection H as <- <-. destruct Hs1 as [k1 ->]. destruct Hs2 as [k2 ->].
  exists k2. change (cap 1 ((1, ?t) :: c1)) with t.
  rewrite !length_app.
  replace (length k1 + (length k2 + length s2) - length s2) with (length (k1 ++ k2))
    by (rewrite length_app; lia).
  replace (length k1 + (length k2 + length s2) - (length k2 + length s2)) with (length k1) by lia.
  rewrite take_app_length. rewrite app_assoc. by rewrite take_app_length.
Qed.

Lemma fallback_Masked w : barrier w MASKED -> forall s p,
  Masked w s (replace_from true re_query_fallback (fun _ cs => cap 1 cs ++ MASKED) 0 p s).
Proof.
  intros Hb. apply replace_Masked. intros p s rem cs E.
  apply exec_fallback_capture in E as [v ->].
  apply Masked_app; [apply Masked_refl|by apply Masked_whole].
Qed.

Lemma exec_rel_url_head p s rem cs : exec false re_rel_url p s = Some (rem, cs) ->
  exists t, firstn (length s - length rem) s = "/"%char :: t.
Proof.
  unfold exec, re_rel_url. rewrite rmatch_cat_cons. unfold chr at 1. rewrite rmatch_set.
  destruct s as [|a s]; [done|].
  destruct (in_class false false [CChar "/"] a) eqn:Ea; [|done].
  assert (a = "/"%char) as ->.
  { apply Ascii.eqb_eq. revert a Ea.
    apply (ascii_forall_imp (in_class false false [CChar "/"]) (fun a => Ascii.eqb a "/")).
    by vm_compute. }
  intros H. apply rmatch_sound in H as (p1 & s1 & c1 & Hs1 & H). injection H as <- <-.
  apply suffix_length in Hs1. 
  replace (length ("/"%char :: s) - length s1) with (S (length s - length s1)) by (simpl; lia).
  by eexists.
Qed.

Section MaskerFacts.
Context (U : URLImpl).

Lemma maskUrl_relative t :
  maskUrl U ("/"%char :: t)
  = replace true re_query_fallback (fun _ cs => cap 1 cs ++ MASKED) ("/"%char :: t).
Proof. done. Qed.

Lemma rel_url_rule_clean w s : w <> [] -> barrier w MASKED ->
  ~ occurs w s -> ~ occurs w (apply_rule s (false, re_rel_url, fun match_ _ => maskUrl U match_)).
Proof.
  intros Hw Hb. apply replace_clean; [done|]. intros p s' rem cs E.
  apply exec_rel_url_head in E as [t ->]. rewrite maskUrl_relative. by apply fallback_Masked.
Qed.

Lemma hash_rule_clean w s : w <> [] -> barrier w (js "***HASH_MASKED***") ->
  ~ occurs w s -> ~ occurs w (apply_rule s (false, re_hash, fun match_ _ => mask_hash match_)).
Proof.
  intros Hw Hb. apply replace_clean; [done|]. intros p s' rem cs E.
  unfold mask_hash. destruct (_ && _); [by apply Masked_whole|apply Masked_refl].
Qed.

End MaskerFacts.
(** ** Claims about the text masker *)

Lemma guarded_from_spec k w : forall s pre,
  guarded_from k w (rev pre) s = true ->
  forall a b, s = a ++ w ++ b -> exists a', pre ++ a = a' ++ k.
Proof.
  induction s as [|c s IH]; intros pre H a b E; simpl in H; apply andb_true_iff in H as [H1 H2].
  - symmetry in E. apply app_eq_nil in E as [-> E]. apply app_eq_nil in E as [-> ->].
    simpl in H1. apply prefixb_spec in H1 as [r Hr]. exists (rev r).
    rewrite app_nil_r. apply (f_equal (@rev ascii)) in Hr. 
    by rewrite rev_involutive, rev_app_distr, rev_involutive in Hr.
  - destruct a as [|x a].
    + assert (prefixb w (c :: s) = true) as Hp by (apply prefixb_spec; by exists b).
      rewrite Hp in H1. apply prefixb_spec in H1 as [r Hr]. exists (rev r).
      rewrite app_nil_r. apply (f_equal (@rev ascii)) in Hr.
      by rewrite rev_involutive, rev_app_distr, rev_involutive in Hr.
    + injection E as -> E.
      destruct (IH (pre ++ [x])) with (a := a) (b := b) as [a' Ha']; [|done|].
      * by rewrite rev_app_distr.
      * exists a'. by rewrite <- Ha', <- app_assoc.
Qed.

Lemma guarded_check k w s : guarded_from k w [] s = true -> guarded k w s.
Proof. intros H a b E. by apply (guarded_from_spec k w s [] H a b). Qed.

Lemma scheme_sep_nonempty : scheme_sep <> [].
Proof. done. Qed.

Section TextMasker.
Context (U : URLImpl).

(* The rules with a constant replacement, from the last one applied down to,
   and without, the first. *)
Ltac peel_const w :=
  repeat match goal with
         | |- ~ occurs _ (apply_rule (apply_rule _ _) _) =>
             apply (const_rule_clean w); [done | vm_compute; reflexivity |]
         end.

Lemma key_rules_clean s : guarded pwkey secret s ->
  ~ occurs secret (fold_left apply_rule (firstn 7 (mask_rules U)) s).
Proof.
  intros G. unfold mask_rules. cbn [firstn fold_left].
  peel_const secret. by apply password_rule_clean.
Qed.

Lemma later_rules_clean t :
  ~ occurs secret t -> ~ occurs secret (fold_left apply_rule (skipn 8 (mask_rules U)) t).
Proof.
  intros H. unfold mask_rules. cbn [skipn fold_left].
  apply hash_rule_clean; [done|by apply barrierb_spec|].
  peel_const secret.
  by apply rel_url_rule_clean; [done|by apply barrierb_spec|].
Qed.

Lemma chain_split s :
  maskSensitiveData U s
  = fold_left apply_rule (skipn 8 (mask_rules U)) (fold_left apply_rule (firstn 8 (mask_rules U)) s).
Proof. unfold maskSensitiveData. by rewrite <- fold_left_app, firstn_skipn. Qed.

Lemma url_rule_id s : ~ occurs scheme_sep s ->
  fold_left apply_rule (firstn 8 (mask_rules U)) s
  = fold_left apply_rule (firstn 7 (mask_rules U)) s.
Proof.
  intros N. unfold mask_rules. cbn [firstn fold_left].
  apply abs_url_rule_id. peel_const scheme_sep. by apply const_rule_clean.
Qed.

(** C1 as the code has it, for an input in which every occurrence of
    'secret123' comes right after 'password='.  The seven key-value rules
    leave no 'secret123'; the rules after the absolute-URL rule bring none
    in; so the masked text holds none when the host's rewriting of the
    absolute URLs brings none in, and in particular when the input holds no
    '://'. *)
Theorem credential_never_survives (s : jsstring) :
  guarded (js "password=") (js "secret123") s ->
  includes (js "secret123") (fold_left apply_rule (firstn 7 (mask_rules U)) s) = false
  /\ (includes (js "secret123") (fold_left apply_rule (firstn 8 (mask_rules U)) s) = false ->
      includes (js "secret123") (maskSensitiveData U s) = false)
  /\ (includes (js "://") s = false ->
      includes (js "secret123") (maskSensitiveData U s) = false).
Proof.
  intros G. fold secret pwkey in *. split; [|split].
  - apply includes_false. by apply key_rules_clean.
  - intros H. apply includes_false in H. apply includes_false.
    rewrite chain_split. by apply later_rules_clean.
  - intros N. apply includes_false in N. apply includes_false. fold scheme_sep in N.
    rewrite chain_split. apply later_rules_clean.
    rewrite url_rule_id by done. by apply key_rules_clean.
Qed.

End TextMasker.

Lemma credential_never_survives_witness :
  let s := js "GET https://example.com/login?password=secret123 200" in
  includes (js "password=secret123") s = true
  /\ guarded (js "password=") (js "secret123") s
  /\ includes (js "secret123") (maskSensitiveData URL_absent s) = false.
Proof.
  intros s.
  assert (G : guarded (js "password=") (js "secret123") s)
    by (apply guarded_check; vm_compute; reflexivity).
  split; [reflexivity|]. split; [exact G|].
  destruct (credential_never_survives URL_absent s G) as (_ & H & _).
  apply H. vm_compute. reflexivity.
Defined.

(** C1 fails as stated, in two ways.  An occurrence of 'secret123' that is
    not the value of a key survives.  And the absolute-URL rule hands each
    URL to the host, whose serialization can bring the word in: the host
    name 'SECRET123.com' comes back in lower case. *)
Lemma credential_survives_counterexample :
  let s := js "secret123 password=secret123" in
  let s' := js "password=secret123 https://SECRET123.com/x" in
  (includes (js "password=secret123") s = true
   /\ maskSensitiveData URL_absent s = js "secret123 password=***MASKED***"
   /\ includes (js "secret123") (maskSensitiveData URL_absent s) = true)
  /\ (includes (js "password=secret123") s' = true
      /\ guarded_from (js "password=") (js "secret123") [] s' = true
      /\ maskSensitiveData URL_lower_host s'
         = js "password=***MASKED*** https://secret123.com/x"
      /\ includes (js "secret123") (maskSensitiveData URL_lower_host s') = true).
Proof. repeat split; vm_compute; reflexivity. Qed.
Section TextMasker2.
Context (U : URLImpl).

(** C2 as the code has it: each text that the masker writes, given alone as
    the input, is left unchanged by every rule of the chain, and so by the
    masker.  Inside a text this does not hold, see the counterexample. *)
Theorem sentinels_fixed :
  Forall (fun t => maskSensitiveData U t = t
                   /\ Forall (fun ru => apply_rule t ru = t) (mask_rules U))
         replacement_texts.
Proof.
  assert (forallb (fixedb U) replacement_texts = true) as H by (vm_compute; reflexivity).
  rewrite forallb_forall in H. apply Forall_forall. intros t Ht.
  apply list_elem_of_In, H in Ht. unfold fixedb in Ht.
  apply andb_true_iff in Ht as [Hr Hm]. split; [by apply jseqb_eq|].
  rewrite forallb_forall in Hr. apply Forall_forall. intros ru Hru.
  apply jseqb_eq, Hr. by apply list_elem_of_In.
Qed.

(** The second pass also rewrites a query value next to a masked phone
    number: the relative-URL rule meets no white space any more. *)
Lemma remask_relative_url :
  maskSensitiveData U (js "/555 123 4567?key=1") = js "/***PHONE_MASKED***?key=1"
  /\ maskSensitiveData U (js "/***PHONE_MASKED***?key=1")
     = js "/***PHONE_MASKED***?key=***MASKED***".
Proof. split; vm_compute; reflexivity. Qed.

(** C9.  On input without a scheme [maskUrl] takes the [catch] branch for
    every host.  The pattern there asks that the name starts with one of the
    words: 'token=abc' is masked, 'mytoken=abc' and 'access_token=abc' are
    returned unchanged, although the loop of the [try] branch masks every
    parameter whose name contains one of the words. *)
Theorem maskUrl_fallback_misses_inner_names :
  maskUrl U (js "not a real url?token=abc") = js "not a real url?token=***MASKED***"
  /\ maskUrl U (js "not a real url?mytoken=abc") = js "not a real url?mytoken=abc"
  /\ maskUrl U (js "/api?access_token=abc") = js "/api?access_token=abc"
  /\ sensitive_name (js "mytoken") = true
  /\ forEach_mask 1 0 [(js "access_token", js "abc")] false
     = ([(js "access_token", MASKED)], true).
Proof. repeat split; vm_compute; reflexivity. Qed.

End TextMasker2.

(** C2 fails as stated, in both its forms.  A token that the first pass
    wrote is altered by the second: the first pass masks the phone number and
    the address of '/555 123 4567?key=a@b.co'; the text then holds no white
    space, so on the second pass the relative-URL rule matches it and the
    fallback of [maskUrl] replaces the value of 'key', which is the token
    written for the address.  And a token that stays can change what is next
    to it: the first pass leaves '1.2.3.4' alone, since no word boundary
    follows it, and replaces the path after it by a token that starts with a
    star; the second pass then finds the boundary and masks the address. *)
Lemma masking_not_idempotent_counterexample :
  let s := js "/555 123 4567?key=a@b.co" in
  let s' := js "1.2.3.4Z:\x" in
  (maskSensitiveData URL_absent s = js "/***PHONE_MASKED***?key=***EMAIL_MASKED***"
   /\ maskSensitiveData URL_absent (maskSensitiveData URL_absent s)
      = js "/***PHONE_MASKED***?key=***MASKED***"
   /\ includes (js "***EMAIL_MASKED***") (maskSensitiveData URL_absent s) = true
   /\ includes (js "***EMAIL_MASKED***")
        (maskSensitiveData URL_absent (maskSensitiveData URL_absent s)) = false)
  /\ (maskSensitiveData URL_absent s' = js "1.2.3.4***PATH_MASKED***"
      /\ maskSensitiveData URL_absent (maskSensitiveData URL_absent s')
         = js "***IP_MASKED******PATH_MASKED***"
      /\ maskSensitiveData URL_absent (maskSensitiveData URL_absent s')
         <> maskSensitiveData URL_absent s').
Proof. repeat split; vm_compute; (reflexivity || discriminate). Qed.
(** ** Level detection *)

Lemma rmatch_wordb ic p s c k :
  rmatch ic RWordB p s c k = if boundary p s then k p s c else None.
Proof. done. Qed.

Lemma option_match_id (x : mres) : match x with Some r => Some r | None => None end = x.
Proof. by destruct x. Qed.

Lemma rmatch_alt_words ws p s c k :
  rmatch true (alt (map str ws)) p s c k = alt_words ws p s c k.
Proof.
  induction ws as [|w ws IH].
  - simpl. by destruct s.
  - destruct ws as [|w' ws].
    + simpl alt. rewrite rmatch_str. simpl. by rewrite option_match_id.
    + change (alt (map str (w :: w' :: ws))) with (RAlt (str w) (alt (map str (w' :: ws)))).
      change (rmatch true (RAlt ?a ?b) p s c k)
        with (match rmatch true a p s c k with Some r => Some r | None => rmatch true b p s c k end).
      by rewrite IH, rmatch_str.
Qed.

Lemma exec_level p s :
  exec true re_level p s
  = if boundary p s then alt_words level_words p s [] (k_level s) else None.
Proof.
  unfold exec, re_level. rewrite rmatch_cat_cons, rmatch_wordb.
  destruct (boundary p s); [|done].
  rewrite rmatch_cat_cons, rmatch_group, rmatch_alt_words. done.
Qed.

Lemma upper_letter_match :
  forall x a, is_upper x = true -> set_has true [CChar x] a = true ->
    (code a =? 223)%N = false /\ to_upper a = x.
Proof.
  assert (forallb (fun x => forallb (fun a =>
            implb (is_upper x && set_has true [CChar x] a)
                  (negb (code a =? 223)%N && Ascii.eqb (to_upper a) x)) all_ascii) all_ascii
          = true) as H by (vm_compute; reflexivity).
  intros x a Hx Ha. rewrite forallb_forall in H.
  pose proof (H x (all_ascii_complete x)) as H'. rewrite forallb_forall in H'.
  specialize (H' a (all_ascii_complete a)). rewrite Hx, Ha in H'. simpl in H'.
  apply andb_true_iff in H' as [H1 H2]. apply negb_true_iff in H1. by apply Ascii.eqb_eq in H2.
Qed.

Lemma strip_upper w : forallb is_upper w = true ->
  forall p s p' rem, strip true w p s = Some (p', rem) ->
    exists txt, s = txt ++ rem /\ toUpperCase txt = w.
Proof.
  induction w as [|x w IH]; intros Hw p s p' rem H; simpl in H, Hw.
  - injection H as _ ->. by exists [].
  - apply andb_true_iff in Hw as [Hx Hw]. destruct s as [|a s]; [done|].
    destruct (set_has true [CChar x] a) eqn:E; [|done].
    apply (IH Hw) in H as (txt & -> & Ht).
    apply (upper_letter_match x a Hx) in E as [E1 E2].
    exists (a :: txt). split; [done|].
    change (toUpperCase (a :: txt))
      with ((if (code a =? 223)%N then js "SS" else [to_upper a]) ++ toUpperCase txt).
    by rewrite E1, Ht, E2.
Qed.

Lemma level_words_upper w : In w level_words -> forallb is_upper (js w) = true.
Proof.
  intros H. assert (forallb (fun w => forallb is_upper (js w)) level_words = true) as Hall
    by (vm_compute; reflexivity).
  rewrite forallb_forall in Hall. by apply Hall.
Qed.

Lemma alt_words_keyword ws s0 p s : (forall w, In w ws -> In w level_words) ->
  suffix s s0 ->
  match alt_words ws p s [] (k_level s0) with
  | Some (rem, cs) =>
      exists w pre, keyword_here ws p s = Some w /\ In w ws
                    /\ s = pre ++ rem /\ toUpperCase pre = js w
                    /\ cs = [(1, firstn (length s0 - length rem) s0)]
  | None => keyword_here ws p s = None
  end.
Proof.
  intros Hws Hs. induction ws as [|w ws IH]; [done|]. simpl.
  destruct (strip true (js w) p s) as [[p' s']|] eqn:E.
  - unfold k_level at 1. destruct (boundary p' s') eqn:B.
    + apply strip_upper in E as (txt & -> & Ht); [|apply level_words_upper, Hws; by left].
      exists w, txt. repeat split; try done. by left.
    + specialize (IH ltac:(intros; apply Hws; by right)).
      destruct (alt_words ws p s [] (k_level s0)) as [[rem cs]|]; [|done].
      destruct IH as (w' & pre & H1 & H2 & H3 & H4 & H5). exists w', pre. repeat split; try done. by right.
  - specialize (IH ltac:(intros; apply Hws; by right)).
    destruct (alt_words ws p s [] (k_level s0)) as [[rem cs]|]; [|done].
    destruct IH as (w' & pre & H1 & H2 & H3 & H4 & H5). exists w', pre. repeat split; try done. by right.
Qed.

Lemma keyword_here_In ws p s w : keyword_here ws p s = Some w -> In w ws.
Proof.
  induction ws as [|x ws IH]; simpl; [done|].
  destruct (strip true (js x) p s) as [[p' s']|]; [destruct (boundary p' s')|];
    intros H; [injection H as ->; by left | right; auto | right; auto].
Qed.

Lemma find_keyword_In s : forall p w, find_keyword p s = Some w -> In w level_words.
Proof.
  induction s as [|c s IH]; intros p w; cbn [find_keyword].
  - destruct (boundary p []); [|done]. destruct (keyword_here level_words p []) eqn:E; [|done].
    intros [= <-]. by apply keyword_here_In in E.
  - destruct (boundary p (c :: s)).
    + destruct (keyword_here level_words p (c :: s)) eqn:E.
      * intros [= <-]. by apply keyword_here_In in E.
      * apply IH.
    + apply IH.
Qed.

(** The captured keyword, in upper case, is the keyword that the direct
    scan finds. *)
Lemma search_level s : forall p,
  match search_from true re_level p s with
  | Some (_, cs) => Some (toUpperCase (cap 1 cs))
  | None => None
  end = js <$> find_keyword p s.
Proof.
  induction s as [|c s IH]; intros p.
  - cbn [search_from find_keyword]. rewrite exec_level. destruct (boundary p []); [|done].
    pose proof (alt_words_keyword level_words [] p [] ltac:(done) ltac:(done)) as H.
    destruct (alt_words _ _ _ _ _) as [[rem cs]|].
    + destruct H as (w & pre & -> & _ & Hs & Hu & ->). simpl.
      symmetry in Hs. apply app_eq_nil in Hs as [-> ->]. simpl. by rewrite <- Hu.
    + by rewrite H.
  - cbn [search_from find_keyword]. rewrite exec_level. destruct (boundary p (c :: s)).
    + pose proof (alt_words_keyword level_words (c :: s) p (c :: s) ltac:(done) ltac:(done)) as H.
      destruct (alt_words _ _ _ _ _) as [[rem cs]|].
      * destruct H as (w & pre & -> & _ & Hs & Hu & ->). simpl. f_equal. rewrite <- Hu. f_equal.
        change (cap 1 [(1, ?t)]) with t.
        change (S (length s)) with (length (c :: s)).
        rewrite Hs, length_app, Nat.add_sub. apply take_app_length.
      * rewrite H. apply IH.
    + apply IH.
Qed.

Lemma level_table_normalize w : In w level_words ->
  normalize_level (js w) = level_table w /\ In (level_table w) levels.
Proof.
  intros H. repeat (destruct H as [<-|H]; [split; [reflexivity|vm_compute; tauto]|]). done.
Qed.

Lemma extract_level_keyword line :
  extract_level line
  = match find_keyword None line with
    | Some w => level_table w
    | None => js "INFO"
    end.
Proof.
  unfold extract_level, jsmatch. pose proof (search_level line None) as H.
  destruct (search_from true re_level None line) as [[mt cs]|];
    destruct (find_keyword None line) as [w|] eqn:E; try done.
  injection H as ->. apply find_keyword_In in E. by apply level_table_normalize.
Qed.

Lemma extract_level_closed line : In (extract_level line) levels.
Proof.
  rewrite extract_level_keyword. destruct (find_keyword None line) as [w|] eqn:E.
  - apply find_keyword_In in E. by apply level_table_normalize.
  - vm_compute. tauto.
Qed.

(** ** Header extraction *)

Lemma quote_class c : in_class false false [CChar "'"; CChar dquote] c = is_quote c.
Proof.
  apply eq_true_iff_eq. split; revert c; apply ascii_forall_imp; vm_compute; reflexivity.
Qed.

Lemma strip_quotes s : forall p,
  replace_from false re_quote (fun _ _ => []) 0 p s
  = List.filter (fun c => negb (is_quote c)) s.
Proof.
  induction s as [|c s IH]; intros p; [done|].
  cbn [replace_from List.filter]. unfold exec, re_quote. rewrite rmatch_set, quote_class.
  destruct (is_quote c); simpl.
  - replace (S (length s) - length s) with 1 by lia. cbn [firstn app]. apply IH.
  - f_equal. apply IH.
Qed.

Lemma clean_filter s : clean s = List.filter (fun c => negb (is_quote c)) (trim s).
Proof. apply strip_quotes. Qed.

Lemma split_no_sep sep s : ~ In sep s -> split sep s = [s].
Proof.
  induction s as [|c s IH]; intros H; [done|]. simpl.
  destruct (Ascii.eqb c sep) eqn:E.
  - apply Ascii.eqb_eq in E. subst. destruct H. by left.
  - rewrite IH; [done|]. intros Hin. apply H. by right.
Qed.

Lemma split_app_sep sep k rest : ~ In sep k ->
  split sep (k ++ sep :: rest) = k :: split sep rest.
Proof.
  induction k as [|c k IH]; intros H; simpl.
  - by rewrite Ascii.eqb_refl.
  - destruct (Ascii.eqb c sep) eqn:E.
    + apply Ascii.eqb_eq in E. subst. destruct H. by left.
    + rewrite IH; [done|]. intros Hin. apply H. by right.
Qed.

Lemma rmatch_opt ic neg items p s c k :
  rmatch ic (opt (RSet neg items)) p s c k
  = match s with
    | a :: s' =>
        if in_class ic neg items a then
          match k (Some a) s' c with
          | Some res => Some res
          | None => k p s c
          end
        else k p s c
    | [] => k p s c
    end.
Proof.
  destruct s as [|a s]; [done|]. unfold opt.
  change (rmatch ic (RRep 0 (Some 1) (RSet neg items)) p (a :: s) c k)
    with (rep_loop (rmatch ic (RSet neg items)) (S (length s + 1)) 0 (Some 1) p (a :: s) c k).
  cbn [rep_loop]. rewrite rmatch_set. 
  destruct (in_class ic neg items a); [|done].
  replace (length s <? length (a :: s)) with true by (symmetry; apply Nat.ltb_lt; simpl; lia).
  rewrite Nat.add_1_r. done.
Qed.

Lemma brace_class a : in_class true true [CChar "}"] a = negb (Ascii.eqb a "}").
Proof.
  apply eq_true_iff_eq. split; revert a; apply ascii_forall_imp; vm_compute; reflexivity.
Qed.

Lemma brace_lit a : in_class true false [CChar "}"] a = Ascii.eqb a "}".
Proof.
  apply eq_true_iff_eq. split; revert a; apply ascii_forall_imp; vm_compute; reflexivity.
Qed.

Lemma skip_while_run P g x rest : forallb P g = true -> P x = false ->
  skip_while P (g ++ x :: rest) = x :: rest.
Proof.
  induction g as [|a g IH]; simpl; intros Hg Hx; [by rewrite Hx|].
  apply andb_true_iff in Hg as [-> Hg]. by apply IH.
Qed.

Lemma no_brace g : ~ In "}"%char g -> forallb (in_class true true [CChar "}"]) g = true.
Proof.
  intros H. apply forallb_forall. intros a Ha. rewrite brace_class. apply negb_true_iff.
  apply Ascii.eqb_neq. intros ->. done.
Qed.

Lemma space_class a : in_class true false [CSpace] a = is_space a.
Proof.
  apply eq_true_iff_eq. split; revert a; apply ascii_forall_imp; vm_compute; reflexivity.
Qed.

Lemma sep_class a :
  in_class true false (map CChar (list_ascii_of_string ":=")) a
  = Ascii.eqb a ":" || Ascii.eqb a "=".
Proof.
  apply eq_true_iff_eq. split; revert a; apply ascii_forall_imp; vm_compute; reflexivity.
Qed.

Lemma lbrace_lit a : in_class true false [CChar "{"] a = Ascii.eqb a "{".
Proof.
  apply eq_true_iff_eq. split; revert a; apply ascii_forall_imp; vm_compute; reflexivity.
Qed.

Lemma space_not_sep a : is_space a = true -> Ascii.eqb a ":" || Ascii.eqb a "=" = false.
Proof.
  intros H. apply negb_true_iff. revert a H.
  apply (ascii_forall_imp is_space (fun a => negb (Ascii.eqb a ":" || Ascii.eqb a "="))).
  by vm_compute.
Qed.

Lemma space_not_lbrace a : is_space a = true -> Ascii.eqb a "{" = false.
Proof.
  intros H. apply negb_true_iff. revert a H.
  apply (ascii_forall_imp is_space (fun a => negb (Ascii.eqb a "{"))). by vm_compute.
Qed.

Lemma plural_no_word a : Ascii.eqb (to_lower a) "s" = true ->
  negb (is_space a) && negb (Ascii.eqb a ":" || Ascii.eqb a "=") = true.
Proof.
  revert a.
  apply (ascii_forall_imp (fun a => Ascii.eqb (to_lower a) "s")
           (fun a => negb (is_space a) && negb (Ascii.eqb a ":" || Ascii.eqb a "="))).
  by vm_compute.
Qed.

Lemma skip_while_ext P Q s : (forall a, P a = Q a) -> skip_while P s = skip_while Q s.
Proof. intros H. induction s as [|a s IH]; simpl; [done|]. by rewrite H, IH. Qed.

Lemma take_while_ext P Q s : (forall a, P a = Q a) -> take_while P s = take_while Q s.
Proof. intros H. induction s as [|a s IH]; simpl; [done|]. by rewrite H, IH. Qed.

Lemma take_skip P s : take_while P s ++ skip_while P s = s.
Proof. induction s as [|a s IH]; simpl; [done|]. destruct (P a); [simpl; by rewrite IH|done]. Qed.

Lemma firstn_take_while P s :
  firstn (length s - length (skip_while P s)) s = take_while P s.
Proof.
  rewrite <- (take_skip P s) at 1 3. rewrite length_app, Nat.add_sub. apply take_app_length.
Qed.

(** The pattern from the opening brace on is [braced]. *)
Lemma rmatch_braced p s c :
  rmatch true (cat [chr "{"; RGroup 1 (plus (noneof [CChar "}"])); chr "}"]) p s c accept
  = match braced s with
    | Some (g, post) => Some (post, (1, g) :: c)
    | None => None
    end.
Proof.
  rewrite rmatch_cat_cons. unfold chr at 1. rewrite rmatch_set. unfold braced.
  destruct s as [|a s]; [done|]. rewrite lbrace_lit. destruct (Ascii.eqb a "{"); [|done].
  rewrite rmatch_cat_cons, rmatch_group. unfold noneof. rewrite rmatch_plus.
  destruct s as [|b s]; [done|]. rewrite brace_class. fold (not_rbrace b).
  cbn [skip_while take_while]. destruct (not_rbrace b) eqn:Hb; [|cbn [nonempty]; by destruct s].
  rewrite star_class_blocked.
  2:{ intros q x t c' Hx. rewrite rmatch_cat_cons. unfold chr. rewrite rmatch_set, brace_lit.
      rewrite brace_class in Hx. apply negb_true_iff in Hx. by rewrite Hx. }
  rewrite (skip_while_ext _ not_rbrace) by apply brace_class.
  pose proof (skip_while_head not_rbrace s) as Hh.
  pose proof (firstn_take_while not_rbrace (b :: s)) as Hf. cbn [skip_while take_while] in Hf.
  rewrite Hb in Hf.
  destruct (skip_while not_rbrace s) as [|x post]; [done|].
  rewrite rmatch_cat_cons. unfold chr. rewrite rmatch_set, brace_lit.
  unfold not_rbrace in Hh. apply negb_false_iff in Hh. rewrite Hh.
  rewrite rmatch_cat_nil. unfold accept. cbn [nonempty]. by rewrite Hf.
Qed.

(** The pattern after the word is [after_word]. *)
Lemma rmatch_after_word p s c :
  rmatch true (cat [star space; oneof ":="; star space;
                    chr "{"; RGroup 1 (plus (noneof [CChar "}"])); chr "}"]) p s c accept
  = match after_word s with
    | Some (g, post) => Some (post, (1, g) :: c)
    | None => None
    end.
Proof.
  rewrite rmatch_cat_cons. unfold space at 1. rewrite rmatch_star, star_class_blocked.
  2:{ intros q x t c' Hx. rewrite rmatch_cat_cons. unfold oneof. rewrite rmatch_set, sep_class.
      rewrite space_class in Hx. by rewrite (space_not_sep x Hx). }
  rewrite (skip_while_ext _ is_space) by apply space_class. unfold after_word.
  destruct (skip_while is_space s) as [|x s1].
  { rewrite rmatch_cat_cons. unfold oneof. by rewrite rmatch_set. }
  rewrite rmatch_cat_cons. unfold oneof. rewrite rmatch_set, sep_class.
  destruct (Ascii.eqb x ":" || Ascii.eqb x "="); [|done].
  rewrite rmatch_cat_cons. unfold space. rewrite rmatch_star, star_class_blocked.
  2:{ intros q y t c' Hy. rewrite rmatch_cat_cons. unfold chr at 1. rewrite rmatch_set, lbrace_lit.
      rewrite space_class in Hy. by rewrite (space_not_lbrace y Hy). }
  rewrite (skip_while_ext _ is_space) by apply space_class. apply rmatch_braced.
Qed.

(** One attempt of the headers pattern at a position is [fragment_here]. *)
Lemma exec_headers p s :
  exec true re_headers p s
  = match fragment_here s with
    | Some (g, post) => Some (post, [(1, g)])
    | None => None
    end.
Proof.
  unfold exec, re_headers, fragment_here.
  rewrite rmatch_cat_cons, rmatch_str, strip_ci by reflexivity.
  destruct (prefixb (js "header") (toLowerCase s)); [|done].
  change (length (js "header")) with 6.
  rewrite rmatch_cat_cons. unfold chr at 1. rewrite rmatch_opt.
  destruct (skipn 6 s) as [|a s1]; [by rewrite rmatch_after_word|].
  unfold in_class. cbn [xorb]. rewrite ci_lower by reflexivity.
  rewrite (Ascii.eqb_sym "s"). rewrite !rmatch_after_word.
  destruct (Ascii.eqb (to_lower a) "s") eqn:Ea; [|done].
  destruct (after_word s1) as [[g post]|]; [done|].
  apply plural_no_word in Ea. apply andb_true_iff in Ea as [E1 E2].
  apply negb_true_iff in E1, E2. unfold after_word. cbn [skip_while]. by rewrite E1, E2.
Qed.

(** The search of the headers pattern is the search of the leftmost
    fragment. *)
Lemma search_headers s : forall p,
  (fun r => cap 1 (snd r)) <$> search_from true re_headers p s = find_fragment s.
Proof.
  induction s as [|a s IH]; intros p; cbn [search_from find_fragment]; rewrite exec_headers.
  - by destruct (fragment_here []) as [[g post]|].
  - destruct (fragment_here (a :: s)) as [[g post]|]; [done|]. apply IH.
Qed.

(** C8 as the code has it: the fragment taken is the leftmost one made of
    'header' or 'headers' in any letter case, white space, ':' or '=', white
    space and a non-empty group between braces; the group is cut at the
    commas; a pair is cut at every colon and the first two pieces are taken,
    so the value is the text between the first and the second colon; each
    piece is trimmed and then loses all its quote characters; the pair is
    recorded when both pieces are then non-empty. *)
Theorem header_pairs (hs : gmap jsstring jsstring) (k v rest line : jsstring) :
  ~ In ":"%char k -> ~ In ":"%char v ->
  add_pair hs k = hs
  /\ add_pair hs (k ++ ":"%char :: v) = keep_pair hs k v
  /\ add_pair hs (k ++ ":"%char :: v ++ ":"%char :: rest) = keep_pair hs k v
  /\ clean v = List.filter (fun c => negb (is_quote c)) (trim v)
  /\ extract_headers line
     = match find_fragment line with
       | Some g =>
           let found := fold_left add_pair (split "," g) ∅ in
           if decide (found = ∅) then None else Some found
       | None => None
       end.
Proof.
  intros Hk Hv. unfold add_pair, keep_pair. repeat split.
  - by rewrite split_no_sep.
  - by rewrite split_app_sep, split_no_sep.
  - rewrite split_app_sep, split_app_sep by done. done.
  - apply clean_filter.
  - unfold extract_headers, jsmatch. rewrite <- (search_headers line None).
    by destruct (search_from true re_headers None line) as [[mt cs]|].
Qed.

Lemma header_pairs_witness :
  let hs : gmap jsstring jsstring := ∅ in
  let line := js "GET /x HEADER = {Auth: Bearer x:y, 'Host' : 'a'} done" in
  find_fragment line = Some (js "Auth: Bearer x:y, 'Host' : 'a'")
  /\ add_pair hs (js "Auth: Bearer x:y") !! js "Auth" = Some (js "Bearer x")
  /\ (extract_headers line ≫= fun found => found !! js "Auth") = Some (js "Bearer x")
  /\ (extract_headers line ≫= fun found => found !! js "Host") = Some (js "a").
Proof.
  intros hs line.
  destruct (header_pairs hs (js "Auth") (js " Bearer x") (js "y") line)
    as (_ & _ & H1 & _ & H2).
  - vm_compute. intuition discriminate.
  - vm_compute. intuition discriminate.
  - change (js "Auth: Bearer x:y") with (js "Auth" ++ ":"%char :: js " Bearer x" ++ ":"%char :: js "y").
    assert (E : find_fragment line = Some (js "Auth: Bearer x:y, 'Host' : 'a'"))
      by (vm_compute; reflexivity).
    rewrite H1, H2, E. split; [reflexivity|]. repeat split; vm_compute; reflexivity.
Defined.

(** C8 fails as stated: the value recorded for 'Auth: Bearer x:y' stops at
    the second colon. *)
Lemma extract_headers_counterexample :
  let line := js "GET /x headers: {Auth: Bearer x:y}" in
  (extract_headers line ≫= fun found => found !! js "Auth") = Some (js "Bearer x")
  /\ (extract_headers line ≫= fun found => found !! js "Auth") <> Some (js "Bearer x:y").
Proof. split; vm_compute; (reflexivity || discriminate). Qed.
(** ** More on the batch parser *)

Lemma nat_to_string_inj a b : nat_to_string a = nat_to_string b -> a = b.
Proof.
  unfold nat_to_string, js. intros H.
  apply (f_equal string_of_list_ascii) in H. rewrite !string_of_list_ascii_of_string in H.
  assert (forall n, Nat.to_uint n <> Decimal.Nil) as Hn.
  { intros n. rewrite <- (DecimalNat.Unsigned.of_to n) at 1.
    rewrite DecimalNat.Unsigned.to_of. apply unorm_nonnil. }
  apply (f_equal NilZero.uint_of_string) in H.
  rewrite !NilZero.usu in H by apply Hn. injection H as H.
  by apply DecimalNat.Unsigned.to_uint_inj.
Qed.

Lemma log_id_inj i j : log_id i = log_id j -> i = j.
Proof.
  unfold log_id. intros H. apply app_inv_head in H. apply nat_to_string_inj in H. lia.
Qed.

Lemma NoDup_imap_inj {A B} (f : nat -> B) (l : list A) :
  (forall i j, f i = f j -> i = j) -> NoDup (imap (fun i _ => f i) l).
Proof.
  revert f. induction l as [|x l IH]; intros f Hf; [constructor|].
  rewrite imap_cons. constructor.
  - intros Hin. apply list_elem_of_lookup in Hin as [i Hi].
    rewrite list_lookup_imap in Hi. destruct (l !! i); [|done]. simpl in Hi.
    injection Hi as Hi. apply Hf in Hi. done.
  - apply (IH (f ∘ S)). intros i j H. apply Hf in H. lia.
Qed.

Lemma entries_ids (f : nat -> jsstring) (ls : list jsstring) :
  map id (imap (fun i line => entry (f i) i line) ls) = imap (fun i _ => log_id i) ls.
Proof.
  apply list_eq. intros i. rewrite list_lookup_fmap, !list_lookup_imap.
  by destruct (ls !! i).
Qed.

(** X1.  The ids of the records of a batch are pairwise distinct. *)
Theorem parseLogText_ids_distinct (clock : Clock) (text : jsstring) :
  NoDup (map id (parseLogText clock text)).
Proof.
  rewrite parseLogText_entries, entries_ids. apply NoDup_imap_inj, log_id_inj.
Qed.
(** *** Trimming *)

Lemma trimStart_fixed s : match s with c :: _ => is_space c = false | [] => True end ->
  trimStart s = s.
Proof. destruct s as [|c s]; simpl; [done|]. by intros ->. Qed.

Lemma trimStart_head s :
  match trimStart s with c :: _ => is_space c = false | [] => True end.
Proof.
  induction s as [|c s IH]; simpl; [done|]. by destruct (is_space c) eqn:E.
Qed.

Lemma trimStart_snoc s c : is_space c = false -> trimStart (s ++ [c]) = trimStart s ++ [c].
Proof.
  intros Hc. induction s as [|a s IH]; simpl; [by rewrite Hc|]. by destruct (is_space a).
Qed.

Lemma trimStart_suffix s : suffix (trimStart s) s.
Proof.
  induction s as [|c s IH]; simpl; [done|]. destruct (is_space c); [by apply suffix_cons_r|done].
Qed.

Lemma trim_head s : match trim s with c :: _ => is_space c = false | [] => True end.
Proof.
  unfold trim, trimEnd. pose proof (trimStart_head s) as Hh.
  destruct (trimStart s) as [|c t]; [done|]. simpl rev.
  rewrite trimStart_snoc, rev_app_distr by done. done.
Qed.

Lemma trim_last s : match rev (trim s) with d :: _ => is_space d = false | [] => True end.
Proof. unfold trim, trimEnd. rewrite rev_involutive. apply trimStart_head. Qed.

Lemma trim_idempotent s : trim (trim s) = trim s.
Proof.
  unfold trim at 1. rewrite (trimStart_fixed _ (trim_head s)).
  unfold trimEnd. rewrite (trimStart_fixed _ (trim_last s)). apply rev_involutive.
Qed.

Lemma trim_incl s c : In c (trim s) -> In c s.
Proof.
  unfold trim, trimEnd. intros H. apply in_rev in H.
  destruct (trimStart_suffix (rev (trimStart s))) as [k Hk].
  assert (In c (rev (trimStart s))) as H' by (rewrite Hk; apply in_app_iff; by right).
  apply in_rev in H'. destruct (trimStart_suffix s) as [k' Hk']. rewrite Hk'.
  apply in_app_iff. by right.
Qed.

Lemma split_no_sep_in sep s : Forall (fun l => ~ In sep l) (split sep s).
Proof.
  induction s as [|c s IH]; simpl.
  - constructor; [by intros []|constructor].
  - destruct (Ascii.eqb c sep) eqn:E.
    + constructor; [by intros []|done].
    + destruct (split sep s) as [|l ls].
      * constructor; [|constructor]. intros [->|[]]. by rewrite Ascii.eqb_refl in E.
      * apply Forall_cons in IH as [Hl Hls]. constructor; [|done].
        intros [->|H]; [by rewrite Ascii.eqb_refl in E|done].
Qed.

(** X2.  The message of every record of a batch is non-empty, starts and
    ends with a code unit that is not white space (trimming it again changes
    nothing) and holds no line feed. *)
Theorem parseLogText_messages (clock : Clock) (text : jsstring) :
  Forall (fun r => message r <> [] /\ trim (message r) = message r /\ ~ In LF (message r))
         (parseLogText clock text).
Proof.
  rewrite parseLogText_entries. apply Forall_lookup. intros i r.
  rewrite list_lookup_imap. destruct (text_lines text !! i) as [line|] eqn:E; [|done].
  intros [= <-]. simpl message.
  apply list_elem_of_lookup_2, list_elem_of_In in E. unfold text_lines in E.
  apply filter_In in E as [Hin Hnb]. split; [|split].
  - unfold nonblank in Hnb. by destruct (trim line).
  - apply trim_idempotent.
  - intros H. apply trim_incl in H.
    pose proof (split_no_sep_in LF text) as Hall. rewrite Forall_forall in Hall.
    apply (Hall line); [by apply list_elem_of_In|done].
Qed.

Lemma has_ink_count text seen : has_ink text = true -> 0 < count_lines seen text.
Proof.
  revert seen. induction text as [|c text IH]; intros seen H; [done|].
  simpl in H |- *. destruct (Ascii.eqb c LF) eqn:E.
  - apply Ascii.eqb_eq in E. subst c. simpl in H. specialize (IH false H). lia.
  - destruct (is_space c); simpl in H.
    + rewrite orb_false_r. by apply IH.
    + rewrite orb_true_r. clear. revert text. 
      assert (forall t, 0 < count_lines true t) as Ht.
      { induction t as [|a t IHt]; simpl; [lia|]. destruct (Ascii.eqb a LF); [lia|]. apply IHt. }
      intros t. apply Ht.
Qed.

(** X3.  A text that is not blank (its trim is non-empty) yields at least
    one record: the alerts that [handleFile] and [handleTextSubmit] show for
    an empty parse result cannot follow their checks of the text. *)
Theorem parseLogText_nonempty (clock : Clock) (text : jsstring) :
  nonempty (trim text) = true -> parseLogText clock text <> [].
Proof.
  intros H. change (nonblank text = true) in H. rewrite nonblank_ink in H.
  apply (has_ink_count text false) in H. rewrite <- text_lines_count in H.
  rewrite parseLogText_entries. intros E. apply (f_equal length) in E.
  rewrite length_imap in E. simpl in E. lia.
Qed.

Lemma parseLogText_nonempty_witness :
  nonempty (trim (js "  boot ok ")) = true
  /\ parseLogText (fun _ => js "now") (js "  boot ok ") <> [].
Proof.
  split; [reflexivity|]. apply (parseLogText_nonempty (fun _ => js "now")). reflexivity.
Defined.

(** *** What a match holds *)

Lemma rep_loop_tracks whole body : tracks whole body ->
  forall fuel mn mx, tracks whole (fun p s c k => rep_loop body fuel mn mx p s c k).
Proof.
  intros Hb fuel. induction fuel as [|fuel IH]; intros mn mx p s c k res Hs Hc H; simpl in H; [done|].
  destruct mn as [|mn].
  - assert (Hopt : match body p s c (fun p0 r c0 => if length r <? length s then rep_loop body fuel 0 (pred_max mx) p0 r c0 k else None) with Some res0 => Some res0 | None => k p s c end = Some res -> exists p' s' c', suffix s' s /\ caps_in whole c' /\ k p' s' c' = Some res).
    { destruct (body p s c _) eqn:E.
      - intros [= ->]. apply Hb in E as (p' & s' & c' & Hs' & Hc' & E); [|done|done].
        destruct (length s' <? length s); [|done].
        apply IH in E as (p2 & s2 & c2 & Hs2 & Hc2 & E); [|by etrans|done].
        exists p2, s2, c2. split; [by etrans|done].
      - intros E'. by exists p, s, c. }
    destruct mx as [[|n]|]; [by exists p, s, c| by apply Hopt | by apply Hopt].
  - apply Hb in H as (p' & s' & c' & Hs' & Hc' & E); [|done|done].
    apply IH in E as (p2 & s2 & c2 & Hs2 & Hc2 & E); [|by etrans|done].
    exists p2, s2, c2. split; [by etrans|done].
Qed.

Lemma occurs_take_suffix (whole s s' : jsstring) : suffix s whole -> suffix s' s ->
  occurs (firstn (length s - length s') s) whole.
Proof.
  intros [k ->] [k' ->]. rewrite length_app, Nat.add_sub, take_app_length.
  exists k, s'. done.
Qed.

Lemma rmatch_tracks ic whole r : tracks whole (rmatch ic r).
Proof.
  induction r as [| neg items | a IHa b IHb | a IHa b IHb | mn mx r IH | n r IH | | |];
    intros p s c k res Hs Hc H; simpl in H.
  - by exists p, s, c.
  - destruct s as [|x s]; [done|]. destruct (xorb _ _); [|done].
    exists (Some x), s, c. split; [by apply suffix_cons_r|done].
  - apply IHa in H as (p1 & s1 & c1 & Hs1 & Hc1 & H); [|done|done].
    apply IHb in H as (p2 & s2 & c2 & Hs2 & Hc2 & H); [|by etrans|done].
    exists p2, s2, c2. split; [by etrans|done].
  - destruct (rmatch ic a p s c k) eqn:E.
    + injection H as ->. by apply IHa in E.
    + by apply IHb in H.
  - by apply (rep_loop_tracks _ _ IH) in H.
  - apply IH in H as (p1 & s1 & c1 & Hs1 & Hc1 & H); [|done|done].
    exists p1, s1, ((n, firstn (length s - length s1) s) :: c1). split; [done|]. split; [|done].
    intros m t [[= <- <-]|Hin]; [by apply occurs_take_suffix|by apply (Hc1 m)].
  - destruct p; [done|]. by exists None, s, c.
  - destruct s; [|done]. by exists p, [], c.
  - destruct (xorb _ _); [|done]. by exists p, s, c.
Qed.

Lemma cap_occurs whole cs n : caps_in whole cs -> occurs (cap n cs) whole.
Proof.
  intros H. unfold cap. destruct (find _ cs) as [[m t]|] eqn:E.
  - apply find_some in E as [E _]. by apply (H m).
  - by exists [], whole.
Qed.

(** A successful search is a successful attempt at some position. *)
Lemma search_from_exec ic r s : forall p mt cs,
  search_from ic r p s = Some (mt, cs) ->
  exists p' s' rem, suffix s' s /\ exec ic r p' s' = Some (rem, cs)
                    /\ mt = firstn (length s' - length rem) s'.
Proof.
  induction s as [|c s IH]; intros p mt cs H; cbn [search_from] in H.
  - destruct (exec ic r p []) as [[rem cs']|] eqn:E; [|done].
    injection H as <- <-. exists p, [], rem. by repeat split.
  - destruct (exec ic r p (c :: s)) as [[rem cs']|] eqn:E.
    + injection H as <- <-. exists p, (c :: s), rem. by repeat split.
    + apply IH in H as (p' & s' & rem & Hs & E' & ->).
      exists p', s', rem. split; [by apply suffix_cons_r|done].
Qed.

Lemma jsmatch_occurs ic r line mt cs : jsmatch ic r line = Some (mt, cs) ->
  occurs mt line /\ occurs (cap 1 cs) line.
Proof.
  intros H. apply search_from_exec in H as (p' & s' & rem & Hs & E & ->).
  pose proof (exec_suffix _ _ _ _ _ _ E) as Hr. split; [by apply occurs_take_suffix|].
  apply (rmatch_tracks ic line) in E as (p2 & s2 & c2 & _ & Hc & [= _ <-]); [|done|by intros ? ? []].
  by apply cap_occurs.
Qed.

Lemma first_capture_occurs pats line t :
  first_capture pats line = Some t -> occurs t line.
Proof.
  induction pats as [|[ic r] pats IH]; simpl; [done|].
  destruct (jsmatch ic r line) as [[mt cs]|] eqn:E; [|done].
  intros [= <-]. by apply jsmatch_occurs in E as [_ E].
Qed.

Lemma trimStart_occurs s : occurs (trimStart s) s.
Proof. destruct (trimStart_suffix s) as [k Hk]. exists k, []. by rewrite app_nil_r. Qed.

Lemma trim_occurs s : occurs (trim s) s.
Proof.
  unfold trim, trimEnd. destruct (trimStart_suffix (rev (trimStart s))) as [k Hk].
  apply (f_equal (@rev ascii)) in Hk. rewrite rev_involutive, rev_app_distr in Hk.
  destruct (trimStart_suffix s) as [k' Hk'].
  exists k', (rev k). by rewrite <- Hk.
Qed.

(** X4.  Parsing only copies: the message, the url, the component and the
    response code of a line's record are pieces of the line, and so is its
    timestamp unless it is the clock reading or a converted epoch. *)
Theorem fields_are_pieces (line : jsstring) :
  occurs (trim line) line
  /\ on_some (fun u => occurs u line) (extract_url line)
  /\ on_some (fun c => occurs c line) (extract_component line)
  /\ on_some (fun rc => occurs rc line) (extract_responseCode line)
  /\ on_some (fun ts => occurs ts line)
       (first_capture (map (pair false) timestampPatterns) line).
Proof.
  split; [apply trim_occurs|]. split; [|split; [|split]].
  - unfold extract_url, or_match.
    destruct (jsmatch false re_url_http line) as [[mt cs]|] eqn:E1;
      [by apply jsmatch_occurs in E1 as [? ?]|].
    destruct (jsmatch false re_url_path line) as [[mt cs]|] eqn:E2;
      [by apply jsmatch_occurs in E2 as [? ?]|].
    destruct (jsmatch false re_url_any line) as [[mt cs]|] eqn:E3;
      [by apply jsmatch_occurs in E3 as [? ?]|done].
  - unfold extract_component. destruct (first_capture _ _) eqn:E; [|done].
    by apply first_capture_occurs in E.
  - unfold extract_responseCode, or_match.
    destruct (jsmatch false re_code_bare line) as [[mt cs]|] eqn:E1;
      [by apply jsmatch_occurs in E1 as [? ?]|].
    destruct (jsmatch true (re_code_after "status") line) as [[mt cs]|] eqn:E2;
      [by apply jsmatch_occurs in E2 as [? ?]|].
    destruct (jsmatch true (re_code_after "code") line) as [[mt cs]|] eqn:E3;
      [by apply jsmatch_occurs in E3 as [? ?]|done].
  - destruct (first_capture _ _) eqn:E; [|done]. by apply first_capture_occurs in E.
Qed.
(** *** The response code *)

Lemma status_first ic a : in_class ic false [CRange "1" "5"] a = true -> in_range "1" "5" a = true.
Proof.
  revert a. destruct ic; apply ascii_forall_imp; vm_compute; reflexivity.
Qed.

Lemma status_digit ic a : in_class ic false [CDigit] a = true -> is_digit a = true.
Proof.
  revert a. destruct ic; apply ascii_forall_imp; vm_compute; reflexivity.
Qed.

Lemma rmatch_code3 ic p s c k res : rmatch ic code3 p s c k = Some res ->
  exists rc p' s', is_status rc = true /\ k p' s' ((1, rc) :: c) = Some res.
Proof.
  unfold code3. rewrite rmatch_group, rmatch_cat_cons, rmatch_set.
  destruct s as [|a s]; [done|].
  destruct (in_class ic false [CRange "1" "5"] a) eqn:Ea; [|done].
  rewrite rmatch_cat_cons. unfold digit. rewrite rmatch_times.
  destruct s as [|b s]; [done|]. cbn [take_n].
  destruct (in_class ic false [CDigit] b) eqn:Eb; [|done].
  destruct s as [|d s]; [done|].
  destruct (in_class ic false [CDigit] d) eqn:Ed; [|done].
  rewrite rmatch_cat_nil. intros H.
  exists [a; b; d], (Some d), s. split.
  - simpl. by rewrite (status_first _ _ Ea), (status_digit _ _ Eb), (status_digit _ _ Ed).
  - replace (firstn (length (a :: b :: d :: s) - length s) (a :: b :: d :: s)) with [a; b; d] in H; [done|].
    replace (length (a :: b :: d :: s) - length s) with 3 by (simpl; lia). done.
Qed.

Lemma exec_code_bare p s rem cs : exec false re_code_bare p s = Some (rem, cs) ->
  is_status (cap 1 cs) = true.
Proof.
  unfold exec, re_code_bare. rewrite rmatch_cat_cons, rmatch_wordb.
  destruct (boundary p s); [|done]. rewrite rmatch_cat_cons. intros H.
  apply rmatch_code3 in H as (rc & p' & s' & Hrc & H).
  rewrite rmatch_cat_cons, rmatch_wordb in H. destruct (boundary p' s'); [|done].
  by injection H as _ <-.
Qed.

Lemma exec_code_after key p s rem cs : exec true (re_code_after key) p s = Some (rem, cs) ->
  is_status (cap 1 cs) = true.
Proof.
  unfold exec, re_code_after. rewrite rmatch_cat_cons. intros H.
  apply rmatch_keeps in H as (p1 & s1 & Hs1 & H).
  2:{ unfold str. generalize (list_ascii_of_string key). intros l. by induction l. }
  rewrite rmatch_cat_cons in H. apply rmatch_keeps in H as (p2 & s2 & Hs2 & H); [|done].
  rewrite rmatch_cat_cons in H.
  apply rmatch_code3 in H as (rc & p' & s' & Hrc & H).
  by injection H as _ <-.
Qed.

(** X5.  A response code, when one is found, is three digits of which the
    first is 1 to 5. *)
Theorem responseCode_shape (line : jsstring) :
  on_some (fun rc => is_status rc = true) (extract_responseCode line).
Proof.
  unfold extract_responseCode, or_match.
  destruct (jsmatch false re_code_bare line) as [[mt cs]|] eqn:E1.
  { apply search_from_exec in E1 as (p & s & rem & _ & E & _). by apply exec_code_bare in E. }
  destruct (jsmatch true (re_code_after "status") line) as [[mt cs]|] eqn:E2.
  { apply search_from_exec in E2 as (p & s & rem & _ & E & _). by apply exec_code_after in E. }
  destruct (jsmatch true (re_code_after "code") line) as [[mt cs]|] eqn:E3; [|done].
  apply search_from_exec in E3 as (p & s & rem & _ & E & _). by apply exec_code_after in E.
Qed.
(** *** The component *)

Lemma search_skip ic r pre : forall p rest,
  (forall a p' t, In a pre -> exec ic r p' (a :: t) = None) ->
  search_from ic r p (pre ++ rest) = search_from ic r (prev_after p pre) rest.
Proof.
  induction pre as [|a pre IH]; intros p rest H; [done|].
  simpl. rewrite H by (by left). apply IH. intros b p' t Hb. apply H. by right.
Qed.

Lemma lit_class ic d a : is_upper_l1 d = false -> is_lower_l1 d = false ->
  in_class ic false [CChar d] a = Ascii.eqb a d.
Proof.
  intros Hu Hl. destruct ic.
  - revert Hu Hl. revert d a.
    assert (forallb (fun d => forallb (fun a =>
              implb (negb (is_upper_l1 d) && negb (is_lower_l1 d))
                    (Bool.eqb (in_class true false [CChar d] a) (Ascii.eqb a d)))
              all_ascii) all_ascii = true) as H by (vm_compute; reflexivity).
    intros d a Hu Hl. rewrite forallb_forall in H.
    pose proof (H d (all_ascii_complete d)) as H'. rewrite forallb_forall in H'.
    specialize (H' a (all_ascii_complete a)). rewrite Hu, Hl in H'. simpl in H'.
    by apply Bool.eqb_prop in H'.
  - unfold in_class, set_has. simpl. rewrite !orb_false_r. apply Ascii.eqb_sym.
Qed.

(** A group of one or more code units other than [d], closed by [d]. *)
Lemma rmatch_delimited ic n d x post p c :
  is_upper_l1 d = false -> is_lower_l1 d = false -> x <> [] -> ~ In d x ->
  rmatch ic (cat [RGroup n (plus (noneof [CChar d])); chr d]) p (x ++ d :: post) c accept
  = Some (post, (n, x) :: c).
Proof.
  intros Hu Hl Hx Hd. destruct x as [|a x]; [done|].
  assert (forall b, in_class ic true [CChar d] b = negb (Ascii.eqb b d)) as Hneg.
  { intros b. rewrite <- (lit_class ic d b Hu Hl). done. }
  assert (forallb (in_class ic true [CChar d]) (a :: x) = true) as Hall.
  { apply forallb_forall. intros b Hb. rewrite Hneg. apply negb_true_iff, Ascii.eqb_neq.
    by intros ->. }
  cbn [forallb] in Hall. apply andb_true_iff in Hall as [Ha Hall].
  change ((a :: x) ++ d :: post) with (a :: x ++ d :: post).
  rewrite rmatch_cat_cons, rmatch_group. unfold noneof. rewrite rmatch_plus, Ha.
  rewrite star_class_blocked.
  - rewrite skip_while_run; [|done|by rewrite Hneg, Ascii.eqb_refl].
    rewrite rmatch_cat_cons. unfold chr. rewrite rmatch_set, (lit_class ic d d Hu Hl), Ascii.eqb_refl.
    rewrite rmatch_cat_nil. unfold accept. do 3 f_equal.
    change (a :: x ++ d :: post) with ((a :: x) ++ d :: post).
    rewrite length_app. cbn [length].
    replace (S (length x) + S (length post) - S (length post)) with (length (a :: x))
      by (simpl; lia).
    by rewrite take_app_length.
  - intros p2 b s2 c2 Pb. rewrite rmatch_cat_cons. unfold chr.
    rewrite rmatch_set, (lit_class ic d b Hu Hl). rewrite Hneg in Pb.
    apply negb_true_iff in Pb. by rewrite Pb.
Qed.

Lemma exec_bracket_miss a p t : a <> "["%char -> exec false re_comp_bracket p (a :: t) = None.
Proof.
  intros Ha. unfold exec, re_comp_bracket. rewrite rmatch_cat_cons. unfold chr at 1.
  rewrite rmatch_set, lit_class by done. apply Ascii.eqb_neq in Ha. by rewrite Ha.
Qed.

(** X6.  The bracket form comes first: when the first '[' of a line opens a
    group of one or more code units other than ']' that a ']' closes, the
    component is the text between the two, whatever else the line holds. *)
Theorem component_bracket_first (pre x post : jsstring) :
  ~ In "["%char pre -> x <> [] -> ~ In "]"%char x ->
  extract_component (pre ++ "["%char :: x ++ "]"%char :: post) = Some x.
Proof.
  intros Hpre Hx Hd. unfold extract_component, componentPatterns. cbn [first_capture].
  unfold jsmatch. rewrite search_skip.
  2:{ intros a p' t Ha. apply exec_bracket_miss. by intros ->. }
  assert (exec false re_comp_bracket (prev_after None pre) ("["%char :: x ++ "]"%char :: post)
          = Some (post, [(1, x)])) as E.
  { unfold exec, re_comp_bracket. rewrite rmatch_cat_cons. unfold chr at 1.
    rewrite rmatch_set, lit_class, Ascii.eqb_refl by done.
    by apply rmatch_delimited. }
  cbn [search_from]. rewrite E. done.
Qed.

Lemma component_bracket_first_witness :
  extract_component (js "[AuthService] UserController handled request")
  = Some (js "AuthService")
  /\ extract_component (js "10:00 worker [db] PaymentService failed [x]") = Some (js "db").
Proof.
  split.
  - apply (component_bracket_first [] (js "AuthService") (js " UserController handled request")).
    + by intros [].
    + discriminate.
    + vm_compute. intuition discriminate.
  - apply (component_bracket_first (js "10:00 worker ") (js "db") (js " PaymentService failed [x]")).
    + vm_compute. intuition discriminate.
    + discriminate.
    + vm_compute. intuition discriminate.
Defined.
(** ** More on the masking step *)

(** *** The query parameters of a parsed URL *)

Lemma jseqb_refl a : jseqb a a = true.
Proof. by apply jseqb_eq. Qed.

Lemma remove_named_In name ps k v :
  In (k, v) (remove_named name ps) -> In (k, v) ps /\ jseqb k name = false.
Proof.
  induction ps as [|[k' v'] ps IH]; simpl; [done|].
  destruct (jseqb k' name) eqn:E.
  - intros H. apply IH in H as [H1 H2]. by auto.
  - intros [[= -> ->]|H]; [by auto|]. apply IH in H as [H1 H2]. by auto.
Qed.

Lemma remove_named_length name ps : length (remove_named name ps) <= length ps.
Proof.
  induction ps as [|[k v] ps IH]; simpl; [done|]. destruct (jseqb k name); simpl; lia.
Qed.

Lemma remove_named_plain name ps : sensitive_name name = true ->
  List.filter plain_pair (remove_named name ps) = List.filter plain_pair ps.
Proof.
  intros Hn. induction ps as [|[k v] ps IH]; simpl; [done|].
  destruct (jseqb k name) eqn:E.
  - apply jseqb_eq in E. subst k. unfold plain_pair at 2. simpl. by rewrite Hn.
  - simpl. by rewrite IH.
Qed.

Lemma params_set_app name value done rest :
  (forall k v, In (k, v) done -> jseqb k name = false) ->
  params_set name value (done ++ rest) = done ++ params_set name value rest.
Proof.
  induction done as [|[k v] done IH]; intros H; simpl; [done|].
  rewrite (H k v) by (by left). f_equal. apply IH. intros k' v' Hin. apply (H k' v'). by right.
Qed.

Lemma mask_first_ext ps : forall seen seen',
  (forall x, existsb (jseqb x) seen = existsb (jseqb x) seen') ->
  mask_first seen ps = mask_first seen' ps.
Proof.
  induction ps as [|[k v] ps IH]; intros seen seen' H; [done|]. cbn [mask_first].
  rewrite <- (H k). destruct (sensitive_name k); [|by rewrite (IH seen seen')].
  destruct (existsb (jseqb k) seen); [by apply IH|]. f_equal. apply IH.
  intros x. cbn [existsb]. by rewrite H.
Qed.

Lemma mask_first_remove name ps : sensitive_name name = true -> forall seen,
  mask_first seen (remove_named name ps) = mask_first (name :: seen) ps.
Proof.
  intros Hn. induction ps as [|[k v] ps IH]; intros seen; [done|]. cbn [remove_named].
  destruct (jseqb k name) eqn:E.
  - apply jseqb_eq in E. subst k. rewrite IH. cbn [mask_first existsb].
    by rewrite Hn, jseqb_refl.
  - cbn [mask_first existsb]. rewrite E. cbn [orb].
    destruct (sensitive_name k); [|by rewrite IH].
    destruct (existsb (jseqb k) seen); [by apply IH|]. f_equal. rewrite IH.
    apply mask_first_ext. intros x. cbn [existsb]. by destruct (jseqb x name), (jseqb x k).
Qed.

Lemma forEach_mask_walk fuel : forall done todo changed,
  length todo <= fuel -> walked done todo ->
  forEach_mask fuel (length done) (done ++ todo) changed
  = (done ++ mask_first [] todo, changed || existsb (fun p => sensitive_name (fst p)) todo).
Proof.
  induction fuel as [|fuel IH]; intros done todo changed Hf Hw.
  - destruct todo; [|simpl in Hf; lia]. simpl. by rewrite orb_false_r.
  - cbn [forEach_mask]. rewrite nth_error_app2, Nat.sub_diag by lia.
    destruct todo as [|[key v0] todo]; simpl nth_error.
    { simpl. by rewrite orb_false_r. }
    cbn [mask_first existsb fst]. destruct (sensitive_name key) eqn:Hkey.
    + rewrite params_set_app.
      2:{ intros k v Hin. destruct (jseqb k key) eqn:E; [|done].
          apply jseqb_eq in E. subst k.
          destruct (Hw key v Hin Hkey) as [_ Hno]. specialize (Hno key v0 ltac:(by left)).
          by rewrite jseqb_refl in Hno. }
      cbn [params_set]. rewrite jseqb_refl.
      pose proof (IH (done ++ [(key, MASKED)]) (remove_named key todo) true) as E.
      rewrite length_app, Nat.add_1_r, <- !app_assoc in E. cbn [app] in E. rewrite E.
      * rewrite (mask_first_remove key todo Hkey). by rewrite orb_true_r.
      * pose proof (remove_named_length key todo). simpl in Hf. lia.
      * intros k v Hin Hk. apply in_app_iff in Hin as [Hin|[[= <- <-]|[]]].
        -- destruct (Hw k v Hin Hk) as [Hv Hno]. split; [done|].
           intros k' v' Hin'. apply remove_named_In in Hin' as [Hin' _].
           apply (Hno k' v'). by right.
        -- split; [done|]. intros k' v' Hin'. by apply remove_named_In in Hin' as [_ ?].
    + pose proof (IH (done ++ [(key, v0)]) todo changed) as E.
      rewrite length_app, Nat.add_1_r, <- !app_assoc in E. cbn [app] in E. rewrite E.
      * done.
      * simpl in Hf. lia.
      * intros k v Hin Hk. apply in_app_iff in Hin as [Hin|[[= <- <-]|[]]]; [|congruence].
        destruct (Hw k v Hin Hk) as [Hv Hno]. split; [done|].
        intros k' v' Hin'. apply (Hno k' v'). by right.
Qed.

Lemma mask_first_names ps : forall seen k,
  In k (map fst (mask_first seen ps))
  <-> In k (map fst ps) /\ (sensitive_name k = true -> existsb (jseqb k) seen = false).
Proof.
  induction ps as [|[k' v'] ps IH]; intros seen k; cbn [mask_first map fst In].
  { tauto. }
  destruct (sensitive_name k') eqn:Hs.
  - destruct (existsb (jseqb k') seen) eqn:Hin.
    + rewrite IH. split; [tauto|]. intros [[<-|H] Hc]; [|tauto].
      rewrite Hc in Hin; done.
    + cbn [map fst In]. rewrite IH. cbn [existsb]. split.
      * intros [<-|[H Hc]]; [split; [by left|done]|]. split; [by right|].
        intros Hk. apply Hc in Hk. by apply orb_false_iff in Hk as [_ ?].
      * intros [[<-|H] Hc]; [by left|].
        destruct (jseqb k k') eqn:E.
        -- apply jseqb_eq in E. subst k'. by left.
        -- right. split; [done|]. intros Hk. simpl. by apply Hc.
  - cbn [map fst In]. rewrite IH. split.
    + intros [<-|[H Hc]]; [split; [by left|congruence]|]. tauto.
    + intros [[<-|H] Hc]; [by left|]. tauto.
Qed.

Lemma mask_first_masked ps : forall seen k v,
  In (k, v) (mask_first seen ps) -> sensitive_name k = true -> v = MASKED.
Proof.
  induction ps as [|[k' v'] ps IH]; intros seen k v; cbn [mask_first]; [done|].
  destruct (sensitive_name k') eqn:Hs.
  - destruct (existsb (jseqb k') seen); [apply IH|].
    intros [[= <- <-]|H]; [done|]. by apply (IH _ _ _ H).
  - intros [[= <- <-]|H]; [congruence|]. by apply (IH _ _ _ H).
Qed.

Lemma mask_first_once ps : forall seen,
  NoDup (List.filter sensitive_name (map fst (mask_first seen ps))).
Proof.
  induction ps as [|[k v] ps IH]; intros seen; cbn [mask_first]; [constructor|].
  destruct (sensitive_name k) eqn:Hs.
  - destruct (existsb (jseqb k) seen) eqn:Hin; [apply IH|].
    cbn [map fst List.filter]. rewrite Hs. apply NoDup_cons_2; [|apply IH].
    intros H. apply list_elem_of_In, filter_In in H as [H _].
    apply mask_first_names in H as [_ H]. specialize (H Hs). cbn [existsb] in H.
    by rewrite jseqb_refl in H.
  - cbn [map fst List.filter]. rewrite Hs. apply IH.
Qed.

Lemma mask_first_plain ps : forall seen,
  List.filter plain_pair (mask_first seen ps) = List.filter plain_pair ps.
Proof.
  induction ps as [|[k v] ps IH]; intros seen; cbn [mask_first]; [done|].
  cbn [List.filter]. unfold plain_pair at 2. cbn [fst].
  destruct (sensitive_name k) eqn:Hs; cbn [negb].
  - destruct (existsb (jseqb k) seen); [apply IH|].
    cbn [List.filter]. unfold plain_pair at 1. cbn [fst]. rewrite Hs. apply IH.
  - cbn [List.filter]. unfold plain_pair at 1. cbn [fst]. rewrite Hs. cbn [negb].
    by rewrite IH.
Qed.

(** X8.  The loop of [maskUrl] over the query parameters of a parsed URL
    comes to this: every parameter whose name holds a sensitive word is kept
    where its name comes first, with the sentinel as value, and removed where
    the name has come before; the other parameters keep their value and
    their order.  So the names are the same after the loop as before, each
    sensitive name comes once, and a change is reported exactly when some
    name is sensitive. *)
Theorem forEach_mask_spec (ps : list (jsstring * jsstring)) :
  forEach_mask (length ps) 0 ps false
  = (mask_first [] ps, existsb (fun p => sensitive_name (fst p)) ps)
  /\ (forall k, In k (map fst (mask_first [] ps)) <-> In k (map fst ps))
  /\ (forall k v, In (k, v) (mask_first [] ps) -> sensitive_name k = true -> v = MASKED)
  /\ NoDup (List.filter sensitive_name (map fst (mask_first [] ps)))
  /\ List.filter plain_pair (mask_first [] ps) = List.filter plain_pair ps.
Proof.
  split; [|split; [|split; [|split]]].
  - apply (forEach_mask_walk (length ps) [] ps false); [done|by intros ? ? []].
  - intros k. rewrite mask_first_names. cbn [existsb]. tauto.
  - apply mask_first_masked.
  - apply mask_first_once.
  - apply mask_first_plain.
Qed.
(** *** The chain of rules *)

Lemma replace_ext ic r f g :
  (forall p s rem cs, exec ic r p s = Some (rem, cs) ->
     f (firstn (length s - length rem) s) cs = g (firstn (length s - length rem) s) cs) ->
  forall s p, replace_from ic r f 0 p s = replace_from ic r g 0 p s.
Proof.
  intros Hfg s. induction s as [s IH] using length_ind. intros p.
  rewrite !replace_step. destruct (exec ic r p s) as [[rem cs]|] eqn:E.
  - pose proof (exec_split _ _ _ _ _ _ E) as Hs. cbv zeta. rewrite (Hfg _ _ _ _ E). f_equal.
    destruct (firstn (length s - length rem) s) as [|x mt] eqn:Em.
    + destruct rem as [|c rem]; [done|]. f_equal. apply IH.
      simpl in Hs. subst s. simpl. lia.
    + apply IH. rewrite Hs, length_app. simpl. lia.
  - destruct s as [|c s]; [done|]. f_equal. apply IH. simpl. lia.
Qed.

Lemma existsb_jseqb_In t l : existsb (jseqb t) l = true -> In t l.
Proof.
  intros H. apply existsb_exists in H as (x & Hx & E). apply jseqb_eq in E. by subst x.
Qed.

Lemma sentinel_barrier w t :
  forallb (barrierb w) sentinels = true -> existsb (jseqb (js t)) sentinels = true ->
  barrierb w (js t) = true.
Proof.
  intros H Ht. rewrite forallb_forall in H. by apply H, existsb_jseqb_In.
Qed.

Section Chain.
Context (U : URLImpl).

Ltac peel_rules w :=
  repeat match goal with
         | |- ~ occurs _ (apply_rule (apply_rule _ _) _) =>
             apply (const_rule_clean w); [done | vm_compute; reflexivity |]
         end.

(** X20.  The host's URL class only matters for a text that holds '://': a
    text without it is masked to the same result on every host. *)
Theorem masking_host_independent (U' : URLImpl) (s : jsstring) :
  includes (js "://") s = false ->
  maskSensitiveData U s = maskSensitiveData U' s.
Proof.
  intros N. apply includes_false in N. fold scheme_sep in N.
  unfold maskSensitiveData, mask_rules. cbn [fold_left].
  do 18 f_equal.
  match goal with |- apply_rule (apply_rule ?X _) _ = _ =>
    assert (~ occurs scheme_sep X) as HX end.
  { peel_rules scheme_sep. by apply const_rule_clean. }
  rewrite !abs_url_rule_id by done.
  unfold apply_rule, replace. apply replace_ext. intros p s' rem cs E.
  apply exec_rel_url_head in E as [t ->]. by rewrite !maskUrl_relative.
Qed.

Ltac peel_sentinels H :=
  repeat match goal with
         | |- ~ occurs _ (apply_rule (apply_rule _ _) _) =>
             apply const_rule_clean;
             [done | apply (sentinel_barrier _ _ H); vm_compute; reflexivity |]
         end.

(** X21.  Masking writes nothing but its replacement texts: a word that
    every replacement text is a barrier for (the word holds no asterisk and
    does not end with a unit of a replacement text) and that does not occur
    in a text without '://' does not occur in the masked text either. *)
Theorem masking_adds_no_word (w s : jsstring) :
  forallb (barrierb w) sentinels = true ->
  includes (js "://") s = false ->
  includes w s = false ->
  includes w (maskSensitiveData U s) = false.
Proof.
  intros H N Hs. apply includes_false in N, Hs. apply includes_false. fold scheme_sep in N.
  assert (Hw : w <> []).
  { intros ->. rewrite forallb_forall in H.
    specialize (H MASKED ltac:(apply existsb_jseqb_In; vm_compute; reflexivity)).
    unfold barrierb in H. by destruct (last MASKED). }
  assert (HM : barrier w MASKED).
  { apply barrierb_spec. rewrite forallb_forall in H. apply H.
    apply existsb_jseqb_In. vm_compute. reflexivity. }
  assert (HH : barrier w (js "***HASH_MASKED***")).
  { apply barrierb_spec. by apply (sentinel_barrier _ _ H). }
  unfold maskSensitiveData, mask_rules. cbn [fold_left].
  apply hash_rule_clean; [done|done|].
  peel_sentinels H.
  apply rel_url_rule_clean; [done|done|].
  match goal with |- ~ occurs _ (apply_rule ?X _) =>
    assert (~ occurs scheme_sep X /\ ~ occurs w X) as [HX1 HX2] end.
  { split.
    - peel_rules scheme_sep. by apply const_rule_clean.
    - peel_sentinels H. apply const_rule_clean; [done| |done].
      apply (sentinel_barrier _ _ H). vm_compute. reflexivity. }
  by rewrite abs_url_rule_id.
Qed.

End Chain.

Lemma masking_host_independent_witness :
  let s := js "GET /login?token=abc from 10.0.0.5" in
  includes (js "://") s = false
  /\ maskSensitiveData URL_absent s = maskSensitiveData (URL_query []) s.
Proof.
  intros s. assert (H : includes (js "://") s = false) by (vm_compute; reflexivity).
  split; [exact H|]. exact (masking_host_independent URL_absent (URL_query []) s H).
Defined.

Lemma masking_adds_no_word_witness :
  let s := js "login user=bob password=abc from 10.0.0.5" in
  let w := js "hunter2" in
  forallb (barrierb w) sentinels = true
  /\ includes (js "://") s = false
  /\ includes w s = false
  /\ includes w (maskSensitiveData URL_absent s) = false.
Proof.
  intros s w.
  assert (H1 : forallb (barrierb w) sentinels = true) by (vm_compute; reflexivity).
  assert (H2 : includes (js "://") s = false) by (vm_compute; reflexivity).
  assert (H3 : includes w s = false) by (vm_compute; reflexivity).
  split; [exact H1|]. split; [exact H2|]. split; [exact H3|].
  exact (masking_adds_no_word URL_absent w s H1 H2 H3).
Defined.
(** *** [maskUrl] *)

Section MaskUrl.
Context (U : URLImpl).

Lemma replace_from_unmatched ic r f pre : forall p t,
  (forall a s q, In a pre -> exec ic r q (a :: s) = None) ->
  replace_from ic r f 0 p (pre ++ t) = pre ++ replace_from ic r f 0 (prev_after p pre) t.
Proof.
  induction pre as [|c pre IH]; intros p t H; [done|].
  cbn [app replace_from]. rewrite H by (by left). cbn [app prev_after]. f_equal.
  apply IH. intros a s q Ha. apply H. by right.
Qed.

Lemma query_mark_class a :
  in_class true false (map CChar (list_ascii_of_string "?&")) a
  = Ascii.eqb a "?" || Ascii.eqb a "&".
Proof.
  apply eq_true_iff_eq. split; revert a; apply ascii_forall_imp; vm_compute; reflexivity.
Qed.

Lemma exec_fallback_head p a s :
  a <> "?"%char -> a <> "&"%char -> exec true re_query_fallback p (a :: s) = None.
Proof.
  intros H1 H2. unfold exec, re_query_fallback.
  rewrite rmatch_cat_cons, rmatch_group, rmatch_cat_cons. unfold oneof. rewrite rmatch_set.
  rewrite query_mark_class.
  destruct (Ascii.eqb_spec a "?"); [done|]. by destruct (Ascii.eqb_spec a "&").
Qed.

Lemma exec_fallback_nil p : exec true re_query_fallback p [] = None.
Proof. done. Qed.

(** X23.  A string without a scheme that holds neither '?' nor '&' is
    returned unchanged by [maskUrl], on every host. *)
Theorem maskUrl_no_query (url : jsstring) :
  has_scheme url = false -> ~ In "?"%char url -> ~ In "&"%char url ->
  maskUrl U url = url.
Proof.
  intros Hs Hq Ha. unfold maskUrl, URL_new. rewrite Hs.
  destruct (nonempty url); [|done]. cbn [negb]. unfold replace.
  rewrite <- (app_nil_r url) at 1. rewrite replace_from_unmatched.
  - cbn [replace_from]. rewrite exec_fallback_nil. by rewrite app_nil_r.
  - intros a s q Hin. apply exec_fallback_head; by intros ->.
Qed.

End MaskUrl.

Lemma maskUrl_no_query_witness :
  has_scheme (js "/health/live") = false
  /\ ~ In "?"%char (js "/health/live") /\ ~ In "&"%char (js "/health/live")
  /\ maskUrl URL_absent (js "/health/live") = js "/health/live".
Proof.
  assert (H : has_scheme (js "/health/live") = false) by reflexivity.
  assert (H1 : ~ In "?"%char (js "/health/live")) by (vm_compute; intuition discriminate).
  assert (H2 : ~ In "&"%char (js "/health/live")) by (vm_compute; intuition discriminate).
  split; [exact H|]. split; [exact H1|]. split; [exact H2|].
  exact (maskUrl_no_query URL_absent _ H H1 H2).
Defined.
(** *** The fallback of [maskUrl] on a sensitive parameter *)

Lemma prefixb_app w a b : prefixb w a = true -> prefixb w (a ++ b) = true.
Proof.
  intros H. apply prefixb_spec in H as [r ->]. apply prefixb_spec. exists (r ++ b).
  by rewrite app_assoc.
Qed.

Lemma eq_class a : in_class true false [CChar "="] a = Ascii.eqb a "=".
Proof.
  apply eq_true_iff_eq. split; revert a; apply ascii_forall_imp; vm_compute; reflexivity.
Qed.

Lemma amp_class a : in_class true true [CChar "&"] a = negb (Ascii.eqb a "&").
Proof.
  apply eq_true_iff_eq. split; revert a; apply ascii_forall_imp; vm_compute; reflexivity.
Qed.

Lemma not_eq_class a : in_class true true [CChar "="] a = negb (in_class true false [CChar "="] a).
Proof. unfold in_class. by destruct (set_has _ _ _). Qed.

Lemma skip_while_all P s : forallb P s = true -> skip_while P s = [].
Proof.
  induction s as [|a s IH]; simpl; [done|]. intros H. apply andb_true_iff in H as [-> H]. by apply IH.
Qed.

Lemma forallb_not_in (P : ascii -> bool) x s :
  (forall a, P a = negb (Ascii.eqb a x)) -> ~ In x s -> forallb P s = true.
Proof.
  intros HP H. apply forallb_forall. intros a Ha. rewrite HP. apply negb_true_iff.
  apply Ascii.eqb_neq. by intros ->.
Qed.

Lemma firstn_app_sub {A} (a v : list A) : firstn (length (a ++ v) - length v) (a ++ v) = a.
Proof. rewrite length_app, Nat.add_sub. apply take_app_length. Qed.

(** The rest of the fallback pattern after the word of the second group. *)
Lemma fallback_tail p tail v c (k : cont) :
  ~ In "="%char tail ->
  rmatch true (cat [star (noneof [CChar "="]); chr "="]) p (tail ++ "="%char :: v) c k
  = k (Some "="%char) v c.
Proof.
  intros Ht. rewrite rmatch_cat_cons. unfold noneof. rewrite rmatch_star.
  rewrite star_class_blocked.
  - rewrite skip_while_run.
    + rewrite rmatch_cat_cons. unfold chr. rewrite rmatch_set, eq_class. by rewrite rmatch_cat_nil.
    + apply (forallb_not_in _ "="); [|done]. intros a. by rewrite not_eq_class, eq_class.
    + by rewrite not_eq_class, eq_class.
  - intros q a s c' Ha. rewrite rmatch_cat_cons. unfold chr. rewrite rmatch_set.
    rewrite not_eq_class in Ha. apply negb_true_iff in Ha. by rewrite Ha.
Qed.

Lemma fallback_value p v c : ~ In "&"%char v ->
  rmatch true (cat [star (noneof [CChar "&"])]) p v c accept = Some ([], c).
Proof.
  intros Hv. rewrite rmatch_cat_cons. unfold noneof. rewrite rmatch_star.
  rewrite star_class_total by done.
  rewrite skip_while_all; [by rewrite rmatch_cat_nil|].
  apply (forallb_not_in _ "&"); [apply amp_class|done].
Qed.

Lemma in_skipn {A} (x : A) n : forall l, In x (skipn n l) -> In x l.
Proof.
  induction n as [|n IH]; intros l H; [done|]. destruct l as [|a l]; [done|].
  right. by apply IH.
Qed.

Lemma alt_words_lower ws p s c k X :
  (forall w, In w ws -> forallb is_lower (js w) = true) ->
  (exists w, In w ws /\ prefixb (js w) (toLowerCase s) = true) ->
  (forall w, In w ws -> prefixb (js w) (toLowerCase s) = true ->
     exists cs, k (prev_after p (firstn (length (js w)) s)) (skipn (length (js w)) s) c
                = Some ([], cs) /\ cap 1 cs = X) ->
  exists cs, alt_words ws p s c k = Some ([], cs) /\ cap 1 cs = X.
Proof.
  induction ws as [|w ws IH]; intros Hl (w0 & Hin & Hp) Hk; [done|].
  cbn [alt_words]. rewrite strip_ci by (apply Hl; by left).
  destruct (prefixb (js w) (toLowerCase s)) eqn:E.
  - destruct (Hk w ltac:(by left) E) as (cs & -> & Hc). by exists cs.
  - apply IH.
    + intros w' Hw'. apply Hl. by right.
    + exists w0. split; [|done]. destruct Hin as [->|Hin]; [congruence|done].
    + intros w' Hw'. apply Hk. by right.
Qed.

Lemma lower_prefix_length w name v : forallb is_lower w = true ->
  prefixb w (toLowerCase (name ++ "="%char :: v)) = true -> length w <= length name.
Proof.
  revert name. induction w as [|x w IH]; intros name Hw Hp; [simpl; lia|].
  simpl in Hw. apply andb_true_iff in Hw as [Hx Hw].
  destruct name as [|a name].
  - simpl in Hp. apply andb_true_iff in Hp as [Hp _]. apply Ascii.eqb_eq in Hp. by subst x.
  - simpl in Hp. apply andb_true_iff in Hp as [_ Hp]. specialize (IH name Hw Hp). simpl. lia.
Qed.

Lemma exec_fallback_param p sep name v :
  sep = "?"%char \/ sep = "&"%char ->
  existsb (fun w => prefixb w (toLowerCase name)) sensitiveParams = true ->
  ~ In "="%char name -> ~ In "&"%char v ->
  exists cs, exec true re_query_fallback p (sep :: name ++ "="%char :: v) = Some ([], cs)
             /\ cap 1 cs = sep :: name ++ ["="%char].
Proof.
  intros Hsep Hw Hn Hv. 
  unfold exec, re_query_fallback.
  rewrite rmatch_cat_cons, rmatch_group, rmatch_cat_cons. unfold oneof.
  rewrite rmatch_set, query_mark_class.
  assert (Ascii.eqb sep "?" || Ascii.eqb sep "&" = true) as -> by (by destruct Hsep as [->| ->]).
  rewrite rmatch_cat_cons, rmatch_group.
  change (alt [str "token"; str "key"; str "password"; str "secret"; str "auth"])
    with (alt (map str ["token"; "key"; "password"; "secret"; "auth"]%string)).
  rewrite rmatch_alt_words.
  assert (Hlow : forall w, In w ["token"; "key"; "password"; "secret"; "auth"]%string ->
                   forallb is_lower (js w) = true).
  { intros w [<-|[<-|[<-|[<-|[<-|[]]]]]]; reflexivity. }
  apply alt_words_lower; [exact Hlow| |].
  - change sensitiveParams
      with (map js ["token"; "key"; "password"; "secret"; "auth"]%string) in Hw.
    apply existsb_exists in Hw as (w & Hin & Hp). apply in_map_iff in Hin as (w0 & <- & Hin).
    exists w0. split; [done|]. unfold toLowerCase. rewrite map_app. by apply prefixb_app.
  - intros w Hin Hp.
    pose proof (lower_prefix_length _ _ _ (Hlow w Hin) Hp) as Hlen.
    rewrite skipn_app. replace (length (js w) - length name) with 0 by lia.
    change (skipn 0 ("="%char :: v)) with ("="%char :: v).
    rewrite fallback_tail by (intros Hx; apply Hn; by apply (in_skipn _ (length (js w)))).
    rewrite fallback_value by done.
    eexists. split; [reflexivity|].
    change (cap 1 ((1, ?t) :: _)) with t.
    change (sep :: name ++ "="%char :: v) with ((sep :: name) ++ "="%char :: v).
    rewrite (app_assoc (sep :: name) ["="%char] v : (sep :: name) ++ "="%char :: v = _).
    apply firstn_app_sub.
Qed.

Section MaskUrlFallback.
Context (U : URLImpl).

(** X24.  The fallback masks a parameter whose name starts with a sensitive
    word: in a string without a scheme whose first '?' or '&' introduces a
    last pair 'name=value', where the name starts, letter case aside, with
    token, key, password, secret or auth, [maskUrl] replaces the value by the
    sentinel and keeps all that comes before it. *)
Theorem maskUrl_fallback_masks (pre name v : jsstring) (sep : ascii) :
  has_scheme (pre ++ sep :: name ++ "="%char :: v) = false ->
  ~ In "?"%char pre -> ~ In "&"%char pre ->
  sep = "?"%char \/ sep = "&"%char ->
  existsb (fun w => prefixb w (toLowerCase name)) sensitiveParams = true ->
  ~ In "="%char name -> ~ In "&"%char v ->
  maskUrl U (pre ++ sep :: name ++ "="%char :: v) = pre ++ sep :: name ++ "="%char :: MASKED.
Proof.
  intros Hs Hq Ha Hsep Hw Hn Hv. unfold maskUrl, URL_new. rewrite Hs.
  assert (nonempty (pre ++ sep :: name ++ "="%char :: v) = true) as -> by (by destruct pre).
  cbn [negb]. unfold replace. rewrite replace_from_unmatched.
  2:{ intros a s q Hin. apply exec_fallback_head; by intros ->. }
  f_equal. rewrite replace_step.
  destruct (exec_fallback_param (prev_after None pre) sep name v Hsep Hw Hn Hv) as (cs & -> & Hc).
  cbv zeta. rewrite Hc, Nat.sub_0_r, firstn_all. cbn [app].
  rewrite replace_step, exec_fallback_nil. rewrite app_nil_r.
  by rewrite <- app_assoc.
Qed.

End MaskUrlFallback.

Lemma maskUrl_fallback_masks_witness :
  let pre := js "not a real url" in
  let name := js "Token_id" in
  let v := js "abc=1" in
  has_scheme (pre ++ "?"%char :: name ++ "="%char :: v) = false
  /\ ~ In "?"%char pre /\ ~ In "&"%char pre
  /\ existsb (fun w => prefixb w (toLowerCase name)) sensitiveParams = true
  /\ ~ In "="%char name /\ ~ In "&"%char v
  /\ maskUrl URL_absent (js "not a real url?Token_id=abc=1")
     = js "not a real url?Token_id=***MASKED***".
Proof.
  intros pre name v.
  assert (H1 : has_scheme (pre ++ "?"%char :: name ++ "="%char :: v) = false) by reflexivity.
  assert (H2 : ~ In "?"%char pre) by (vm_compute; intuition discriminate).
  assert (H3 : ~ In "&"%char pre) by (vm_compute; intuition discriminate).
  assert (H4 : existsb (fun w => prefixb w (toLowerCase name)) sensitiveParams = true)
    by reflexivity.
  assert (H5 : ~ In "="%char name) by (vm_compute; intuition discriminate).
  assert (H6 : ~ In "&"%char v) by (vm_compute; intuition discriminate).
  split; [exact H1|]. split; [exact H2|]. split; [exact H3|]. split; [exact H4|].
  split; [exact H5|]. split; [exact H6|].
  exact (maskUrl_fallback_masks URL_absent pre name v "?"%char H1 H2 H3 (or_introl eq_refl) H4 H5 H6).
Defined.
(** ** Filtering and paging *)

Section Filters.
Context (Date_parse : jsstring -> option Z).

Lemma passes_and f log :
  passes Date_parse f log
  = passes Date_parse (range_only f) log && passes Date_parse (level_only f) log
    && passes Date_parse (keyword_only f) log && passes Date_parse (component_only f) log
    && passes Date_parse (code_only f) log.
Proof.
  unfold passes, range_only, level_only, keyword_only, component_only, code_only.
  cbn [FilterOptions.range_start FilterOptions.range_end FilterOptions.logLevel
       FilterOptions.keyword FilterOptions.component FilterOptions.responseCode nonempty
       orb andb length Nat.eqb].
  destruct (_ && (_ || _)); [done|].
  destruct (_ && negb (jseqb _ _)); [done|].
  destruct (_ && negb (includes _ (toLowerCase (message log)))); [done|].
  destruct (_ && (negb (truthy _) || _)); [done|].
  cbn [andb]. done.
Qed.

Lemma filter_filter {A} (p q : A -> bool) l :
  List.filter q (List.filter p l) = List.filter (fun x => p x && q x) l.
Proof.
  induction l as [|x l IH]; simpl; [done|].
  destruct (p x); simpl; [destruct (q x)|]; by rewrite IH.
Qed.

(** X9.  The filters combine as a conjunction: filtering by all criteria at
    once gives the list obtained by filtering by the timestamp range, then by
    the level, then by the keyword, then by the component, then by the
    response code. *)
Theorem filters_combine (logs : list LogEntry) (f : FilterOptions.t) :
  filteredLogs Date_parse logs f
  = filteredLogs Date_parse
      (filteredLogs Date_parse
         (filteredLogs Date_parse
            (filteredLogs Date_parse
               (filteredLogs Date_parse logs (range_only f))
               (level_only f))
            (keyword_only f))
         (component_only f))
      (code_only f).
Proof.
  unfold filteredLogs. rewrite !filter_filter.
  apply List.filter_ext. intros log. rewrite (passes_and f log). by rewrite !andb_assoc.
Qed.

Lemma count_if_0 b n : count_if b n = 0 -> b = false /\ n = 0.
Proof. by destruct b. Qed.

(** X10.  When [getActiveFilterCount] is 0, that is, when the controls show
    no active filter, [filteredLogs] hides no record. *)
Theorem no_active_filter (logs : list LogEntry) (f : FilterOptions.t) :
  getActiveFilterCount f = 0 -> filteredLogs Date_parse logs f = logs.
Proof.
  unfold getActiveFilterCount. intros H.
  apply count_if_0 in H as [H5 H]. apply count_if_0 in H as [H4 H].
  apply count_if_0 in H as [H3 H]. apply count_if_0 in H as [H2 H].
  apply count_if_0 in H as [H1 _].
  unfold filteredLogs. rewrite (List.filter_ext _ (fun _ => true)).
  - induction logs as [|x l IH]; simpl; by rewrite ?IH.
  - intros log. unfold passes. by rewrite H1, H2, H3, H4, H5.
Qed.

(** X11.  A record whose timestamp the host does not read as a date is never
    hidden by the timestamp range: on such records the filters act as the
    same filters without the range. *)
Theorem unreadable_timestamp_in_range (logs : list LogEntry) (f : FilterOptions.t) :
  Forall (fun log => Date_parse (timestamp log) = None) logs ->
  filteredLogs Date_parse logs f = filteredLogs Date_parse logs (no_range f).
Proof.
  intros H. unfold filteredLogs. induction H as [|log l Hlog Hl IH]; simpl; [done|].
  rewrite IH. replace (passes Date_parse f log) with (passes Date_parse (no_range f) log); [done|].
  unfold passes, no_range. simpl. rewrite Hlog. simpl. by rewrite !andb_false_r.
Qed.

Lemma to_lower_idem c : to_lower (to_lower c) = to_lower c.
Proof.
  apply Ascii.eqb_eq. revert c.
  apply (ascii_forall (fun c => Ascii.eqb (to_lower (to_lower c)) (to_lower c))).
  by vm_compute.
Qed.

Lemma toLowerCase_idem s : toLowerCase (toLowerCase s) = toLowerCase s.
Proof.
  unfold toLowerCase. induction s as [|c s IH]; simpl; [done|]. by rewrite to_lower_idem, IH.
Qed.

Lemma nonempty_toLowerCase s : nonempty (toLowerCase s) = nonempty s.
Proof. by destruct s. Qed.

(** X12.  The keyword and the component criteria ignore letter case: two
    keywords, and two component texts, that differ only by the case of their
    letters select the same records. *)
Theorem filter_words_case (logs : list LogEntry) (f : FilterOptions.t) (kw kw' comp comp' : jsstring) :
  toLowerCase kw = toLowerCase kw' -> toLowerCase comp = toLowerCase comp' ->
  filteredLogs Date_parse logs (with_words kw comp f)
  = filteredLogs Date_parse logs (with_words kw' comp' f).
Proof.
  intros Hk Hc. unfold filteredLogs. apply List.filter_ext. intros log.
  unfold passes, with_words. simpl.
  rewrite <- (nonempty_toLowerCase kw), <- (nonempty_toLowerCase comp), Hk, Hc.
  by rewrite !nonempty_toLowerCase.
Qed.

End Filters.

Lemma no_active_filter_witness :
  getActiveFilterCount clearAllFilters = 0
  /\ filteredLogs (fun _ => None) [fallbackLog (js "now") 0 (js "x")] clearAllFilters
     = [fallbackLog (js "now") 0 (js "x")].
Proof.
  split; [reflexivity|]. apply (no_active_filter (fun _ => None)). reflexivity.
Defined.

Lemma unreadable_timestamp_in_range_witness :
  let f := {| FilterOptions.range_start := js "2024-01-01T00:00"; FilterOptions.range_end := [];
              FilterOptions.logLevel := []; FilterOptions.keyword := [];
              FilterOptions.component := []; FilterOptions.responseCode := [] |} in
  let logs := [fallbackLog (js "yesterday") 0 (js "x")] in
  let Date_parse := fun s : jsstring => if jseqb s (js "yesterday") then None else Some 0%Z in
  Forall (fun log => Date_parse (timestamp log) = None) logs
  /\ filteredLogs Date_parse logs f = filteredLogs Date_parse logs (no_range f).
Proof.
  intros f logs Date_parse.
  assert (H : Forall (fun log => Date_parse (timestamp log) = None) logs)
    by (constructor; [reflexivity|constructor]).
  split; [exact H|]. exact (unreadable_timestamp_in_range Date_parse logs f H).
Defined.

Lemma filter_words_case_witness :
  let f := clearAllFilters in
  let logs := [fallbackLog (js "now") 0 (js "Login failed")] in
  toLowerCase (js "LOGIN") = toLowerCase (js "login")
  /\ toLowerCase (js "Auth") = toLowerCase (js "AUTH")
  /\ filteredLogs (fun _ => None) logs (with_words (js "LOGIN") (js "Auth") f)
     = filteredLogs (fun _ => None) logs (with_words (js "login") (js "AUTH") f).
Proof.
  intros f logs. split; [reflexivity|]. split; [reflexivity|].
  apply (filter_words_case (fun _ => None)); reflexivity.
Defined.
(** *** Pages *)

Lemma firstn_min_length {A} n (l : list A) : firstn (Nat.min n (length l)) l = firstn n l.
Proof.
  destruct (Nat.le_ge_cases n (length l)) as [H|H].
  - by rewrite Nat.min_l.
  - rewrite Nat.min_r by done. by rewrite !firstn_all2 by lia.
Qed.

Lemma paginatedLogs_chunk {A} (l : list A) (i : nat) :
  paginatedLogs l (Z.of_nat (S i)) = firstn 50 (skipn (50 * i) l).
Proof.
  unfold paginatedLogs, slice, logsPerPage. cbv zeta.
  replace (Z.of_nat (S i) - 1)%Z with (Z.of_nat i) by lia.
  destruct (Z.ltb_spec (Z.of_nat i * 50) 0); [lia|].
  destruct (Z.ltb_spec (Z.of_nat i * 50 + 50) 0); [lia|].
  destruct (Nat.le_gt_cases (length l) (50 * i)) as [Hl|Hl].
  - rewrite !Z.min_r by lia. rewrite Z.sub_diag.
    rewrite (skipn_all2 (n := 50 * i) l) by lia. by rewrite firstn_nil.
  - rewrite (Z.min_l (Z.of_nat i * 50)) by lia.
    replace (Z.to_nat (Z.of_nat i * 50)) with (50 * i) by lia.
    rewrite <- (firstn_min_length 50). rewrite length_skipn. f_equal. lia.
Qed.

Lemma chunks_concat {A} n : forall l : list A, length l <= 50 * n ->
  concat (map (fun i => firstn 50 (skipn (50 * i) l)) (List.seq 0 n)) = l.
Proof.
  induction n as [|n IH]; intros l Hl.
  - destruct l; [done|simpl in Hl; lia].
  - rewrite <- cons_seq, <- seq_shift. cbn [map concat]. rewrite List.map_map.
    rewrite (map_ext _ (fun i => firstn 50 (skipn (50 * i) (skipn 50 l)))).
    + rewrite IH by (rewrite length_skipn; lia). change (skipn (50 * 0) l) with l.
      apply firstn_skipn.
    + intros i. rewrite skipn_skipn. do 2 f_equal. lia.
Qed.

Lemma totalPages_bounds (n : nat) :
  (50 * (totalPages n - 1) < Z.of_nat n <= 50 * totalPages n)%Z.
Proof. unfold totalPages, logsPerPage. Z.div_mod_to_equations. lia. Qed.

(** X13.  The pages 1 to [totalPages] cut the filtered list in consecutive
    pieces: put end to end they give the list back, and each of them holds at
    least one and at most 50 records. *)
Theorem pages_partition {A : Type} (l : list A) :
  concat (all_pages l) = l
  /\ Forall (fun page => 1 <= length page <= 50) (all_pages l).
Proof.
  unfold all_pages. pose proof (totalPages_bounds (length l)) as Hb.
  rewrite (map_ext_in _ (fun i => firstn 50 (skipn (50 * i) l)))
    by (intros; apply paginatedLogs_chunk).
  split.
  - apply chunks_concat. lia.
  - apply List.Forall_forall. intros page Hin. apply in_map_iff in Hin as (i & <- & Hi).
    apply in_seq in Hi. rewrite length_firstn, length_skipn. lia.
Qed.

(** X14.  Outside the pages 1 to [totalPages] there is nothing to show: page
    0 and every page after the last one are empty. *)
Theorem page_out_of_range {A : Type} (l : list A) (currentPage : Z) :
  (currentPage = 0 \/ totalPages (length l) < currentPage)%Z ->
  paginatedLogs l currentPage = [].
Proof.
  pose proof (totalPages_bounds (length l)) as Hb. intros [->|H].
  - unfold paginatedLogs, slice, logsPerPage. cbv zeta.
    change ((0 - 1) * 50)%Z with (-50)%Z. change (-50 + 50)%Z with 0%Z.
    change (-50 <? 0)%Z with true. change (0 <? 0)%Z with false. cbv iota.
    replace (Z.to_nat _) with 0 by lia. done.
  - replace currentPage with (Z.of_nat (S (Z.to_nat (currentPage - 1)))) by lia.
    rewrite paginatedLogs_chunk, skipn_all2; [done|lia].
Qed.

Lemma page_out_of_range_witness :
  paginatedLogs [1; 2; 3] 2 = [] /\ paginatedLogs [1; 2; 3] 0 = [].
Proof.
  split; apply page_out_of_range; [right; reflexivity|left; reflexivity].
Defined.

(** X15.  For a current page between 1 and the number of pages, the buttons
    of the pager carry consecutive page numbers, at most five, all between 1
    and the number of pages, and the current page is among them. *)
Theorem pager_buttons (total currentPage : Z) :
  (1 <= currentPage <= total)%Z ->
  In currentPage (pager_pages total currentPage)
  /\ Forall (fun page => 1 <= page <= total)%Z (pager_pages total currentPage)
  /\ (forall i, (i < length (pager_pages total currentPage))%nat ->
        nth_error (pager_pages total currentPage) i
        = Some (hd 0%Z (pager_pages total currentPage) + Z.of_nat i)%Z)
  /\ Z.of_nat (length (pager_pages total currentPage)) = Z.min 5 total.
Proof.
  intros H. unfold pager_pages.
  set (first := Z.max 1 (Z.min (total - 4) (currentPage - 2))).
  set (n := Z.to_nat (Z.min 5 total)).
  assert (Hn : 1 <= n) by lia.
  repeat split.
  - apply in_map_iff. exists (Z.to_nat (currentPage - first)). split; [lia|].
    apply in_seq. lia.
  - apply List.Forall_forall. intros page Hin. apply in_map_iff in Hin as (i & <- & Hi).
    apply in_seq in Hi. lia.
  - intros i Hi. rewrite length_map, length_seq in Hi.
    rewrite nth_error_map, nth_error_seq.
    destruct (Nat.ltb_spec i n); [|lia]. simpl.
    destruct n as [|n']; [lia|]. simpl. f_equal. lia.
  - rewrite length_map, length_seq. lia.
Qed.

Lemma pager_buttons_witness :
  (1 <= 7 <= 9)%Z /\ In 7%Z (pager_pages 9 7).
Proof.
  assert (H : (1 <= 7 <= 9)%Z) by lia. split; [exact H|]. exact (proj1 (pager_buttons 9 7 H)).
Defined.
(** ** Counting by level *)

Lemma count_levels (logs : list LogEntry) :
  Forall (fun r => In (level r) levels) logs ->
  errorCount (summary logs) + warningCount (summary logs)
  + infoCount (summary logs) + debugCount (summary logs) = totalLogs (summary logs).
Proof.
  unfold summary, count_level. cbn [errorCount warningCount infoCount debugCount totalLogs].
  induction 1 as [|r l Hr Hl IH]; [done|]. cbn [List.filter length].
  assert (E : exists a b c d : bool,
    jseqb (level r) (js "ERROR") = a /\ jseqb (level r) (js "WARN") = b
    /\ jseqb (level r) (js "INFO") = c /\ jseqb (level r) (js "DEBUG") = d
    /\ (if a then 1 else 0) + (if b then 1 else 0) + (if c then 1 else 0) + (if d then 1 else 0) = 1).
  { destruct Hr as [<-|[<-|[<-|[<-|[]]]]]; by eexists _, _, _, _. }
  destruct E as (a & b & c & d & -> & -> & -> & -> & E).
  destruct a, b, c, d; simpl in *; lia.
Qed.

(** X16.  In the summary of an analysis of the masked records of a parsed
    text the four counts by level add up to the total: every record is
    counted under exactly one of ERROR, WARN, INFO and DEBUG. *)
Theorem summary_counts_add_up (U : URLImpl) (clock : Clock) (text : jsstring) :
  let s := summary (handleMaskLogs U (parseLogText clock text)) in
  errorCount s + warningCount s + infoCount s + debugCount s = totalLogs s
  /\ totalLogs s = length (text_lines text).
Proof.
  cbv zeta. split.
  - apply count_levels. unfold handleMaskLogs. rewrite parseLogText_entries.
    apply List.Forall_forall. intros r Hr. apply in_map_iff in Hr as (r0 & <- & Hr).
    apply list_elem_of_In, list_elem_of_lookup in Hr as [i Hi].
    rewrite list_lookup_imap in Hi. destruct (text_lines text !! i) as [line|]; [|done].
    injection Hi as <-. apply extract_level_closed.
  - unfold summary, handleMaskLogs. cbn [totalLogs].
    by rewrite length_map, parseLogText_entries, length_imap.
Qed.

(** ** Submitting a text or a file *)

Lemma text_lines_ink text : nonempty (trim text) = true -> 0 < length (text_lines text).
Proof.
  intros H. rewrite text_lines_count. apply has_ink_count.
  rewrite <- nonblank_ink. exact H.
Qed.

Lemma parseLogText_length clock text : length (parseLogText clock text) = length (text_lines text).
Proof. by rewrite parseLogText_entries, length_imap. Qed.

(** X17.  [handleTextSubmit] shows an alert only for a blank input, and then
    it is the request to enter log data: the alerts about no valid lines and
    no parsed entries never show.  When it uploads, the records are those of
    [parseLogText], one for each non-blank line and at least one, and the
    name recorded tells their number. *)
Theorem handleTextSubmit_outcomes (clock : Clock) (confirm : jsstring -> bool)
    (textInput : jsstring) (uploadedFileName : option jsstring) :
  let '(name, outcome) := handleTextSubmit clock confirm textInput uploadedFileName in
  match outcome with
  | Alert msg =>
      msg = js "Please enter some log data" /\ trim textInput = [] /\ name = uploadedFileName
  | Declined => length (text_lines textInput) < 3 /\ name = uploadedFileName
  | Uploaded logs =>
      logs = parseLogText clock textInput
      /\ length logs = count_lines false textInput /\ 0 < length logs
      /\ name = Some (js "Manual Input (" ++ nat_to_string (length logs) ++ js " entries)")
  end.
Proof.
  unfold handleTextSubmit. fold (text_lines textInput).
  destruct (nonempty (trim textInput)) eqn:Hne; cbn [negb].
  2:{ repeat split. by destruct (trim textInput). }
  pose proof (text_lines_ink _ Hne) as Hpos.
  destruct (Nat.eqb_spec (length (text_lines textInput)) 0) as [E|_]; [lia|].
  destruct (_ && _) eqn:Hc.
  { split; [|done]. apply andb_prop in Hc as [Hc _]. by apply Nat.ltb_lt in Hc. }
  rewrite (parseLogText_length clock textInput).
  destruct (Nat.eqb_spec (length (text_lines textInput)) 0) as [E|_]; [lia|].
  rewrite parseLogText_length, text_lines_count. rewrite text_lines_count in Hpos.
  repeat split; done.
Qed.

(** X18.  [handleFile] never shows the alert about no valid log entries: its
    alerts are those about the size, about an empty file and about a failed
    read.  When it uploads, the file is within the size limit, the records
    are those of [parseLogText] on its text, at least one, and the name of
    the file is recorded. *)
Theorem handleFile_outcomes (clock : Clock) (confirm : jsstring -> bool)
    (file : File.t) (uploadedFileName : option jsstring) :
  let '(name, outcome) := handleFile clock confirm file uploadedFileName in
  match outcome with
  | Alert msg =>
      ~ In msg no_entries_alerts
      /\ ((maxSize < File.size file)%Z /\ name = uploadedFileName
          \/ (exists text, File.text file = inl text /\ trim text = [])
             /\ name = Some (File.name file)
          \/ (exists error, File.text file = inr error) /\ name = None)
  | Declined => True
  | Uploaded logs =>
      (File.size file <= maxSize)%Z
      /\ (exists text, File.text file = inl text /\ logs = parseLogText clock text)
      /\ logs <> [] /\ name = Some (File.name file)
  end.
Proof.
  unfold handleFile. cbv zeta.
  destruct (Z.ltb_spec maxSize (File.size file)) as [Hs|Hs].
  { split; [by vm_compute; intuition discriminate|]. by left. }
  destruct (_ && _ && _); [done|].
  destruct (File.text file) as [text|error] eqn:Ht.
  - destruct (nonempty (trim text)) eqn:Hne; cbn [negb].
    2:{ split; [by vm_compute; intuition discriminate|]. right; left.
        split; [|done]. exists text. split; [done|]. by destruct (trim text). }
    destruct (_ && _); [done|].
    pose proof (text_lines_ink _ Hne) as Hpos.
    rewrite (parseLogText_length clock text).
    destruct (Nat.eqb_spec (length (text_lines text)) 0) as [E|_]; [lia|].
    split; [done|]. split; [by eauto|]. split; [|done].
    intros E. rewrite <- (parseLogText_length clock), E in Hpos. simpl in Hpos. lia.
  - split; [|right; right; by eauto].
    destruct error as [msg|]; [destruct (includes _ msg)|]; vm_compute; intuition discriminate.
Qed.

Lemma lastIndexOf_from_none c s i found :
  ~ In c s -> lastIndexOf_from c s i found = found.
Proof.
  revert i found. induction s as [|x s IH]; intros i found H; simpl; [done|].
  destruct (Ascii.eqb_spec x c) as [->|_]; [destruct H; by left|].
  apply IH. intros Hin. apply H. by right.
Qed.

Lemma lastIndexOf_from_app c a b i found :
  lastIndexOf_from c (a ++ b) i found
  = lastIndexOf_from c b (i + Z.of_nat (length a)) (lastIndexOf_from c a i found).
Proof.
  revert i found. induction a as [|x a IH]; intros i found; simpl.
  - by rewrite Z.add_0_r.
  - rewrite IH. f_equal. lia.
Qed.

Lemma lastIndexOf_last c stem ext :
  ~ In c ext -> lastIndexOf c (stem ++ c :: ext) = Z.of_nat (length stem).
Proof.
  intros H. unfold lastIndexOf. rewrite lastIndexOf_from_app. simpl.
  rewrite Ascii.eqb_refl. by rewrite lastIndexOf_from_none.
Qed.

(** X19.  A file whose name is made of code units up to 255 (the modelled
    range, where lower-casing keeps the length) and ends in '.log', '.txt',
    '.text' or '.out', in any letter case, is not asked about its type:
    whatever the answer to the type question would be, [handleFile] does the
    same. *)
Theorem handleFile_known_extension (clock : Clock) (confirm : jsstring -> bool)
    (file : File.t) (uploadedFileName : option jsstring) (stem ext : jsstring) (answer : bool) :
  File.name file = stem ++ "."%char :: ext ->
  In (toLowerCase ext) [js "log"; js "txt"; js "text"; js "out"] ->
  handleFile clock (answering type_question answer confirm) file uploadedFileName
  = handleFile clock confirm file uploadedFileName.
Proof.
  intros Hn He. unfold handleFile. cbv zeta.
  assert (Hdot : ~ In "."%char ext).
  { intros Hin. apply (in_map to_lower) in Hin.
    change (map to_lower ext) with (toLowerCase ext) in Hin.
    destruct He as [He|[He|[He|[He|[]]]]]; rewrite <- He in Hin;
      vm_compute in Hin; intuition discriminate. }
  rewrite Hn, (lastIndexOf_last _ _ _ Hdot).
  assert (Hx : includes_str allowedExtensions
                 (substring (Z.of_nat (length stem)) (toLowerCase (stem ++ "."%char :: ext))) = true).
  { unfold substring. rewrite Z.max_r, Nat2Z.id by lia.
    unfold toLowerCase. rewrite map_app. cbn [map].
    rewrite <- (length_map to_lower stem), skipn_app, Nat.sub_diag, skipn_all. cbn [skipn app].
    change (map to_lower ext) with (toLowerCase ext). change (to_lower ".") with "."%char.
    destruct He as [He|[He|[He|[He|[]]]]]; rewrite <- He; reflexivity. }
  rewrite Hx. cbn [negb andb]. rewrite !andb_false_r.
  destruct (Z.ltb maxSize (File.size file)); [done|].
  destruct (File.text file) as [text|?]; [|done].
  destruct (negb (nonempty (trim text))); [done|].
  replace (answering type_question answer confirm short_question) with (confirm short_question);
    [done|].
  unfold answering. by vm_compute.
Qed.

Lemma handleFile_known_extension_witness :
  let file := {| File.name := js "Server.LOG"; File.type := []; File.size := 12;
                 File.text := inl (js "ERROR boom!!") |} in
  File.name file = js "Server" ++ "."%char :: js "LOG"
  /\ In (toLowerCase (js "LOG")) [js "log"; js "txt"; js "text"; js "out"]
  /\ handleFile (fun _ => js "now") (answering type_question false (fun _ => true)) file None
     = handleFile (fun _ => js "now") (fun _ => true) file None.
Proof.
  intros file.
  assert (H1 : File.name file = js "Server" ++ "."%char :: js "LOG") by reflexivity.
  assert (H2 : In (toLowerCase (js "LOG")) [js "log"; js "txt"; js "text"; js "out"])
    by (left; reflexivity).
  split; [exact H1|]. split; [exact H2|].
  exact (handleFile_known_extension (fun _ => js "now") (fun _ => true) file None
           (js "Server") (js "LOG") false H1 H2).
Defined.
(** ** Export and re-import *)

Lemma split_join (ls : list jsstring) : ls <> [] -> Forall (fun l => ~ In LF l) ls ->
  split LF (join [LF] ls) = ls.
Proof.
  intros Hne H. induction H as [|l ls Hl Hls IH]; [done|].
  destruct ls as [|l2 ls].
  - simpl. by apply split_no_sep.
  - change (join [LF] (l :: l2 :: ls)) with (l ++ LF :: join [LF] (l2 :: ls)).
    rewrite split_app_sep by done. f_equal. by apply IH.
Qed.

Lemma export_line_bracket r : exists a b, export_line r = a ++ "["%char :: b.
Proof.
  unfold export_line. cbv zeta.
  set (L := timestamp r ++ js " " ++ level r ++ js " [" ++ _).
  assert (HL : exists a b, L = a ++ "["%char :: b).
  { exists (timestamp r ++ js " " ++ level r ++ js " "), (or_default (component r) (js "Unknown") ++ js "] " ++ message r).
    unfold L. by rewrite <- !app_assoc. }
  destruct HL as (a & b & ->).
  destruct (truthy (url r)), (truthy (responseCode r)); rewrite <- ?app_assoc; cbn [app]; by eauto.
Qed.

Lemma export_line_nonblank r : nonblank (export_line r) = true.
Proof.
  rewrite nonblank_ink. destruct (export_line_bracket r) as (a & b & ->).
  unfold has_ink. rewrite existsb_app. simpl. apply orb_true_r.
Qed.

Lemma filter_all {A} (P : A -> bool) l : Forall (fun x => P x = true) l -> List.filter P l = l.
Proof. induction 1 as [|x l Hx Hl IH]; simpl; [done|]. by rewrite Hx, IH. Qed.

Lemma export_text_lines (logs : list LogEntry) : logs <> [] ->
  Forall (fun r => ~ In LF (export_line r)) logs ->
  text_lines (join [LF] (map export_line logs)) = map export_line logs.
Proof.
  intros Hne H. unfold text_lines. fold LF. rewrite split_join.
  - apply filter_all. apply List.Forall_forall. intros l Hl.
    apply in_map_iff in Hl as (r & <- & _). apply export_line_nonblank.
  - by destruct logs.
  - apply List.Forall_forall. intros l Hl. apply in_map_iff in Hl as (r & <- & Hr).
    rewrite List.Forall_forall in H. by apply H.
Qed.

(** X25.  Export and re-import keep the number of records: when no exported
    line holds a line feed, parsing the text that [exportMaskedLogs] saves
    yields as many records as were exported. *)
Theorem export_reimport_count (clock : Clock) (logs : list LogEntry) :
  logs <> [] ->
  Forall (fun r => ~ In LF (export_line r)) logs ->
  exists text, exportMaskedLogs logs = Some text
               /\ length (parseLogText clock text) = length logs.
Proof.
  intros Hne H. exists (join [LF] (map export_line logs)). split.
  - by destruct logs.
  - rewrite parseLogText_entries, length_imap. fold LF.
    by rewrite export_text_lines, length_map.
Qed.

Lemma strip_starts2 w p c c2 s : strip true w p (c :: c2 :: s) <> None -> starts2 w c c2 = true.
Proof.
  destruct w as [|x [|y w]]; try done. cbn [strip starts2].
  destruct (set_has true [CChar x] c); [|done]. by destruct (set_has true [CChar y] c2).
Qed.

Lemma keyword_here_starts2 ws p c c2 s :
  forallb (fun w => negb (starts2 (js w) c c2)) ws = true ->
  keyword_here ws p (c :: c2 :: s) = None.
Proof.
  induction ws as [|w ws IH]; intros H; [done|]. cbn [forallb] in H.
  apply andb_true_iff in H as [Hw H]. cbn [keyword_here].
  destruct (strip true (js w) p (c :: c2 :: s)) as [[p' s']|] eqn:E; [|by apply IH].
  rewrite (strip_starts2 (js w) p c c2 s) in Hw; [done|]. by rewrite E.
Qed.

Lemma iso_units_no_keyword c c2 :
  iso_unit c = true -> iso_unit c2 = true ->
  forallb (fun w => negb (starts2 (js w) c c2)) level_words = true.
Proof.
  intros Hc.
  assert (H : forallb (fun c => if iso_unit c
                then forallb (fun c2 => if iso_unit c2
                       then forallb (fun w => negb (starts2 (js w) c c2)) level_words
                       else true) all_ascii
                else true)
              all_ascii = true) by (vm_compute; reflexivity).
  pose proof (ascii_forall _ H c) as H'. cbv beta in H'. rewrite Hc in H'.
  intros Hc2.
  pose proof (ascii_forall
                (fun c2 => if iso_unit c2
                           then forallb (fun w => negb (starts2 (js w) c c2)) level_words
                           else true) H' c2) as H''.
  cbv beta in H''. by rewrite Hc2 in H''.
Qed.

Lemma find_keyword_timestamp ts : forall p c rest,
  forallb iso_unit ts = true -> iso_unit c = true ->
  find_keyword p (ts ++ c :: rest) = find_keyword (prev_after p ts) (c :: rest).
Proof.
  induction ts as [|a ts IH]; intros p c rest Hts Hc; [done|].
  simpl in Hts. apply andb_true_iff in Hts as [Ha Hts].
  assert (Hk : keyword_here level_words p ((a :: ts) ++ c :: rest) = None).
  { destruct ts as [|b ts].
    - apply keyword_here_starts2. by apply iso_units_no_keyword.
    - apply keyword_here_starts2. apply iso_units_no_keyword; [done|].
      simpl in Hts. by apply andb_true_iff in Hts as [? _]. }
  change ((a :: ts) ++ c :: rest) with (a :: ts ++ c :: rest) in Hk |- *.
  assert (E : find_keyword p (a :: ts ++ c :: rest) = find_keyword (Some a) (ts ++ c :: rest)).
  { cbn [find_keyword]. rewrite Hk. by destruct (boundary _ _). }
  rewrite E. cbn [prev_after]. by apply IH.
Qed.

Lemma find_keyword_level lv rest : In lv levels ->
  exists w, find_keyword (Some " "%char) (lv ++ " "%char :: rest) = Some w /\ level_table w = lv.
Proof.
  intros [<-|[<-|[<-|[<-|[]]]]]; eexists; (split; [vm_compute; reflexivity|reflexivity]).
Qed.

Lemma space_no_keyword p rest : keyword_here level_words p (" "%char :: rest) = None.
Proof. by vm_compute. Qed.

Lemma export_line_level (r : LogEntry) :
  In (level r) levels -> forallb iso_unit (timestamp r) = true ->
  extract_level (export_line r) = level r.
Proof.
  intros Hl Ht. rewrite extract_level_keyword.
  assert (E : exists rest, export_line r = timestamp r ++ " "%char :: level r ++ " "%char :: rest).
  { unfold export_line. cbv zeta.
    destruct (truthy (url r)), (truthy (responseCode r));
      rewrite <- ?app_assoc; cbn [js list_ascii_of_string app]; rewrite <- ?app_assoc;
      cbn [app]; by eexists. }
  destruct E as [rest ->].
  rewrite find_keyword_timestamp by done.
  cbn [find_keyword]. rewrite space_no_keyword.
  assert ((if boundary (prev_after None (timestamp r)) (" "%char :: level r ++ " "%char :: rest)
           then @None string else None) = None) as -> by (by destruct (boundary _ _)).
  destruct (find_keyword_level (level r) rest Hl) as (w & -> & Hw). done.
Qed.

(** X26.  Export and re-import keep the levels: when every record is
    written on one line, has one of the four levels and a timestamp in ISO
    form, the records parsed from the text that [exportMaskedLogs] saves have,
    one by one, the levels of the exported records. *)
Theorem export_reimport_levels (clock : Clock) (logs : list LogEntry) :
  logs <> [] ->
  Forall reads_back logs ->
  exists text, exportMaskedLogs logs = Some text
               /\ map level (parseLogText clock text) = map level logs.
Proof.
  intros Hne H. exists (join [LF] (map export_line logs)). split; [by destruct logs|].
  rewrite parseLogText_entries. fold LF. rewrite export_text_lines; [|done|].
  2:{ eapply Forall_impl; [exact H|]. by intros r (? & _). }
  apply list_eq. intros i. rewrite !list_lookup_fmap, list_lookup_imap, list_lookup_fmap.
  destruct (logs !! i) as [r|] eqn:Hi; [|done]. cbn.
  f_equal. rewrite List.Forall_forall in H.
  destruct (H r) as (_ & Hl & Ht); [apply list_elem_of_In; by apply list_elem_of_lookup_2 in Hi|].
  by apply export_line_level.
Qed.

Lemma export_reimport_count_witness :
  let logs := [fallbackLog (js "2024-01-01T00:00:00.000Z") 0 (js "boot");
               fallbackLog (js "2024-01-01T00:00:01.000Z") 1 (js "ready")] in
  logs <> []
  /\ Forall (fun r => ~ In LF (export_line r)) logs
  /\ exists text, exportMaskedLogs logs = Some text
                  /\ length (parseLogText (fun _ => js "now") text) = length logs.
Proof.
  intros logs.
  assert (H1 : logs <> []) by discriminate.
  assert (H2 : Forall (fun r => ~ In LF (export_line r)) logs).
  { apply List.Forall_forall. intros r [<-|[<-|[]]]; vm_compute; intuition discriminate. }
  split; [exact H1|]. split; [exact H2|].
  exact (export_reimport_count (fun _ => js "now") logs H1 H2).
Defined.

Lemma export_reimport_levels_witness :
  let logs := [fallbackLog (js "2024-01-01T00:00:00.000Z") 0 (js "boot");
               fallbackLog (js "2024-01-01T00:00:01.000Z") 1 (js "ready")] in
  logs <> []
  /\ Forall reads_back logs
  /\ exists text, exportMaskedLogs logs = Some text
                  /\ map level (parseLogText (fun _ => js "now") text) = map level logs.
Proof.
  intros logs.
  assert (H1 : logs <> []) by discriminate.
  assert (H2 : Forall reads_back logs).
  { apply List.Forall_forall. intros r [<-|[<-|[]]];
      (split; [vm_compute; intuition discriminate|split; [vm_compute; tauto|reflexivity]]). }
  split; [exact H1|]. split; [exact H2|].
  exact (export_reimport_levels (fun _ => js "now") logs H1 H2).
Defined.
(** ** The forms of a timestamp *)

Lemma pad_digits_length w : forall z acc, length (pad_digits w z acc) = w + length acc.
Proof.
  induction w as [|w IH]; intros z acc; [done|]. cbn [pad_digits]. rewrite IH. simpl. lia.
Qed.

Lemma pad_length w z : length (pad w z) = w.
Proof. unfold pad. rewrite pad_digits_length. simpl. lia. Qed.

Lemma digit_char_iso z : iso_unit (digit_char z) = true.
Proof.
  unfold digit_char.
  assert (H : (0 <= z mod 10 < 10)%Z) by (apply Z.mod_pos_bound; lia).
  assert (E : exists n, (n < 10)%nat /\ (z mod 10)%Z = Z.of_nat n).
  { exists (Z.to_nat (z mod 10)). lia. }
  destruct E as (n & Hn & ->).
  do 10 (destruct n as [|n]; [reflexivity|]). lia.
Qed.

Lemma pad_digits_iso w : forall z acc,
  forallb iso_unit acc = true -> forallb iso_unit (pad_digits w z acc) = true.
Proof.
  induction w as [|w IH]; intros z acc H; [done|]. cbn [pad_digits]. apply IH.
  cbn [forallb]. by rewrite digit_char_iso.
Qed.

Lemma pad_iso w z : forallb iso_unit (pad w z) = true.
Proof. by apply pad_digits_iso. Qed.

Lemma civil_year_range day : (0 <= day < 115741)%Z ->
  (0 <= fst (fst (civil_from_days day)) <= 9999)%Z.
Proof.
  intros H. unfold civil_from_days. cbv zeta. cbn [fst].
  destruct (_ <=? 2)%Z; Z.div_mod_to_equations; lia.
Qed.

Lemma toISOString_shape ms : (0 <= ms < 10 ^ 13)%Z ->
  exists iso, toISOString ms = Some iso /\ length iso = 24 /\ forallb iso_unit iso = true.
Proof.
  intros H. change (10 ^ 13)%Z with 10000000000000%Z in H. unfold toISOString.
  destruct (Z.leb_spec (Z.abs ms) 8640000000000000) as [_|?]; [|lia].
  pose proof (civil_year_range (ms / 86400000)) as Hy.
  destruct (civil_from_days (ms / 86400000)) as [[y mo] d]. cbn [fst] in Hy.
  assert (0 <= ms / 86400000 < 115741)%Z as Hd by (Z.div_mod_to_equations; lia).
  specialize (Hy Hd).
  assert ((0 <=? y)%Z && (y <=? 9999)%Z = true) as ->
    by (apply andb_true_iff; split; apply Z.leb_le; lia).
  eexists. split; [reflexivity|]. split.
  - rewrite !length_app, !pad_length. reflexivity.
  - rewrite !forallb_app, !pad_iso. reflexivity.
Qed.

(** X27.  The timestamp of a line comes in three forms: the reading of the
    clock when no pattern matches; the text matched by the first pattern that
    matches, as it stands in the line; and, when that text is a number of 13
    digits, its conversion, a text of 24 units in ISO form. *)
Theorem timestamp_forms (now line : jsstring) :
  match first_capture (map (pair false) timestampPatterns) line with
  | None => extract_timestamp now line = Some now
  | Some ts =>
      occurs ts line
      /\ if test false re_epoch_only ts
         then exists iso, extract_timestamp now line = Some iso
                          /\ length iso = 24 /\ forallb iso_unit iso = true
         else extract_timestamp now line = Some ts
  end.
Proof.
  unfold extract_timestamp.
  destruct (first_capture _ line) as [ts|] eqn:E; [|done].
  split; [by apply first_capture_occurs in E|].
  destruct (test false re_epoch_only ts) eqn:Et; [|done].
  apply test_epoch_only in Et as [Hl Hd].
  pose proof (digits_value_bound ts Hd 0%Z ltac:(lia)) as Hb. rewrite Hl in Hb.
  apply toISOString_shape. unfold parseInt.
  change (Z.of_nat 13) with 13%Z in Hb. lia.
Qed.
(** ** The recorded headers *)

Lemma split_incl sep s : forall l c, In l (split sep s) -> In c l -> In c s.
Proof.
  induction s as [|a s IH]; intros l c Hl Hc; simpl in Hl.
  - by destruct Hl as [<-|[]].
  - destruct (Ascii.eqb a sep).
    + destruct Hl as [<-|Hl]; [done|]. right. by apply (IH l).
    + destruct (split sep s) as [|l0 ls] eqn:E.
      * destruct Hl as [<-|[]]. destruct Hc as [<-|[]]. by left.
      * destruct Hl as [<-|Hl].
        -- destruct Hc as [<-|Hc]; [by left|]. right. apply (IH l0); [by left|done].
        -- right. apply (IH l); [by right|done].
Qed.

Lemma clean_header_text pair x :
  ~ In ","%char pair -> In x (split ":" pair) -> nonempty (clean x) = true ->
  header_text (clean x) = true.
Proof.
  intros Hc Hx Hne. unfold header_text. rewrite Hne. cbn [andb].
  apply forallb_forall. intros c Hin. rewrite clean_filter in Hin.
  apply filter_In in Hin as [Hin Hq]. apply trim_incl in Hin.
  apply negb_true_iff in Hq. rewrite Hq. cbn [orb]. apply negb_true_iff, orb_false_iff. split.
  - apply Ascii.eqb_neq. intros ->.
    pose proof (split_no_sep_in ":" pair) as H. rewrite List.Forall_forall in H.
    by apply (H x Hx).
  - apply Ascii.eqb_neq. intros ->. apply Hc. by apply (split_incl ":" pair x).
Qed.

Lemma add_pair_ok hs pair : ~ In ","%char pair -> headers_ok hs -> headers_ok (add_pair hs pair).
Proof.
  intros Hc Hhs. unfold add_pair.
  destruct (split ":" pair) as [|x [|y rest]] eqn:E; try done. cbn [map].
  destruct (nonempty (clean x)) eqn:Hx; [|done].
  destruct (nonempty (clean y)) eqn:Hy; [|done]. cbn [andb]. unfold set_header.
  destruct (jseqb (clean x) (js "__proto__")) eqn:Ep; [done|].
  intros k v Hkv. destruct (decide (k = clean x)) as [->|Hne].
  - rewrite lookup_insert_eq in Hkv. injection Hkv as <-.
    split; [|split].
    + apply (clean_header_text pair); [done| |done]. rewrite E. by left.
    + apply (clean_header_text pair); [done| |done]. rewrite E. right. by left.
    + intros Heq. rewrite Heq in Ep. by rewrite jseqb_refl in Ep.
  - rewrite lookup_insert_ne in Hkv by done. by apply Hhs.
Qed.

Lemma parse_headers_ok headerString : headers_ok (parse_headers headerString).
Proof.
  unfold parse_headers.
  pose proof (split_no_sep_in "," headerString) as H.
  assert (Hinit : headers_ok ∅) by (intros k v Hkv; by rewrite lookup_empty in Hkv).
  revert Hinit. generalize (∅ : gmap jsstring jsstring).
  induction H as [|pair pairs Hp Hps IH]; intros hs Hhs; [done|].
  cbn [fold_left]. apply IH. by apply add_pair_ok.
Qed.

(** X28.  The headers of a record, when there are some, are a non-empty map
    in which every name and every value is a non-empty text without quote,
    colon or comma, and no name is '__proto__'. *)
Theorem extract_headers_invariant (line : jsstring) :
  on_some (fun hs => hs <> ∅ /\ headers_ok hs) (extract_headers line).
Proof.
  unfold extract_headers. destruct (jsmatch true re_headers line) as [[mt cs]|]; [|done].
  cbv zeta. destruct (decide (parse_headers (cap 1 cs) = ∅)) as [|Hne]; [done|].
  split; [done|apply parse_headers_ok].
Qed.
